(** * StockPredictorApp: the forecasting engine of [src/App.tsx]

    A shallow embedding of the numerical core of the application
    ([sma], [ema], [stddev], [transpose], [matMul], [invertMatrix],
    [linearRidge], [predict], [improvedPredict]) and the properties of
    it that the specification states; and of what the application does
    around it: the candles it makes of a response ([fetchStockData]), the
    state its handler writes ([handleStockPrediction]), the chart
    ([getChartData]) and the file name of the local articles.

    The TypeScript code computes on JavaScript numbers.  The embedding is
    written once, against the interface [JSNumber] of the operations the
    code uses, and is run on two implementations of it:

    - [float], the kernel's binary64 numbers, which are the numbers
      JavaScript has: the engine then evaluates as the program does;
    - [xnum F], exact arithmetic over an ordered subfield [F] of the reals,
      extended with [NaN] and the two infinities: the idealisation in which
      the algebraic statements of the specification are meant (no rounding,
      no overflow, one zero), and in which division by zero, the square
      root of a negative number and a read outside an array still produce
      the non-finite values they produce in JavaScript. *)

From Stdlib Require Import List ZArith Bool Lia Floats.
From Stdlib Require Import NArith.
From Stdlib Require String.
From Stdlib Require Import Reals Lra.
From Stdlib Require QArith Qabs Qcanon Qcabs Qreals.
Import ListNotations.

Set Implicit Arguments.

(** ** JavaScript numbers, as the engine uses them *)

Class JSNumber (num : Type) : Type := {
  (** the value [NaN]; also what [undefined] becomes in arithmetic *)
  NaN : num;
  (** an integer literal, an array length or a loop counter as a number *)
  ofZ : Z -> num;
  add : num -> num -> num;
  sub : num -> num -> num;
  mul : num -> num -> num;
  div : num -> num -> num;
  Math_sqrt : num -> num;
  Math_abs : num -> num;
  (** [a < b]; [a > b] is [ltb b a] *)
  ltb : num -> num -> bool;
  Math_max : num -> num -> num;
  Math_min : num -> num -> num;
  (** ToBoolean: false exactly on zero and [NaN] *)
  truthy : num -> bool
}.

Declare Scope js_scope.
Delimit Scope js_scope with js.
Infix "+" := add : js_scope.
Infix "-" := sub : js_scope.
Infix "*" := mul : js_scope.
Infix "/" := div : js_scope.
Infix "<?" := ltb : js_scope.

(** What the code may raise: reading a property of [undefined]. *)
Inductive outcome (A : Type) : Type :=
| Ok (a : A)
| TypeError.
Arguments Ok {A} a.
Arguments TypeError {A}.

Definition bind {A B : Type} (c : outcome A) (k : A -> outcome B) : outcome B :=
  match c with
  | Ok a => k a
  | TypeError => TypeError
  end.

Notation "x <- c ;; k" := (bind c (fun x => k))
  (at level 61, c at next level, right associativity).

(** ** Arrays *)

Section Arrays.
Context {A : Type}.

(** [arr[i]]: [None] is [undefined]. *)
Definition at_ (arr : list A) (i : Z) : option A :=
  if (i <? 0)%Z then None else nth_error arr (Z.to_nat i).

(** [a ?? d] *)
Definition coalesce (a : option A) (d : A) : A :=
  match a with
  | Some v => v
  | None => d
  end.

(** [arr.slice(a, b)] and [arr.slice(a)] for [0 <= a], [0 <= b]. *)
Definition slice (arr : list A) (a b : nat) : list A := firstn (b - a) (skipn a arr).
Definition slice_from (arr : list A) (a : nat) : list A := skipn a arr.

(** [arr.reduce(f, init)] *)
Definition reduce {B : Type} (f : B -> A -> B) (arr : list A) (init : B) : B :=
  fold_left f arr init.

(** [arr[i] = v] for [i < arr.length] *)
Fixpoint set_nth (i : nat) (v : A) (arr : list A) : list A :=
  match arr, i with
  | [], _ => []
  | _ :: t, O => v :: t
  | h :: t, S j => h :: set_nth j v t
  end.

(** [[arr[i], arr[j]] = [arr[j], arr[i]]] for [i, j < arr.length] *)
Definition swap (d : A) (i j : nat) (arr : list A) : list A :=
  let ai := nth i arr d in
  let aj := nth j arr d in
  set_nth j ai (set_nth i aj arr).
End Arrays.

(** A length or a counter, as a number. *)
Definition ofNat {num} `{JSNumber num} (n : nat) : num := ofZ (Z.of_nat n).

(** The decimal literal [m e k], that is [m * 10^k].  For [k < 0] it is the
    quotient of two integers; in binary64 both are exact for the literals of
    the program, and the correctly rounded quotient is the literal's value. *)
Definition lit {num} `{JSNumber num} (m k : Z) : num :=
  if (0 <=? k)%Z then ofZ (m * 10 ^ k) else (ofZ m / ofZ (10 ^ (- k)))%js.

Section Engine.
Context {num : Type} `{JSNumber num}.
Local Open Scope js_scope.

Definition zero : num := ofZ 0.
Definition one : num := ofZ 1.

(** ToNumber of an array read: [undefined] is [NaN] in arithmetic. *)
Definition toNumber (a : option num) : num := coalesce a NaN.
Definition num_at (arr : list num) (i : Z) : num := toNumber (at_ arr i).
Definition num_nth (arr : list num) (i : nat) : num := num_at arr (Z.of_nat i).

(** [a || d] on numbers *)
Definition orElse (a d : num) : num := if truthy a then a else d.

Definition sum (arr : list num) : num := reduce add arr zero.

(** *** Feature helpers (lines 75-96) *)

Definition sma (arr : list num) (period : nat) : num :=
  if (length arr <? period)%nat then NaN
  else sum (slice_from arr (length arr - period)) / ofNat period.

Definition ema (arr : list num) (period : nat) : num :=
  match arr with
  | [] => NaN
  | a0 :: rest =>
      let k := ofZ 2 / (ofNat period + one) in
      fold_left (fun prev x => x * k + prev * (one - k)) rest a0
  end.

Definition stddev (arr : list num) : num :=
  match arr with
  | [] => NaN
  | _ =>
      let mean := sum arr / ofNat (length arr) in
      let variance :=
        reduce (fun a b => a + (b - mean) * (b - mean)) arr zero / ofNat (length arr) in
      Math_sqrt variance
  end.

(** *** Matrix helpers (lines 99-105) *)

Definition matrix : Type := list (list num).

(** [m[0].map((_, i) => m.map(r => r[i]))]; [m[0]] of an empty [m] is
    [undefined], and [.map] of it raises. *)
Definition transpose (m : matrix) : outcome matrix :=
  match m with
  | [] => TypeError
  | m0 :: _ => Ok (map (fun i => map (fun r => num_nth r i) m) (seq 0 (length m0)))
  end.

(** The triple loop adds [A[i][k] * B[k][j]] to [out[i][j]] for [k]
    ascending; [B[0].length] of an empty [B] raises. *)
Definition matMul (A B : matrix) : outcome matrix :=
  match B with
  | [] => TypeError
  | b0 :: _ =>
      let p := length b0 in
      let m := length B in
      Ok (map (fun Ai =>
                 map (fun j =>
                        fold_left (fun acc k => acc + num_nth Ai k * num_nth (nth k B []) j)
                                  (seq 0 m) zero)
                     (seq 0 p))
              A)
  end.

(** *** Gauss-Jordan inversion (lines 108-126) *)

(** [for (c = 0; c < n; c++) row[c] = f(row[c], c)]: the first [n] cells
    are rewritten (a cell the row lacks is read as [undefined] and then
    created), the others stay. *)
Definition for_cols (n : nat) (f : nat -> num -> num) (row : list num) : list num :=
  map (fun c => f c (num_nth row c)) (seq 0 n) ++ skipn n row.

Definition identity (n : nat) : matrix :=
  map (fun i => map (fun j => if (i =? j)%nat then one else zero) (seq 0 n)) (seq 0 n).

Definition row (M : matrix) (r : nat) : list num := nth r M [].
Definition cell (M : matrix) (r c : nat) : num := num_nth (row M r) c.

(** The search of the pivot row: lines 113-114. *)
Definition findMaxRow (n i : nat) (A : matrix) : nat :=
  fold_left (fun maxRow r =>
               if Math_abs (cell A maxRow i) <? Math_abs (cell A r i) then r else maxRow)
            (seq (S i) (n - S i)) i.

(** The elimination of column [i] from every other row: lines 120-123. *)
Definition eliminate (n i : nat) (AI : matrix * matrix) : matrix * matrix :=
  fold_left (fun (s : matrix * matrix) r =>
               let (A, I) := s in
               if (r =? i)%nat then s
               else
                 let factor := cell A r i in
                 (set_nth r (for_cols n (fun c x => x - factor * cell A i c) (row A r)) A,
                  set_nth r (for_cols n (fun c x => x - factor * cell I i c) (row I r)) I))
            (seq 0 n) AI.

(** One turn of the outer loop; [None] is the [return null]. *)
Definition pivotStep (n : nat) (AI : matrix * matrix) (i : nat) : option (matrix * matrix) :=
  let (A, I) := AI in
  let maxRow := findMaxRow n i A in
  let A := swap [] i maxRow A in
  let I := swap [] i maxRow I in
  let pivot := cell A i i in
  if Math_abs pivot <? lit 1 (-12) then None
  else
    let A := set_nth i (for_cols n (fun _ x => x / pivot) (row A i)) A in
    let I := set_nth i (for_cols n (fun _ x => x / pivot) (row I i)) I in
    Some (eliminate n i (A, I)).

Definition invertMatrix (m : matrix) : option matrix :=
  let n := length m in
  let A := map (fun r => r) m in
  let I := identity n in
  option_map snd
    (fold_left (fun s i => match s with Some AI => pivotStep n AI i | None => None end)
               (seq 0 n) (Some (A, I))).

(** *** Ridge regression (lines 128-139) *)

Definition addRidge (lambda : num) (XtX : matrix) : matrix :=
  fold_left (fun M i => set_nth i (set_nth i (cell M i i + lambda) (row M i)) M)
            (seq 0 (length XtX)) XtX.

Definition linearRidge (X : matrix) (y : list num) (lambda : num) : outcome (option (list num)) :=
  Xt <- transpose X ;;
  XtX <- matMul Xt X ;;
  let XtX := addRidge lambda XtX in
  match invertMatrix XtX with
  | None => Ok None
  | Some XtXinv =>
      Xty <- matMul Xt (map (fun v => [v]) y) ;;
      betaMat <- matMul XtXinv Xty ;;
      Ok (Some (map (fun r => num_nth r 0) betaMat))
  end.

(** *** The forecast (lines 141-272 and 380-393) *)

Record Candle : Type := { date : String.string; close : num; volume : num }.

(** What [predict] and [improvedPredict] return; [predict] leaves
    [confidence] out. *)
Record Forecast : Type := {
  nextPrice : num;
  projectionLine : list num;
  confidence : option num
}.

(** [{ ...s, confidence: c }] *)
Definition withConfidence (s : Forecast) (c : num) : Forecast :=
  {| nextPrice := nextPrice s; projectionLine := projectionLine s; confidence := Some c |}.

Definition hundred : num := ofZ 100.

(** The percent changes of consecutive values: the loop of lines 150-151,
    and again of lines 383-386. *)
Definition pctReturns (closes : list num) : list num :=
  map (fun i =>
         ((num_nth closes i - num_nth closes (i - 1)) / num_nth closes (i - 1)) * hundred)
      (seq 1 (length closes - 1)).

(** The index of the last cell, [arr.length - 1]. *)
Definition lastIndex (arr : list num) : Z := (Z.of_nat (length arr) - 1)%Z.

Definition predict (values : list num) : Forecast :=
  if (length values <? 2)%nat then
    {| nextPrice := coalesce (at_ values (lastIndex values)) zero;
       projectionLine := [];
       confidence := None |}
  else
    let last := num_at values (lastIndex values) in
    let pct := pctReturns values in
    let avg := if (0 <? length pct)%nat then sum pct / ofNat (length pct) else zero in
    let projection :=
      fold_left (fun projection i => projection ++ [num_nth projection i * (one + avg / hundred)])
                (seq 0 5) [last] in
    {| nextPrice := num_at projection (lastIndex projection);
       projectionLine := slice_from projection 1;
       confidence := None |}.

(** [f.reduce((acc, v, j) => acc + v * beta[j], 0)] *)
Definition dot (f beta : list num) : num :=
  reduce (fun acc (jv : nat * num) => acc + snd jv * num_nth beta (fst jv))
         (combine (seq 0 (length f)) f) zero.

(** [(last - (sma(w, 20) || 0)) || 0] *)
Definition momentum (windowCloses : list num) : num :=
  orElse (num_at windowCloses (lastIndex windowCloses) - orElse (sma windowCloses 20) zero) zero.

(** The feature row of cutoff [i] in the full sample: lines 157-168. *)
Definition featureAt (closes returns : list num) (i : nat) : list num :=
  let windowCloses := slice closes 0 (i + 1) in
  let r := at_ returns (Z.of_nat i - 1) in
  [ one;
    coalesce r zero;
    coalesce (Some (sma windowCloses 5)) zero;
    coalesce (Some (sma windowCloses 20)) zero;
    coalesce (Some (ema windowCloses 12)) zero;
    coalesce (Some (ema windowCloses 26)) zero;
    coalesce (Some (stddev (slice returns (Nat.max 0 (i - 19)) i))) zero;
    momentum windowCloses ].

(** The cutoffs of the full sample: [for (i = 20; i < closes.length - 1; i++)]. *)
Definition cutoffs (closes : list num) : list nat := seq 20 (length closes - 1 - 20).

Definition trainingFeatures (closes returns : list num) : matrix :=
  map (featureAt closes returns) (cutoffs closes).
Definition trainingTargets (closes returns : list num) : list num :=
  map (num_nth returns) (cutoffs closes).

(** A training row of the backtest: lines 196-210. *)
Definition backtestFeatureAt (closes : list num) (i : nat) : list num :=
  let windowCloses := slice closes 0 (i + 1) in
  let r := ((num_nth closes i - num_nth closes (i - 1)) / num_nth closes (i - 1)) * hundred in
  [ one;
    coalesce (Some r) zero;
    orElse (sma windowCloses 5) zero;
    orElse (sma windowCloses 20) zero;
    orElse (ema windowCloses 12) zero;
    orElse (ema windowCloses 26) zero;
    orElse (stddev (map (fun _ => zero) (slice closes (Nat.max 0 (i - 19)) i))) zero;
    momentum windowCloses ].

(** Its target: line 212. *)
Definition backtestTargetAt (closes : list num) (i : nat) : num :=
  ((num_nth closes (i + 1) - num_nth closes i) / num_nth closes i) * hundred.

(** The row built at the split to predict the next day: lines 218-229. *)
Definition backtestNextFeature (closes : list num) (split : nat) : list num :=
  let windowCloses := slice closes 0 (split + 1) in
  let lastRet :=
    ((num_at windowCloses (lastIndex windowCloses) - num_at windowCloses (lastIndex windowCloses - 1))
     / num_at windowCloses (lastIndex windowCloses - 1)) * hundred in
  [ one;
    orElse lastRet zero;
    orElse (sma windowCloses 5) zero;
    orElse (sma windowCloses 20) zero;
    orElse (ema windowCloses 12) zero;
    orElse (ema windowCloses 26) zero;
    orElse (stddev (slice closes (Nat.max 0 (split - 19)) split)) zero;
    momentum windowCloses ].

(** One turn of the walk-forward loop (lines 192-235): the errors
    recorded so far, and what this split adds. *)
Definition backtestSplit (closes : list num) (errors : list num) (split : nat)
  : outcome (list num) :=
  let trFeatures := map (backtestFeatureAt closes) (seq 20 (split - 20)) in
  let trTargets := map (backtestTargetAt closes) (seq 20 (split - 20)) in
  if (length trFeatures <? 5)%nat then Ok errors
  else
    betaT <- linearRidge trFeatures trTargets (lit 1 (-2)) ;;
    match betaT with
    | None => Ok errors
    | Some betaT =>
        let fNext := backtestNextFeature closes split in
        let predRet := dot fNext betaT in
        let predictedPrice := num_nth closes split * (one + predRet / hundred) in
        match at_ closes (Z.of_nat split + 1) with
        | Some actualPrice =>
            if truthy actualPrice && (zero <? actualPrice)
            then Ok (errors ++ [Math_abs ((predictedPrice - actualPrice) / actualPrice)])
            else Ok errors
        | None => Ok errors
        end
    end.

(** [for (split = 30; split < n - 1; split += 3)] *)
Definition splits (n : nat) : list nat :=
  filter (fun split => ((split - 30) mod 3 =? 0)%nat) (seq 30 (n - 1 - 30)).

Definition backtestErrors (closes : list num) : outcome (list num) :=
  fold_left (fun acc split => errors <- acc ;; backtestSplit closes errors split)
            (splits (length closes)) (Ok []).

(** Lines 238-243. *)
Definition backtestConfidence (errors : list num) : num :=
  if (0 <? length errors)%nat then
    let mape := sum errors / ofNat (length errors) in
    let threshold := lit 1 (-1) in
    Math_max zero (one - Math_min one (mape / threshold))
  else zero.

(** Lines 181-185. *)
Definition rSquared (features : matrix) (targets beta : list num) : num :=
  let preds := map (fun f => dot f beta) features in
  let meanT := sum targets / ofNat (length targets) in
  let ssRes :=
    reduce (fun a (ib : nat * num) =>
              a + (snd ib - num_nth preds (fst ib)) * (snd ib - num_nth preds (fst ib)))
           (combine (seq 0 (length targets)) targets) zero in
  let ssTot := reduce (fun a b => a + (b - meanT) * (b - meanT)) targets zero in
  one - ssRes / orElse ssTot one.

(** Line 245. *)
Definition finalConfidence (backtestConf r2 : num) : num :=
  Math_max zero
    (Math_min one (lit 8 (-1) * backtestConf + lit 2 (-1) * Math_max zero (Math_min one r2))).

(** The feature row of a rollout step: lines 252-261. *)
Definition rolloutFeature (lastCloses lastReturns : list num) : list num :=
  [ one;
    coalesce (at_ lastReturns (lastIndex lastReturns)) zero;
    coalesce (Some (sma lastCloses 5)) zero;
    coalesce (Some (sma lastCloses 20)) zero;
    coalesce (Some (ema lastCloses 12)) zero;
    coalesce (Some (ema lastCloses 26)) zero;
    coalesce (Some (stddev (slice_from lastReturns (Nat.max 0 (length lastReturns - 20))))) zero;
    momentum lastCloses ].

(** The buffers a rollout step reads and extends. *)
Record Rollout : Type := {
  lastCloses : list num;
  lastReturns : list num;
  projection : list num
}.

(** One turn of the loop of lines 251-269. *)
Definition rolloutStep (beta : list num) (s : Rollout) : Rollout :=
  let fNext := rolloutFeature (lastCloses s) (lastReturns s) in
  let predReturn := dot fNext beta in
  let nextPrice := num_at (lastCloses s) (lastIndex (lastCloses s)) * (one + predReturn / hundred) in
  {| lastCloses := lastCloses s ++ [nextPrice];
     lastReturns := lastReturns s ++ [predReturn];
     projection := projection s ++ [nextPrice] |}.

(** The return and the price a step predicts from the buffers [s]. *)
Definition stepReturn (beta : list num) (s : Rollout) : num :=
  dot (rolloutFeature (lastCloses s) (lastReturns s)) beta.
Definition stepPrice (beta : list num) (s : Rollout) : num :=
  num_at (lastCloses s) (lastIndex (lastCloses s)) * (one + stepReturn beta s / hundred).

Definition rollout (closes returns beta : list num) : Rollout :=
  fold_left (fun s (_ : nat) => rolloutStep beta s) (seq 0 5)
            {| lastCloses := closes; lastReturns := returns; projection := [] |}.

Definition improvedPredict (candles : list Candle) : outcome Forecast :=
  if (length candles <? 30)%nat then
    let closes := map close candles in
    let simple := predict closes in
    Ok (withConfidence simple (lit 2 (-1)))
  else
    let closes := map close candles in
    let returns := pctReturns closes in
    let features := trainingFeatures closes returns in
    let targets := trainingTargets closes returns in
    beta <- linearRidge features targets (lit 1 (-2)) ;;
    match beta with
    | None =>
        let closesOnly := map close candles in
        let s := predict closesOnly in
        Ok (withConfidence s (lit 1 (-1)))
    | Some beta =>
        let r2 := rSquared features targets beta in
        errors <- backtestErrors closes ;;
        let backtestConf := backtestConfidence errors in
        let finalConf := finalConfidence backtestConf r2 in
        let projection := projection (rollout closes returns beta) in
        Ok {| nextPrice := num_at projection (lastIndex projection);
              projectionLine := projection;
              confidence := Some finalConf |}
    end.
End Engine.

Arguments Candle num : clear implicits.
Arguments Forecast num : clear implicits.
Arguments Rollout num : clear implicits.
Arguments matrix num : clear implicits.

(** ** The confidence, in the words of the specification *)

Section SpecConfidence.
Context {num : Type} `{JSNumber num}.
Local Open Scope js_scope.

(** [clamp(x, lo, hi)] *)
Definition clamp (x lo hi : num) : num := Math_max lo (Math_min hi x).

(** [MAPE = mean(errors)] *)
Definition mape (errors : list num) : num := sum errors / ofNat (length errors).

(** [backtestConf = clamp(1 - MAPE/0.10, 0, 1)], and 0 when no split
    recorded an error. *)
Definition specBacktestConf (errors : list num) : num :=
  match errors with
  | [] => zero
  | _ => clamp (one - mape errors / lit 1 (-1)) zero one
  end.

End SpecConfidence.

(** ** binary64: the numbers of JavaScript *)

Module Binary64.
Definition ofZ (z : Z) : float :=
  if (z <? 0)%Z then PrimFloat.opp (PrimFloat.of_uint63 (Uint63.of_Z (- z)))
  else PrimFloat.of_uint63 (Uint63.of_Z z).

Definition isNaN (a : float) : bool := negb (PrimFloat.eqb a a).

(** [Math.max] and [Math.min]: [NaN] when an argument is; of two zeros,
    [Math.max] prefers [+0] and [Math.min] prefers [-0]. *)
Definition isNegZero (a : float) : bool :=
  PrimFloat.eqb a PrimFloat.zero && PrimFloat.ltb (PrimFloat.div PrimFloat.one a) PrimFloat.zero.

Definition max (a b : float) : float :=
  if isNaN a || isNaN b then PrimFloat.nan
  else if PrimFloat.ltb a b then b
  else if PrimFloat.ltb b a then a
  else if isNegZero a then b else a.

Definition min (a b : float) : float :=
  if isNaN a || isNaN b then PrimFloat.nan
  else if PrimFloat.ltb a b then a
  else if PrimFloat.ltb b a then b
  else if isNegZero a then a else b.

Definition truthy (a : float) : bool := negb (isNaN a || PrimFloat.eqb a PrimFloat.zero).

(** [Number.isFinite]: neither [NaN] nor an infinity. *)
Definition isFinite (a : float) : bool :=
  match Prim2SF a with
  | S754_zero _ | S754_finite _ _ _ => true
  | _ => false
  end.
End Binary64.

#[export] Instance float_JSNumber : JSNumber float := {|
  NaN := PrimFloat.nan;
  ofZ := Binary64.ofZ;
  add := PrimFloat.add;
  sub := PrimFloat.sub;
  mul := PrimFloat.mul;
  div := PrimFloat.div;
  Math_sqrt := PrimFloat.sqrt;
  Math_abs := PrimFloat.abs;
  ltb := PrimFloat.ltb;
  Math_max := Binary64.max;
  Math_min := Binary64.min;
  truthy := Binary64.truthy
|}.

(** ** Exact arithmetic

    An ordered subfield of the reals, with its embedding: [Qc] to compute,
    [R] itself.  [fsqrt] is a root from below: the square root in [R], the
    largest fraction of the same denominator under it in [Qc]. *)

Class RealField (F : Type) : Type := {
  fofZ : Z -> F;
  fadd : F -> F -> F;
  fsub : F -> F -> F;
  fmul : F -> F -> F;
  fdiv : F -> F -> F;
  fabs : F -> F;
  fsqrt : F -> F;
  fltb : F -> F -> bool;
  toR : F -> R
}.

(** [toR] embeds the field in the reals, with its order; a division by zero
    is left open; [fsqrt] is a root from below. *)
Class RealFieldLaws (F : Type) `{RealField F} : Prop := {
  toR_inj : forall a b, toR a = toR b -> a = b;
  toR_ofZ : forall z, toR (fofZ z) = IZR z;
  toR_add : forall a b, toR (fadd a b) = (toR a + toR b)%R;
  toR_sub : forall a b, toR (fsub a b) = (toR a - toR b)%R;
  toR_mul : forall a b, toR (fmul a b) = (toR a * toR b)%R;
  toR_div : forall a b, toR b <> 0%R -> toR (fdiv a b) = (toR a / toR b)%R;
  toR_abs : forall a, toR (fabs a) = Rabs (toR a);
  toR_ltb : forall a b, fltb a b = true <-> (toR a < toR b)%R;
  fsqrt_nonneg : forall a, (0 <= toR a)%R -> (0 <= toR (fsqrt a))%R;
  fsqrt_below : forall a, (0 <= toR a)%R -> (toR (fsqrt a) * toR (fsqrt a) <= toR a)%R
}.
Arguments RealFieldLaws F {_}.

(** A JavaScript number under exact arithmetic: a finite value, an infinity
    or [NaN].  There is one zero, the positive one. *)
Inductive xnum (F : Type) : Type :=
| Fin (x : F)
| PInf
| NInf
| XNaN.
Arguments PInf {F}.
Arguments NInf {F}.
Arguments XNaN {F}.

Section Xnum.
Context {F : Type} `{RealField F}.

Definition fzero : F := fofZ 0.
Definition fisZero (x : F) : bool := negb (fltb x fzero) && negb (fltb fzero x).

(** The sign of a finite value: [Lt], [Eq] or [Gt] for negative, zero,
    positive. *)
Definition fsign (x : F) : comparison :=
  if fltb x fzero then Lt else if fltb fzero x then Gt else Eq.

Definition mulSign (s t : comparison) : comparison :=
  match s, t with
  | Eq, _ | _, Eq => Eq
  | Lt, Lt | Gt, Gt => Gt
  | _, _ => Lt
  end.

(** The infinity of a sign; [NaN] for the sign of zero. *)
Definition infOf (s : comparison) : xnum F :=
  match s with
  | Lt => NInf
  | Gt => PInf
  | Eq => XNaN
  end.

Definition xsign (a : xnum F) : comparison :=
  match a with
  | Fin x => fsign x
  | PInf => Gt
  | NInf => Lt
  | XNaN => Eq
  end.

Definition xneg (a : xnum F) : xnum F :=
  match a with
  | Fin x => Fin (fsub fzero x)
  | PInf => NInf
  | NInf => PInf
  | XNaN => XNaN
  end.

Definition xadd (a b : xnum F) : xnum F :=
  match a, b with
  | XNaN, _ | _, XNaN => XNaN
  | Fin x, Fin y => Fin (fadd x y)
  | PInf, NInf | NInf, PInf => XNaN
  | PInf, _ | _, PInf => PInf
  | NInf, _ | _, NInf => NInf
  end.

Definition xsub (a b : xnum F) : xnum F :=
  match a, b with
  | Fin x, Fin y => Fin (fsub x y)
  | _, _ => xadd a (xneg b)
  end.

Definition xmul (a b : xnum F) : xnum F :=
  match a, b with
  | XNaN, _ | _, XNaN => XNaN
  | Fin x, Fin y => Fin (fmul x y)
  | _, _ => infOf (mulSign (xsign a) (xsign b))
  end.

Definition xdiv (a b : xnum F) : xnum F :=
  match a, b with
  | XNaN, _ | _, XNaN => XNaN
  | Fin x, Fin y => if fisZero y then infOf (fsign x) else Fin (fdiv x y)
  | Fin _, _ => Fin fzero
  | _, Fin y => if fltb y fzero then xneg a else a
  | _, _ => XNaN
  end.

Definition xsqrt (a : xnum F) : xnum F :=
  match a with
  | Fin x => if fltb x fzero then XNaN else Fin (fsqrt x)
  | PInf => PInf
  | _ => XNaN
  end.

Definition xabs (a : xnum F) : xnum F :=
  match a with
  | Fin x => Fin (fabs x)
  | XNaN => XNaN
  | _ => PInf
  end.

Definition xltb (a b : xnum F) : bool :=
  match a, b with
  | XNaN, _ | _, XNaN => false
  | Fin x, Fin y => fltb x y
  | NInf, NInf => false
  | NInf, _ => true
  | _, PInf => match a with PInf => false | _ => true end
  | _, _ => false
  end.

Definition xisNaN (a : xnum F) : bool :=
  match a with
  | XNaN => true
  | _ => false
  end.

Definition xmax (a b : xnum F) : xnum F :=
  if xisNaN a || xisNaN b then XNaN else if xltb a b then b else a.

Definition xmin (a b : xnum F) : xnum F :=
  if xisNaN a || xisNaN b then XNaN else if xltb b a then b else a.

Definition xtruthy (a : xnum F) : bool :=
  match a with
  | Fin x => negb (fisZero x)
  | XNaN => false
  | _ => true
  end.

#[export] Instance xnum_JSNumber : JSNumber (xnum F) := {|
  NaN := XNaN;
  ofZ := fun z => Fin (fofZ z);
  add := xadd;
  sub := xsub;
  mul := xmul;
  div := xdiv;
  Math_sqrt := xsqrt;
  Math_abs := xabs;
  ltb := xltb;
  Math_max := xmax;
  Math_min := xmin;
  truthy := xtruthy
|}.

(** Finite values, and the real number a finite value stands for. *)
Definition finite (a : xnum F) : Prop :=
  match a with
  | Fin _ => True
  | _ => False
  end.

Definition val (a : xnum F) : R :=
  match a with
  | Fin x => toR x
  | _ => 0%R
  end.
End Xnum.

(** *** The rationals *)

Module Rational.
Import QArith Qabs Qcanon Qcabs Qreals.

Definition embed (q : Qc) : R := Q2R (this q).

Definition ltb (a b : Qc) : bool :=
  match Qccompare a b with
  | Lt => true
  | _ => false
  end.

(** The root from below: for [n/d > 0], the integer root of [n * d] over [d]. *)
Definition root (q : Qc) : Qc :=
  Q2Qc (Z.sqrt (Qnum (this q) * Zpos (Qden (this q))) # Qden (this q)).

#[global] Instance Qc_RealField : RealField Qc := {|
  fofZ := fun z => Q2Qc (inject_Z z);
  fadd := Qcplus;
  fsub := Qcminus;
  fmul := Qcmult;
  fdiv := Qcdiv;
  fabs := Qcabs;
  fsqrt := root;
  fltb := ltb;
  toR := embed
|}.
End Rational.

(** *** The reals *)

Module Real.
Definition ltb (a b : R) : bool := if Rlt_dec a b then true else false.

#[global] Instance R_RealField : RealField R := {|
  fofZ := IZR;
  fadd := Rplus;
  fsub := Rminus;
  fmul := Rmult;
  fdiv := Rdiv;
  fabs := Rabs;
  fsqrt := sqrt;
  fltb := ltb;
  toR := fun x => x
|}.
End Real.

(** *** The rational a binary64 number is

    A finite binary64 number is a fraction [m * 2^e]; with it, what the
    program computed in binary64 can be checked without rounding.  For the
    coefficients [beta] that [linearRidge] returned on [X], [y] and
    [lambda], [residual] is row [i] of [(XtX + lambda I) beta - Xt y] and
    [target] is row [i] of [Xt y], both computed on the fractions. *)

Module Exact.
Import QArith Qcanon Qcabs.

Definition rational (a : float) : Qc :=
  match Prim2SF a with
  | S754_finite s m e => Q2Qc (inject_Z (if s then Zneg m else Zpos m) * Qpower (2 # 1) e)
  | _ => Q2Qc 0
  end.

Definition total (l : list Qc) : Qc := fold_right Qcplus (Q2Qc 0) l.

Definition normalLeft (X : list (list Qc)) (lambda : Qc) (beta : list Qc) (i : nat) : Qc :=
  total (map (fun j =>
                (total (map (fun r => nth i r (Q2Qc 0) * nth j r (Q2Qc 0)) X)
                 + (if (i =? j)%nat then lambda else Q2Qc 0)) * nth j beta (Q2Qc 0))
             (seq 0 (length beta))).

Definition normalRight (X : list (list Qc)) (y : list Qc) (i : nat) : Qc :=
  total (map (fun ry => nth i (fst ry) (Q2Qc 0) * snd ry) (combine X y)).

Definition target (X : list (list float)) (y : list float) (i : nat) : Qc :=
  normalRight (map (map rational) X) (map rational y) i.

Definition residual (X : list (list float)) (lambda : float) (y beta : list float) (i : nat) : Qc :=
  normalLeft (map (map rational) X) (rational lambda) (map rational beta) i - target X y i.

(** [a] is beyond the relative tolerance [tol] of [b]: [tol * |b| < |a|]. *)
Definition exceeds (tol a b : Qc) : bool := Rational.ltb (tol * Qcabs b) (Qcabs a).

Definition millionth : Qc := Q2Qc (1 # 1000000).
Definition thousandth : Qc := Q2Qc (1 # 1000).
End Exact.

(** ** What the statements are made of *)

(** A history is refused when no forecast comes back for it. *)
Definition refused {num : Type} `{JSNumber num} (candles : list (Candle num)) : Prop :=
  forall r, improvedPredict candles <> Ok r.

Section ExactPredicates.
Context {F : Type} `{RealField F}.
Local Open Scope R_scope.

(** [a] is the finite value that stands for the real [r]. *)
Definition isR (a : xnum F) (r : R) : Prop := exists x, a = Fin x /\ toR x = r.

Definition nonneg (a : xnum F) : Prop := exists r, isR a r /\ 0 <= r.
Definition strictlyPositive (a : xnum F) : Prop := exists r, isR a r /\ 0 < r.


(** Closes as the candles of the specification have them: finite and
    strictly positive. *)
Definition validCloses (closes : list (xnum F)) : Prop := Forall strictlyPositive closes.

(** [A] has [n] rows of [p] cells, and its cell [(i, j)] stands for the real
    [a i j]. *)
Definition mat (n p : nat) (A : matrix (xnum F)) (a : nat -> nat -> R) : Prop :=
  length A = n /\
  (forall i, (i < n)%nat -> length (row A i) = p) /\
  (forall i j, (i < n)%nat -> (j < p)%nat -> isR (cell A i j) (a i j)).

(** [y] has [n] cells, and its cell [i] stands for the real [v i]. *)
Definition vec (n : nat) (y : list (xnum F)) (v : nat -> R) : Prop :=
  length y = n /\ (forall i, (i < n)%nat -> isR (num_nth y i) (v i)).

(** Buffers a rollout step can work on. *)
Definition goodBuffers (s : Rollout (xnum F)) : Prop :=
  Forall finite (lastCloses s) /\ Forall finite (lastReturns s) /\
  Forall finite (projection s) /\
  (20 <= length (lastCloses s))%nat /\ (0 < length (lastReturns s))%nat.
End ExactPredicates.

(** Finite sums of reals, and the identity matrix on indices. *)
Fixpoint bigsum (m : nat) (f : nat -> R) : R :=
  match m with
  | O => 0%R
  | S k => (bigsum k f + f k)%R
  end.

Definition delta (i j : nat) : R := if (i =? j)%nat then 1%R else 0%R.

(** The matrix of finite values that [linearRidge] inverts. *)
Definition normalMatrix (n : nat) (x : nat -> nat -> R) (l : R) (i j : nat) : R :=
  (bigsum n (fun k => x k i * x k j) + l * delta i j)%R.

(** The exchange of the rows [i] and [mx], on row indices. *)
Definition exchange (i mx r : nat) : nat :=
  if (r =? mx)%nat then i else if (r =? i)%nat then mx else r.

(** ** Finite values within bounds *)

Section ExactRanges.
Context {F : Type} `{RealField F}.
Local Open Scope R_scope.

(** [a] is a finite value between [lo] and [hi]. *)
Definition within (lo hi : R) (a : xnum F) : Prop := exists r, isR a r /\ lo <= r <= hi.
End ExactRanges.

(** ** The chart (lines 442-467) *)

(** The texts of the screen. *)
Module Text.
Import String.
Definition legend : list string := ["Historical"%string; "Projection"%string].
Definition enterTicker : string := "Please enter a stock ticker."%string.
Definition noData : string := "Could not fetch stock data."%string.
Definition noQuote : string := "Could not fetch stock data from Yahoo Finance"%string.
End Text.

(** A cell of a dataset: a number, [null], or [undefined]. *)
Inductive point (num : Type) : Type :=
| Value (v : num)
| Null
| Undefined.
Arguments Null {num}.
Arguments Undefined {num}.

(** A line of the chart.  [color] is the red, green and blue of the
    [rgba(...)] text that the function stored under [color] builds; the
    opacity is the argument of that function. *)
Record Dataset (num : Type) : Type := {
  data : list (point num);
  strokeWidth : option Z;
  color : option (Z * Z * Z)
}.

Record ChartData (num : Type) : Type := {
  labels : list String.string;
  datasets : list (Dataset num);
  legend : list String.string
}.

Section Chart.
Context {num : Type} `{JSNumber num}.

Definition empty : ChartData num :=
  {| labels := [String.EmptyString];
     datasets := [ {| data := [Value zero]; strokeWidth := None; color := None |};
                   {| data := [Value zero]; strokeWidth := None; color := None |} ];
     legend := Text.legend |}.

(** [historicalData[historicalData.length - 1]], as a cell. *)
Definition lastPoint (historicalData : list num) : point num :=
  match at_ historicalData (lastIndex historicalData) with
  | Some v => Value v
  | None => Undefined
  end.

(** The arguments are the values after the defaults, [data] for
    [historicalData] and [result?.projectionLine || null] for
    [projectionLine]; [None] is [null]. *)
Definition getChartData (historicalData projectionLine : option (list num)) : ChartData num :=
  match historicalData with
  | None => empty
  | Some historicalData =>
      let historicalDataset := map (@Value num) historicalData ++ repeat Null 5 in
      let projectionDataset :=
        repeat Null (length historicalData)
        ++ [lastPoint historicalData]
        ++ map (@Value num) (slice_from (coalesce projectionLine []) 1) in
      {| labels := repeat String.EmptyString (length historicalDataset);
         datasets := [ {| data := historicalDataset; strokeWidth := Some 2%Z;
                          color := Some (255, 255, 255)%Z |};
                       {| data := projectionDataset; strokeWidth := Some 2%Z;
                          color := Some (34, 197, 94)%Z |} ];
         legend := Text.legend |}
  end.
End Chart.

(** ** The price history (lines 45-72) *)

(** What a handler can raise: an [Error] of the application with its
    message, or a [TypeError] or a [RangeError] of the engine. *)
Inductive exn : Type :=
| Error (message : String.string)
| EngineTypeError
| EngineRangeError.

Inductive completion (A : Type) : Type :=
| Normal (a : A)
| Throw (e : exn).
Arguments Normal {A} a.
Arguments Throw {A} e.

Definition andThen {A B : Type} (c : completion A) (k : A -> completion B) : completion B :=
  match c with
  | Normal a => k a
  | Throw e => Throw e
  end.

(** The response of the chart service, as far as [fetchStockData] reads it.
    [None] is a field that is missing or [null]; a cell of [close] or of
    [volume] may be [null]. *)
Module Yahoo.
Record Quote (num : Type) : Type := {
  close : option (list (option num));
  volume : option (list (option num))
}.
Record Indicators (num : Type) : Type := { quote : option (list (option (Quote num))) }.
Record Result (num : Type) : Type := {
  indicators : option (Indicators num);
  timestamp : option (list num)
}.
Record Chart (num : Type) : Type := { result : option (list (option (Result num))) }.
Record Response (num : Type) : Type := { chart : option (Chart num) }.
End Yahoo.

Section Fetch.
Context {num : Type} `{JSNumber num}.

(** [new Date(ms).toISOString().split('T')[0]]; [None] when the date is
    invalid and [toISOString] raises. *)
Variable isoDay : num -> option String.string.

(** [json.chart.result[0]] with
    [json.chart?.result?.[0]?.indicators?.quote?.[0]], when the latter is
    there. *)
Definition firstQuote (json : Yahoo.Response num)
  : option (Yahoo.Result num * Yahoo.Quote num) :=
  match Yahoo.chart json with
  | Some chart =>
      match Yahoo.result chart with
      | Some (Some result :: _) =>
          match Yahoo.indicators result with
          | Some indicators =>
              match Yahoo.quote indicators with
              | Some (Some quote :: _) => Some (result, quote)
              | _ => None
              end
          | None => None
          end
      | _ => None
      end
  | None => None
  end.

(** [quote.volume[i] || 0] *)
Definition volumeAt (volumes : list (option num)) (i : nat) : num :=
  match nth_error volumes i with
  | Some (Some v) => orElse v zero
  | _ => zero
  end.

(** One turn of the loop of lines 62-70. *)
Definition pushEntry (quote : Yahoo.Quote num) (timestamps : list num)
    (entries : list (Candle num)) (i : nat) : completion (list (Candle num)) :=
  match Yahoo.close quote with
  | None => Throw EngineTypeError
  | Some closes =>
      match nth_error closes i with
      | Some (Some c) =>
          match isoDay (mul (num_nth timestamps i) (ofZ 1000)) with
          | None => Throw EngineRangeError
          | Some day =>
              match Yahoo.volume quote with
              | None => Throw EngineTypeError
              | Some volumes =>
                  Normal (entries ++ [{| date := day; close := c; volume := volumeAt volumes i |}])
              end
          end
      | _ => Normal entries
      end
  end.

(** The body of [fetchStockData] once the response is parsed. *)
Definition fetchStockData (json : Yahoo.Response num) : completion (list (Candle num)) :=
  match firstQuote json with
  | None => Throw (Error Text.noQuote)
  | Some (result, quote) =>
      match Yahoo.timestamp result with
      | None => Throw EngineTypeError
      | Some timestamps =>
          andThen
            (fold_left (fun acc i => andThen acc (fun entries => pushEntry quote timestamps entries i))
                       (seq 0 (length timestamps)) (Normal []))
            (fun entries => Normal (rev entries))
      end
  end.

(** The closes of the response that are not [null], in the order of the
    timestamps. *)
Definition keptCloses (closes : list (option num)) (timestamps : list num) : list num :=
  flat_map (fun i => match nth_error closes i with
                     | Some (Some c) => [c]
                     | _ => []
                     end)
           (seq 0 (length timestamps)).
End Fetch.

(** ** The handler and the state it writes (lines 395-440) *)

Module App.
(** The forecast on the screen. *)
Record Result (num : Type) : Type := {
  nextPrice : num;
  currentPrice : num;
  projectionLine : list num;
  confidence : option num
}.

(** What [setError] is given: a text of the application, or
    [err.message || String(err)] of what was caught. *)
Inductive Message : Type :=
| Literal (text : String.string)
| Caught (e : exn).

(** The state the handler writes.  The company name, the logo and the
    articles are fetched on the side and are not read by it. *)
Record State (num : Type) : Type := {
  error : option Message;
  data : option (list num);
  result : option (Result num);
  suggestions : list (String.string * String.string)
}.
End App.

Section Handler.
Context {num : Type} `{JSNumber num}.

(** [upper] is the ticker, trimmed and in upper case; [fetched] is what
    [await fetchStockData(upper)] completes with. *)
Definition handleStockPrediction (upper : String.string)
    (fetched : completion (list (Candle num))) (s : App.State num) : App.State num :=
  let cleared (e : option App.Message) :=
    {| App.error := e; App.data := App.data s; App.result := App.result s;
       App.suggestions := [] |} in
  match upper with
  | String.EmptyString => cleared (Some (App.Literal Text.enterTicker))
  | _ =>
      match fetched with
      | Throw e => cleared (Some (App.Caught e))
      | Normal [] => cleared (Some (App.Literal Text.noData))
      | Normal stockData =>
          let closes := map close stockData in
          match improvedPredict stockData with
          | TypeError =>
              {| App.error := Some (App.Caught EngineTypeError); App.data := Some closes;
                 App.result := App.result s; App.suggestions := [] |}
          | Ok p =>
              match at_ stockData (Z.of_nat (length stockData) - 1) with
              | None =>
                  {| App.error := Some (App.Caught EngineTypeError); App.data := Some closes;
                     App.result := App.result s; App.suggestions := [] |}
              | Some last =>
                  {| App.error := None; App.data := Some closes;
                     App.result := Some {| App.nextPrice := nextPrice p;
                                           App.currentPrice := close last;
                                           App.projectionLine := projectionLine p;
                                           App.confidence := confidence p |};
                     App.suggestions := [] |}
              end
          end
      end
  end.
End Handler.

(** ** The file name of the local articles (lines 318-325) *)

(** A string, as its UTF-16 code units. *)
Definition jsString : Type := list N.

(** [[a-z0-9]] *)
Definition isSlugChar (c : N) : bool :=
  ((97 <=? c) && (c <=? 122) || (48 <=? c) && (c <=? 57))%N.

(** ['-'] *)
Definition dash : N := 45%N.

(** [s.replace(/[^a-z0-9]+/g, '-')]: every maximal run of other code units
    becomes one dash; [inRun] tells that the run has begun. *)
Fixpoint replaceRuns (inRun : bool) (s : jsString) : jsString :=
  match s with
  | [] => []
  | c :: t =>
      if isSlugChar c then c :: replaceRuns false t
      else if inRun then replaceRuns true t
      else dash :: replaceRuns true t
  end.

(** [s.replace(/^-|-$/g, '')]: a dash at the start goes, and a dash at the
    end. *)
Definition dropLeadingDash (s : jsString) : jsString :=
  match s with
  | c :: t => if (c =? dash)%N then t else s
  | [] => []
  end.

Fixpoint dropTrailingDash (s : jsString) : jsString :=
  match s with
  | [] => []
  | [c] => if (c =? dash)%N then [] else [c]
  | c :: t => c :: dropTrailingDash t
  end.

Definition stripDashes (s : jsString) : jsString := dropTrailingDash (dropLeadingDash s).

Section Slug.
(** [String.prototype.toLowerCase] *)
Variable toLowerCase : jsString -> jsString.

(** [name.toLowerCase().replace(/[^a-z0-9]+/g, '-').replace(/^-|-$/g, '')] *)
Definition slug (name : jsString) : jsString :=
  stripDashes (replaceRuns false (toLowerCase name)).
End Slug.

(** Slug characters and dashes, no two dashes in a row and none at the end;
    [afterDash] tells that a dash came just before, or that the string
    starts here. *)
Fixpoint dashed (afterDash : bool) (s : jsString) : Prop :=
  match s with
  | [] => afterDash = false
  | c :: t =>
      if isSlugChar c then dashed false t
      else c = dash /\ afterDash = false /\ dashed true t
  end.

(** The same, with a dash allowed at the end. *)
Fixpoint loose (afterDash : bool) (s : jsString) : Prop :=
  match s with
  | [] => True
  | c :: t =>
      if isSlugChar c then loose false t
      else c = dash /\ afterDash = false /\ loose true t
  end.

(** ** Histories for the examples *)

(** The fraction in lowest terms of a finite rational value. *)
Definition fraction (a : xnum Qcanon.Qc) : option QArith_base.Q :=
  match a with
  | Fin x => Some (Qcanon.this x)
  | _ => None
  end.

(** A candle of the day, for the examples. *)
Definition candleOf (c : float) : Candle float :=
  {| date := String.EmptyString; close := c; volume := ofZ 0 |}.

(** Ten rising closes, 100 to 109. *)
Definition tenCloses : list (Candle float) :=
  map (fun k => candleOf (ofZ (100 + Z.of_nat k))) (seq 0 10).

(** Thirty closes of ten thousand million: the squares of the averages
    swallow the ridge term, and four columns of the normal matrix coincide. *)
Definition flatCloses : list (Candle float) :=
  map (fun _ => candleOf (ofZ 10000000000)) (seq 0 30).

(** Forty closes around a rising line. *)
Definition wavyCloses : list (Candle float) :=
  map (fun k => candleOf (ofZ (100 + Z.of_nat ((k * k) mod 7) + Z.of_nat k))) (seq 0 40).

(** Thirty closes of [2^600], whose squares are beyond the range of
    binary64. *)
Definition hugeCloses : list (Candle float) :=
  map (fun _ => candleOf 0x1p600%float) (seq 0 30).

(** Thirty closes of [2^1023], the largest power of two of binary64: the
    sum of two of them is beyond its range. *)
Definition largeCloses : list (Candle float) :=
  map (fun _ => candleOf 0x1p1023%float) (seq 0 30).

(** Thirty closes that alternate between 100000 and 100001. *)
Definition sawCloses : list (Candle float) :=
  map (fun k => candleOf (ofZ (100000 + Z.of_nat (k mod 2)))) (seq 0 30).

(** Thirty closes over the rationals: 100 until the last three, which
    rise to 103. *)
Definition bumpCloses : list (Candle (xnum Qcanon.Qc)) :=
  map (fun k => {| date := String.EmptyString;
                   close := ofZ (100 + Z.of_nat (k - 26));
                   volume := ofZ 0 |})
      (seq 0 30).

(** Thirty-four closes of 100, over the rationals. *)
Definition steadyCloses : list (Candle (xnum Qcanon.Qc)) :=
  map (fun _ => {| date := String.EmptyString; close := ofZ 100; volume := ofZ 0 |}) (seq 0 34).

(** A regular fit over the rationals: the identity as design matrix. *)
Definition unitDesign : matrix (xnum Qcanon.Qc) := identity 8.
Definition unitTargets : list (xnum Qcanon.Qc) := map ofZ [1; 2; 3; 4; 5; 6; 7; 8]%Z.

(** A matrix of two rows and three columns. *)
Definition wideMatrix : matrix float := [map ofZ [1; 2; 3]%Z; map ofZ [4; 5; 6]%Z].

(** A matrix with an inverse, over the rationals. *)
Definition smallMatrix : matrix (xnum Qcanon.Qc) := [[ofZ 2; ofZ 1]; [ofZ 1; ofZ 1]].

(** A matrix with an inverse whose first column is below the threshold of
    [invertMatrix]. *)
Definition tinyMatrix : matrix float := [[lit 1 (-13); ofZ 0]; [ofZ 0; ofZ 1]].

(** A design matrix whose second column is zero, and its targets. *)
Definition zeroColumnDesign : matrix (xnum Qcanon.Qc) :=
  [[ofZ 1; ofZ 0]; [ofZ 2; ofZ 0]; [ofZ 3; ofZ 0]].
Definition zeroColumnTargets : list (xnum Qcanon.Qc) := map ofZ [1; 2; 3]%Z.

(** Thirty closes of 100, over the rationals. *)
Definition thinCloses : list (Candle (xnum Qcanon.Qc)) :=
  map (fun _ => {| date := String.EmptyString; close := ofZ 100; volume := ofZ 0 |}) (seq 0 30).

(** Three closes, the second of them zero. *)
Definition gapCloses : list (Candle (xnum Qcanon.Qc)) :=
  map (fun c => {| date := String.EmptyString; close := ofZ c; volume := ofZ 0 |})
      [100; 0; 100]%Z.

(** Three values between 1 and 3. *)
Definition smallWindow : list (xnum Qcanon.Qc) := map ofZ [1; 2; 3]%Z.

(** A response of three days, the second without a close and the third
    without a volume; and a date for every timestamp. *)
Definition sampleResponse : Yahoo.Response float :=
  {| Yahoo.chart :=
       Some {| Yahoo.result :=
                 Some [Some {| Yahoo.indicators :=
                                 Some {| Yahoo.quote :=
                                           Some [Some {| Yahoo.close :=
                                                           Some [Some (ofZ 101); None; Some (ofZ 103)];
                                                         Yahoo.volume :=
                                                           Some [Some (ofZ 5); Some (ofZ 6); None] |}] |};
                               Yahoo.timestamp := Some (map ofZ [86400; 172800; 259200]%Z) |}] |} |}.

Definition sampleDay (ms : float) : option String.string := Some String.EmptyString.

Definition sampleTicker : String.string := String.String (Ascii.ascii_of_nat 65) String.EmptyString.

(** The state before the first request. *)
Definition initialState : App.State float :=
  {| App.error := None; App.data := None; App.result := None; App.suggestions := [] |}.

(** * Properties *)

(** ** The embedding at work *)

(** The decimal literals of the program, as binary64 reads them: [1e-12],
    [1e-2], [0.1], [0.2], [0.8]. *)
Example literals_binary64 :
  lit 1 (-12) = 0x1.19799812dea11p-40%float /\
  lit 1 (-2) = 0x1.47ae147ae147bp-7%float /\
  lit 1 (-1) = 0x1.999999999999ap-4%float /\
  lit 2 (-1) = 0x1.999999999999ap-3%float /\
  lit 8 (-1) = 0x1.999999999999ap-1%float.
Proof. vm_compute. repeat split; reflexivity. Qed.

Example sma_binary64 :
  sma (map ofZ [1; 2; 3; 4; 5; 6]%Z) 5 = (ofZ 4 : float) /\
  Binary64.isNaN (sma (map ofZ [1; 2]%Z) 5) = true.
Proof. vm_compute. split; reflexivity. Qed.

Example stddev_binary64 :
  stddev (map ofZ [2; 4; 4; 4; 5; 5; 7; 9]%Z) = (ofZ 2 : float) /\
  Binary64.isNaN (stddev (@nil float)) = true.
Proof. vm_compute. split; reflexivity. Qed.

(** Where binary64 leaves the exact model: on thirty closes of [2^600] the
    products of the normal matrix overflow, and the regression path returns
    [NaN] as confidence and as prices.  The statements below that are made
    over exact arithmetic leave rounding and this overflow aside. *)
Example overflow_binary64 :
  exists r c,
    improvedPredict hugeCloses = Ok r /\
    confidence r = Some c /\
    Binary64.isNaN c = true /\
    Binary64.isNaN (nextPrice r) = true /\
    forallb Binary64.isNaN (projectionLine r) = true.
Proof. vm_compute. do 2 eexists. repeat split; reflexivity. Qed.

(** Over the rationals: [ema([1, 2, 3], 2) = 23/9], and the inverse of
    [[2, 1], [1, 1]] is [[1, -1], [-1, 2]]. *)
Example ema_rational :
  fraction (ema (map ofZ [1; 2; 3]%Z) 2) = Some (QArith_base.Qmake 23 9).
Proof. vm_compute. reflexivity. Qed.

Example invertMatrix_rational :
  option_map (map (map fraction)) (invertMatrix [[ofZ 2; ofZ 1]; [ofZ 1; ofZ 1]])
  = Some [[Some (QArith_base.Qmake 1 1); Some (QArith_base.Qmake (-1) 1)];
          [Some (QArith_base.Qmake (-1) 1); Some (QArith_base.Qmake 2 1)]].
Proof. vm_compute. reflexivity. Qed.

(** A matrix that has no inverse, and a product with no rows to read. *)
Example invertMatrix_singular :
  invertMatrix [[ofZ 1; ofZ 2]; [ofZ 2; ofZ 4 : xnum Qcanon.Qc]] = None /\
  matMul [[ofZ 1 : xnum Qcanon.Qc]] [] = TypeError.
Proof. vm_compute. split; reflexivity. Qed.

(** ** The rationals and the reals are ordered subfields of the reals *)

Module RationalLaws.
Import QArith Qabs Qcanon Qcabs Qreals Rational.

Lemma embed_Q2Qc (q : Q) : embed (Q2Qc q) = Q2R q.
Proof. unfold embed; simpl. apply Qeq_eqR, Qred_correct. Qed.

Lemma embed_inj (a b : Qc) : embed a = embed b -> a = b.
Proof. intros E. apply Qc_is_canon, eqR_Qeq, E. Qed.

Lemma embed_ofZ (z : Z) : embed (Q2Qc (inject_Z z)) = IZR z.
Proof. rewrite embed_Q2Qc. unfold Q2R, inject_Z; simpl. field. Qed.

Lemma embed_add (a b : Qc) : embed (a + b) = (embed a + embed b)%R.
Proof. unfold Qcplus. rewrite embed_Q2Qc. apply Q2R_plus. Qed.

Lemma embed_sub (a b : Qc) : embed (a - b) = (embed a - embed b)%R.
Proof.
  unfold Qcminus, Qcplus, Qcopp. rewrite embed_Q2Qc, Q2R_plus.
  change (this (Q2Qc (- b))) with (Qred (- b)).
  rewrite (Qeq_eqR _ _ (Qred_correct (- b))), Q2R_opp. reflexivity.
Qed.

Lemma embed_mul (a b : Qc) : embed (a * b) = (embed a * embed b)%R.
Proof. unfold Qcmult. rewrite embed_Q2Qc. apply Q2R_mult. Qed.

Lemma embed_div (a b : Qc) : embed b <> 0%R -> embed (a / b) = (embed a / embed b)%R.
Proof.
  intros Hb. unfold Qcdiv, Qcmult, Qcinv. rewrite embed_Q2Qc, Q2R_mult.
  change (this (Q2Qc (/ b))) with (Qred (/ b)).
  rewrite (Qeq_eqR _ _ (Qred_correct (/ b))), Q2R_inv; [reflexivity|].
  intros E. apply Hb. unfold embed. rewrite (Qeq_eqR _ _ E). unfold Q2R; simpl. lra.
Qed.

Lemma embed_abs (a : Qc) : embed (Qcabs a) = Rabs (embed a).
Proof.
  unfold Qcabs, embed; simpl.
  destruct (Qlt_le_dec (this a) 0) as [L|L].
  - rewrite (Qeq_eqR _ _ (Qabs_neg _ (Qlt_le_weak _ _ L))), Q2R_opp.
    apply Qlt_Rlt in L. rewrite RMicromega.Q2R_0 in L. rewrite Rabs_left; lra.
  - rewrite (Qeq_eqR _ _ (Qabs_pos _ L)).
    apply Qle_Rle in L. rewrite RMicromega.Q2R_0 in L. rewrite Rabs_right; lra.
Qed.

Lemma embed_ltb (a b : Qc) : ltb a b = true <-> (embed a < embed b)%R.
Proof.
  unfold ltb, Qccompare, embed. split.
  - destruct (this a ?= this b)%Q eqn:E; try discriminate. intros _.
    apply Qlt_Rlt. exact E.
  - intros L. apply Rlt_Qlt in L. unfold Qlt in L. unfold Qcompare.
    apply Z.compare_lt_iff in L. rewrite L. reflexivity.
Qed.

Lemma root_nonneg (a : Qc) : (0 <= embed a)%R -> (0 <= embed (root a))%R.
Proof.
  intros _. unfold root. rewrite embed_Q2Qc. unfold Q2R; simpl.
  apply Rmult_le_pos.
  - apply IZR_le, Z.sqrt_nonneg.
  - left. apply Rinv_0_lt_compat, IZR_lt. reflexivity.
Qed.

Lemma root_below (a : Qc) : (0 <= embed a)%R -> (embed (root a) * embed (root a) <= embed a)%R.
Proof.
  intros Ha. unfold root. rewrite embed_Q2Qc. unfold embed, Q2R in *; simpl.
  destruct (this a) as [n d]; simpl in *.
  assert (Hd : (0 < IZR (Zpos d))%R) by (apply IZR_lt; reflexivity).
  assert (Hn : (0 <= n)%Z).
  { apply le_IZR. apply Rmult_le_reg_r with (/ IZR (Zpos d))%R.
    - apply Rinv_0_lt_compat, Hd.
    - lra. }
  assert (Hs := Z.sqrt_spec (n * Zpos d) ltac:(lia)).
  destruct Hs as [Hs _]. apply IZR_le in Hs. rewrite !mult_IZR in Hs.
  apply Rmult_le_reg_r with (IZR (Zpos d) * IZR (Zpos d))%R; [nra|].
  field_simplify; [|lra|lra]. nra.
Qed.

#[global] Instance Qc_RealFieldLaws : @RealFieldLaws Qc Qc_RealField.
Proof.
  constructor.
  - exact embed_inj.
  - exact embed_ofZ.
  - exact embed_add.
  - exact embed_sub.
  - exact embed_mul.
  - exact embed_div.
  - exact embed_abs.
  - exact embed_ltb.
  - exact root_nonneg.
  - exact root_below.
Qed.
End RationalLaws.

Module RealLaws.
Import Real.

Lemma real_ltb (a b : R) : ltb a b = true <-> (a < b)%R.
Proof. unfold ltb. destruct (Rlt_dec a b); split; intros; try discriminate; tauto. Qed.

Lemma real_sqrt_below (a : R) : (0 <= a)%R -> (sqrt a * sqrt a <= a)%R.
Proof. intros Ha. rewrite sqrt_sqrt by exact Ha. lra. Qed.

#[global] Instance R_RealFieldLaws : @RealFieldLaws R R_RealField.
Proof.
  constructor; try (intros; reflexivity).
  - intros a b E. exact E.
  - exact real_ltb.
  - intros a _. apply sqrt_pos.
  - exact real_sqrt_below.
Qed.
End RealLaws.

(** ** What holds whatever the numbers are *)

Section Generic.
Context {num : Type} `{JSNumber num}.

Lemma matMul_ok (A B : matrix num) :
  B <> [] -> exists M, matMul A B = Ok M /\ length M = length A.
Proof.
  intros HB. destruct B as [|b0 B']; [contradiction|].
  unfold matMul. eexists; split; [reflexivity|]. apply length_map.
Qed.

Lemma transpose_ok (x0 : list num) (X : matrix num) :
  transpose (x0 :: X) = Ok (map (fun i => map (fun r => num_nth r i) (x0 :: X)) (seq 0 (length x0))).
Proof. reflexivity. Qed.

(** [linearRidge] raises nothing on a design matrix that has a row, a
    column and a target. *)
Lemma linearRidge_ok (X : matrix num) (y : list num) (lambda : num) :
  (0 < length X)%nat -> (0 < length (nth 0 X []))%nat -> (0 < length y)%nat ->
  exists r, linearRidge X y lambda = Ok r.
Proof.
  intros HX Hx0 Hy. destruct X as [|x0 X']; [simpl in HX; lia|]. simpl in Hx0.
  unfold linearRidge. rewrite transpose_ok. cbn [bind].
  set (Xt := map _ (seq 0 (length x0))).
  destruct (matMul_ok Xt (B := x0 :: X')) as [XtX [E _]]; [discriminate|].
  rewrite E. cbn [bind].
  destruct (invertMatrix (addRidge lambda XtX)) as [inv|]; [|eexists; reflexivity].
  destruct (matMul_ok Xt (B := map (fun v => [v]) y)) as [Xty [E1 L1]].
  { destruct y; [simpl in Hy; lia|discriminate]. }
  rewrite E1. cbn [bind].
  destruct (matMul_ok inv (B := Xty)) as [bm [E2 _]].
  { intros ->. simpl in L1. subst Xt. rewrite length_map, length_seq in L1. lia. }
  rewrite E2. cbn [bind]. eexists; reflexivity.
Qed.

Lemma backtestSplit_ok (closes errors : list num) (split : nat) :
  exists errors', backtestSplit closes errors split = Ok errors'.
Proof.
  unfold backtestSplit.
  destruct (length (map (backtestFeatureAt closes) (seq 20 (split - 20))) <? 5)%nat eqn:E;
    [eexists; reflexivity|].
  apply Nat.ltb_ge in E. rewrite length_map, length_seq in E.
  destruct (linearRidge_ok (map (backtestFeatureAt closes) (seq 20 (split - 20)))
              (map (backtestTargetAt closes) (seq 20 (split - 20))) (lit 1 (-2))) as [r Hr].
  - rewrite length_map, length_seq. lia.
  - destruct (split - 20)%nat; [lia|]. simpl. lia.
  - rewrite length_map, length_seq. lia.
  - rewrite Hr. cbn [bind]. destruct r as [betaT|]; [|eexists; reflexivity].
    destruct (at_ closes (Z.of_nat split + 1)) as [actualPrice|]; [|eexists; reflexivity].
    destruct (truthy actualPrice && ltb zero actualPrice); eexists; reflexivity.
Qed.

Lemma backtestErrors_ok (closes : list num) :
  exists errors, backtestErrors closes = Ok errors.
Proof.
  unfold backtestErrors. generalize (splits (length closes)) as l.
  assert (G : forall l acc, (exists e, acc = Ok e) ->
            exists errors,
              fold_left (fun acc split => errors <- acc ;; backtestSplit closes errors split) l acc
              = Ok errors).
  { induction l as [|s l IH]; intros acc [e ->]; simpl.
    - eexists; reflexivity.
    - apply IH. apply backtestSplit_ok. }
  intros l. apply G. eexists; reflexivity.
Qed.

Lemma cutoffs_length (closes : list num) : length (cutoffs closes) = (length closes - 21)%nat.
Proof. unfold cutoffs. rewrite length_seq. lia. Qed.

Lemma training_fit_ok (closes : list num) :
  (30 <= length closes)%nat ->
  exists r, linearRidge (trainingFeatures closes (pctReturns closes))
                        (trainingTargets closes (pctReturns closes)) (lit 1 (-2)) = Ok r.
Proof.
  intros L. apply linearRidge_ok.
  - unfold trainingFeatures. rewrite length_map, cutoffs_length. lia.
  - unfold trainingFeatures, cutoffs.
    destruct (length closes - 1 - 20)%nat eqn:E; [lia|]. simpl. lia.
  - unfold trainingTargets. rewrite length_map, cutoffs_length. lia.
Qed.

(** The three ways out of [improvedPredict]. *)
Lemma improvedPredict_short (candles : list (Candle num)) :
  (length candles < 30)%nat ->
  improvedPredict candles = Ok (withConfidence (predict (map close candles)) (lit 2 (-1))).
Proof.
  intros L. unfold improvedPredict. apply Nat.ltb_lt in L. rewrite L. reflexivity.
Qed.

Lemma improvedPredict_singular (candles : list (Candle num)) :
  (30 <= length candles)%nat ->
  linearRidge (trainingFeatures (map close candles) (pctReturns (map close candles)))
              (trainingTargets (map close candles) (pctReturns (map close candles)))
              (lit 1 (-2)) = Ok None ->
  improvedPredict candles = Ok (withConfidence (predict (map close candles)) (lit 1 (-1))).
Proof.
  intros L E. unfold improvedPredict. apply Nat.ltb_ge in L. rewrite L, E. reflexivity.
Qed.

Lemma improvedPredict_regression (candles : list (Candle num)) (beta : list num) :
  (30 <= length candles)%nat ->
  let closes := map close candles in
  let returns := pctReturns closes in
  linearRidge (trainingFeatures closes returns) (trainingTargets closes returns)
              (lit 1 (-2)) = Ok (Some beta) ->
  exists errors,
    backtestErrors closes = Ok errors /\
    improvedPredict candles =
      Ok {| nextPrice := num_at (projection (rollout closes returns beta))
                                (lastIndex (projection (rollout closes returns beta)));
            projectionLine := projection (rollout closes returns beta);
            confidence :=
              Some (finalConfidence (backtestConfidence errors)
                      (rSquared (trainingFeatures closes returns)
                                (trainingTargets closes returns) beta)) |}.
Proof.
  intros L closes returns E. destruct (backtestErrors_ok closes) as [errors He].
  exists errors. split; [exact He|].
  unfold improvedPredict. apply Nat.ltb_ge in L. rewrite L.
  fold closes. fold returns. rewrite E. cbn [bind]. rewrite He. reflexivity.
Qed.

Lemma improvedPredict_ok (candles : list (Candle num)) :
  exists r, improvedPredict candles = Ok r.
Proof.
  destruct (Nat.lt_ge_cases (length candles) 30) as [L|L].
  - eexists. apply improvedPredict_short, L.
  - destruct (training_fit_ok (map close candles)) as [[beta|] E].
    + rewrite length_map. exact L.
    + destruct (improvedPredict_regression candles L E) as [errors [_ E']].
      eexists. exact E'.
    + eexists. apply improvedPredict_singular; assumption.
Qed.

End Generic.

(** ** Short histories and the fallback *)

Section ShortHistories.
Context {num : Type} `{JSNumber num}.

Lemma predict_short (values : list num) :
  (length values < 2)%nat ->
  predict values =
    {| nextPrice := coalesce (at_ values (lastIndex values)) zero;
       projectionLine := [];
       confidence := None |}.
Proof. intros L. unfold predict. apply Nat.ltb_lt in L. rewrite L. reflexivity. Qed.

Lemma predict_long_length (values : list num) :
  (2 <= length values)%nat -> length (projectionLine (predict values)) = 5%nat.
Proof.
  intros L. unfold predict. apply Nat.ltb_ge in L. rewrite L.
  cbn [projectionLine fold_left seq slice_from].
  repeat rewrite <- app_assoc. reflexivity.
Qed.

(** C1, as the code has it.  A history of fewer than two candles is not
    refused: the forecast that comes back has the last close (zero for no
    candle at all) as its next price, an empty projection line, and the
    confidence 0.2 of the short-history fallback. *)
Theorem short_history_forecast (candles : list (Candle num)) :
  (length candles < 2)%nat ->
  improvedPredict candles =
    Ok {| nextPrice := coalesce (at_ (map close candles) (lastIndex (map close candles))) zero;
          projectionLine := [];
          confidence := Some (lit 2 (-1)) |}.
Proof.
  intros L. rewrite improvedPredict_short by lia.
  rewrite predict_short by (rewrite length_map; exact L). reflexivity.
Qed.

(** C10.  [improvedPredict] returns a forecast for every array of candles
    and raises nothing; for no candle the forecast is
    [{nextPrice: 0, projectionLine: [], confidence: 0.2}], and for one candle
    it is [{nextPrice: its close, projectionLine: [], confidence: 0.2}]. *)
Theorem improvedPredict_total (candles : list (Candle num)) :
  (exists r, improvedPredict candles = Ok r) /\
  improvedPredict (@nil (Candle num)) =
    Ok {| nextPrice := zero; projectionLine := []; confidence := Some (lit 2 (-1)) |} /\
  (forall c : Candle num,
      improvedPredict [c] =
        Ok {| nextPrice := close c; projectionLine := []; confidence := Some (lit 2 (-1)) |}).
Proof.
  split; [apply improvedPredict_ok|]. split; [reflexivity|]. intros c. reflexivity.
Qed.

(** C4.  A history of 2 to 29 candles gets the next price and the
    projection line of [predict], five prices long, and the confidence 0.2;
    a history of 30 candles or more whose full-sample fit is singular gets
    the next price and the projection line of [predict], five prices long,
    and the confidence 0.1.  Both come back as results: nothing is raised,
    and nothing of the regression or of the backtest is in them. *)
Theorem fallback_confidence (candles : list (Candle num)) :
  ((2 <= length candles < 30)%nat ->
   exists r,
     improvedPredict candles = Ok r /\
     confidence r = Some (lit 2 (-1)) /\
     nextPrice r = nextPrice (predict (map close candles)) /\
     projectionLine r = projectionLine (predict (map close candles)) /\
     length (projectionLine r) = 5%nat) /\
  ((30 <= length candles)%nat ->
   linearRidge (trainingFeatures (map close candles) (pctReturns (map close candles)))
               (trainingTargets (map close candles) (pctReturns (map close candles)))
               (lit 1 (-2)) = Ok None ->
   exists r,
     improvedPredict candles = Ok r /\
     confidence r = Some (lit 1 (-1)) /\
     nextPrice r = nextPrice (predict (map close candles)) /\
     projectionLine r = projectionLine (predict (map close candles)) /\
     length (projectionLine r) = 5%nat).
Proof.
  split.
  - intros [L2 L30]. eexists. split; [apply improvedPredict_short, L30|].
    cbn [withConfidence confidence nextPrice projectionLine].
    repeat split. apply predict_long_length. rewrite length_map. exact L2.
  - intros L E. eexists. split; [apply improvedPredict_singular; assumption|].
    cbn [withConfidence confidence nextPrice projectionLine].
    repeat split. apply predict_long_length. rewrite length_map. lia.
Qed.

End ShortHistories.

(** C1 at one candle: the forecast comes back. *)
Lemma one_candle_not_refused :
  (length [candleOf (ofZ 100)] < 2)%nat /\
  improvedPredict [candleOf (ofZ 100)] =
    Ok {| nextPrice := ofZ 100; projectionLine := []; confidence := Some (lit 2 (-1)) |} /\
  ~ refused [candleOf (ofZ 100)].
Proof.
  split; [simpl; lia|]. split; [reflexivity|].
  intros R. apply (R _ eq_refl).
Qed.

Lemma short_history_forecast_witness :
  improvedPredict [candleOf (ofZ 100)] =
    Ok {| nextPrice := ofZ 100; projectionLine := []; confidence := Some (lit 2 (-1)) |}.
Proof.
  apply (short_history_forecast [candleOf (ofZ 100)]). simpl; lia.
Defined.

(** In binary64: ten rising closes are projected along their average
    return with the confidence 0.2; thirty closes of ten thousand million,
    whose fit is singular, are projected flat with the confidence 0.1. *)
Lemma fallback_confidence_witness :
  (exists r,
     improvedPredict tenCloses = Ok r /\
     confidence r = Some 0x1.999999999999ap-3%float /\
     nextPrice r = 0x1.c961c95b46e7fp+6%float /\
     projectionLine r =
       [0x1.b831e49ba539fp+6; 0x1.bc6e1e46a8ecp+6; 0x1.c0b4c673fa53dp+6;
        0x1.c505f6d537572p+6; 0x1.c961c95b46e7fp+6]%float) /\
  (exists r,
     improvedPredict flatCloses = Ok r /\
     confidence r = Some 0x1.999999999999ap-4%float /\
     nextPrice r = 10000000000%float /\
     projectionLine r = repeat 10000000000%float 5).
Proof.
  split.
  - destruct (proj1 (fallback_confidence tenCloses)) as [r [R [C [N [P _]]]]].
    + simpl; lia.
    + exists r. split; [exact R|]. split; [exact C|].
      split; [rewrite N|rewrite P]; vm_compute; reflexivity.
  - destruct (proj2 (fallback_confidence flatCloses)) as [r [R [C [N [P _]]]]].
    + simpl; lia.
    + vm_compute. reflexivity.
    + exists r. split; [exact R|]. split; [exact C|].
      split; [rewrite N|rewrite P]; vm_compute; reflexivity.
Defined.

(** ** The rollout *)

Section RolloutFacts.
Context {num : Type} `{JSNumber num}.

Lemma rolloutStep_eq (beta : list num) (s : Rollout num) :
  rolloutStep beta s =
    {| lastCloses := lastCloses s ++ [stepPrice beta s];
       lastReturns := lastReturns s ++ [stepReturn beta s];
       projection := projection s ++ [stepPrice beta s] |}.
Proof. reflexivity. Qed.

Lemma rollout_iter (closes returns beta : list num) :
  rollout closes returns beta =
    Nat.iter 5 (rolloutStep beta)
      {| lastCloses := closes; lastReturns := returns; projection := [] |}.
Proof. reflexivity. Qed.

Lemma projection_iter (beta : list num) (s0 : Rollout num) (k : nat) :
  projection (Nat.iter k (rolloutStep beta) s0) =
    projection s0 ++ map (fun j => stepPrice beta (Nat.iter j (rolloutStep beta) s0)) (seq 0 k).
Proof.
  induction k as [|k IH].
  - simpl. rewrite app_nil_r. reflexivity.
  - rewrite seq_S, map_app, app_assoc, <- IH. reflexivity.
Qed.

(** C6.  On the regression path the loop runs its five turns: the state
    after it is the fifth iterate of [rolloutStep] from the closes and the
    returns of the history.  A turn reads its eight features from the
    buffers, adds up their products with the cells of [beta] from zero,
    first to last, multiplies the last close by one plus a hundredth of that
    sum, and appends the price to the closes and to the projection and the
    sum to the returns: turn [k] works on buffers that are [k] cells longer
    than the history's.  The projection line of the forecast is the five
    prices of the five turns, and its next price is the fifth. *)
Theorem rollout_five_steps (candles : list (Candle num)) (beta : list num) :
  let closes := map close candles in
  let returns := pctReturns closes in
  let s := fun k => Nat.iter k (rolloutStep beta)
                      {| lastCloses := closes; lastReturns := returns; projection := [] |} in
  let predReturn := fun k =>
    let c := lastCloses (s k) in
    let r := lastReturns (s k) in
    (zero
     + one * num_nth beta 0
     + coalesce (at_ r (lastIndex r)) zero * num_nth beta 1
     + sma c 5 * num_nth beta 2
     + sma c 20 * num_nth beta 3
     + ema c 12 * num_nth beta 4
     + ema c 26 * num_nth beta 5
     + stddev (slice_from r (Nat.max 0 (length r - 20))) * num_nth beta 6
     + orElse (num_at c (lastIndex c) - orElse (sma c 20) zero) zero * num_nth beta 7)%js in
  let price := fun k =>
    let c := lastCloses (s k) in
    (num_at c (lastIndex c) * (one + predReturn k / hundred))%js in
  (30 <= length candles)%nat ->
  linearRidge (trainingFeatures closes returns) (trainingTargets closes returns)
              (lit 1 (-2)) = Ok (Some beta) ->
  rollout closes returns beta = s 5%nat /\
  s 0%nat = {| lastCloses := closes; lastReturns := returns; projection := [] |} /\
  (forall k,
      lastCloses (s (S k)) = lastCloses (s k) ++ [price k] /\
      lastReturns (s (S k)) = lastReturns (s k) ++ [predReturn k] /\
      projection (s (S k)) = projection (s k) ++ [price k] /\
      length (lastCloses (s k)) = (length closes + k)%nat /\
      length (lastReturns (s k)) = (length returns + k)%nat /\
      length (projection (s k)) = k) /\
  exists r,
    improvedPredict candles = Ok r /\
    projectionLine r = projection (s 5%nat) /\
    projectionLine r = [price 0%nat; price 1%nat; price 2%nat; price 3%nat; price 4%nat] /\
    length (projectionLine r) = 5%nat /\
    nextPrice r = price 4%nat /\
    at_ (projectionLine r) (lastIndex (projectionLine r)) = Some (nextPrice r).
Proof.
  intros closes returns s predReturn price L E.
  assert (Step : forall k,
             lastCloses (s (S k)) = lastCloses (s k) ++ [price k] /\
             lastReturns (s (S k)) = lastReturns (s k) ++ [predReturn k] /\
             projection (s (S k)) = projection (s k) ++ [price k]).
  { intros k. repeat split; reflexivity. }
  assert (Len : forall k,
             length (lastCloses (s k)) = (length closes + k)%nat /\
             length (lastReturns (s k)) = (length returns + k)%nat /\
             length (projection (s k)) = k).
  { induction k as [|k [IC [IR IP]]].
    - unfold s. simpl. lia.
    - destruct (Step k) as [-> [-> ->]]. rewrite !length_app, IC, IR, IP.
      cbn [length]. lia. }
  split; [apply rollout_iter|]. split; [reflexivity|]. split.
  - intros k. destruct (Step k) as [SC [SR SP]]. destruct (Len k) as [LC [LR LP]].
    repeat split; assumption.
  - destruct (improvedPredict_regression candles L E) as [errors [_ E']].
    eexists. split; [exact E'|]. cbn [projectionLine nextPrice].
    fold closes. fold returns.
    assert (P : projection (rollout closes returns beta) =
                [price 0%nat; price 1%nat; price 2%nat; price 3%nat; price 4%nat]).
    { rewrite rollout_iter. fold (s 5%nat).
      rewrite (proj2 (proj2 (Step 4%nat))), (proj2 (proj2 (Step 3%nat))),
        (proj2 (proj2 (Step 2%nat))), (proj2 (proj2 (Step 1%nat))),
        (proj2 (proj2 (Step 0%nat))).
      reflexivity. }
    split; [apply (f_equal (@projection num)), rollout_iter|].
    rewrite P. repeat split; reflexivity.
Qed.

End RolloutFacts.

(** In binary64, on the forty wavy closes: the fit is regular, and the five
    prices of the projection line are those of the five turns, each the
    last close of its turn times one plus a hundredth of the predicted
    return. *)
Lemma rollout_five_steps_witness :
  exists r,
    improvedPredict wavyCloses = Ok r /\
    projectionLine r =
      [0x1.1f7db05980ab1p+7; 0x1.1eba1bd58f0d2p+7; 0x1.1d61598bf17dp+7;
       0x1.2397802771697p+7; 0x1.27be716790169p+7]%float /\
    nextPrice r = 0x1.27be716790169p+7%float /\
    length (projectionLine r) = 5%nat /\
    at_ (projectionLine r) (lastIndex (projectionLine r)) = Some (nextPrice r).
Proof.
  destruct (linearRidge (trainingFeatures (map close wavyCloses) (pctReturns (map close wavyCloses)))
              (trainingTargets (map close wavyCloses) (pctReturns (map close wavyCloses)))
              (lit 1 (-2))) as [[beta|]|] eqn:E;
    [|vm_compute in E; discriminate E|vm_compute in E; discriminate E].
  destruct (rollout_five_steps wavyCloses (beta := beta)) as [_ [_ [_ [r [R [_ [P [L [N A]]]]]]]]].
  - simpl; lia.
  - exact E.
  - exists r. split; [exact R|].
    vm_compute in E. injection E as <-.
    split; [rewrite P; vm_compute; reflexivity|].
    split; [rewrite N; vm_compute; reflexivity|]. split; assumption.
Defined.

(** ** The training rows *)

Lemma firstn_seq_min (k start len : nat) :
  firstn k (seq start len) = seq start (Nat.min k len).
Proof.
  revert start len. induction k as [|k IH]; intros start [|len]; simpl; try reflexivity.
  f_equal. apply IH.
Qed.

Section TrainingRows.
Context {num : Type} `{JSNumber num}.
Local Open Scope js_scope.

Lemma at_firstn (l : list num) (k : nat) (i : Z) :
  (i < Z.of_nat k)%Z -> at_ (firstn k l) i = at_ l i.
Proof.
  intros L. unfold at_. destruct (i <? 0)%Z eqn:E; [reflexivity|].
  apply Z.ltb_ge in E. rewrite nth_error_firstn.
  assert (Z.to_nat i < k)%nat as L' by lia.
  apply Nat.ltb_lt in L'. rewrite L'. reflexivity.
Qed.

Lemma num_nth_firstn (l : list num) (k j : nat) :
  (j < k)%nat -> num_nth (firstn k l) j = num_nth l j.
Proof. intros L. unfold num_nth, num_at. rewrite at_firstn by lia. reflexivity. Qed.

(** The returns of a prefix are a prefix of the returns. *)
Lemma pctReturns_firstn (closes : list num) (i : nat) :
  (i + 1 <= length closes)%nat ->
  pctReturns (firstn (i + 1) closes) = firstn i (pctReturns closes).
Proof.
  intros L. unfold pctReturns.
  rewrite length_firstn, Nat.min_l by exact L.
  rewrite firstn_map, firstn_seq_min.
  replace (i + 1 - 1)%nat with i by lia.
  replace (Nat.min i (length closes - 1)) with i by lia.
  apply map_ext_in. intros j Hj. apply in_seq in Hj.
  rewrite !num_nth_firstn by lia. reflexivity.
Qed.

Lemma slice_firstn (l : list num) (a i : nat) :
  (a <= i)%nat -> slice (firstn i l) a i = slice l a i.
Proof.
  intros L. unfold slice.
  rewrite skipn_firstn_comm, firstn_firstn, Nat.min_id. reflexivity.
Qed.

Lemma slice_prefix (l : list num) (k : nat) : slice l 0 k = firstn k l.
Proof. unfold slice. rewrite Nat.sub_0_r. reflexivity. Qed.


(** The feature row of a cutoff reads the closes up to the cutoff only. *)
Lemma featureAt_prefix (closes : list num) (i : nat) :
  (i + 1 <= length closes)%nat ->
  featureAt closes (pctReturns closes) i
  = featureAt (firstn (i + 1) closes) (pctReturns (firstn (i + 1) closes)) i.
Proof.
  intros L. unfold featureAt.
  rewrite !slice_prefix, firstn_firstn, Nat.min_id.
  rewrite pctReturns_firstn by exact L.
  rewrite at_firstn by lia.
  rewrite slice_firstn by lia. reflexivity.
Qed.

Lemma num_nth_pctReturns (closes : list num) (i : nat) :
  (i + 1 < length closes)%nat ->
  num_nth (pctReturns closes) i
  = ((num_nth closes (i + 1) - num_nth closes i) / num_nth closes i) * hundred.
Proof.
  intros L. unfold num_nth at 1. unfold num_at, at_.
  destruct (Z.of_nat i <? 0)%Z eqn:E; [apply Z.ltb_lt in E; lia|].
  rewrite Nat2Z.id. unfold pctReturns.
  rewrite nth_error_map, nth_error_seq.
  assert (i < length closes - 1)%nat as L' by lia.
  apply Nat.ltb_lt in L'. rewrite L'. simpl.
  replace (S i) with (i + 1)%nat by lia.
  rewrite ?Nat.sub_0_r. replace (i + 1 - 1)%nat with i by lia. reflexivity.
Qed.

Lemma nth_error_cutoffs (closes : list num) (i : nat) :
  (20 <= i)%nat -> (i + 1 < length closes)%nat ->
  nth_error (cutoffs closes) (i - 20) = Some i.
Proof.
  intros L20 L. unfold cutoffs. rewrite nth_error_seq.
  assert (i - 20 < length closes - 1 - 20)%nat as L' by lia.
  apply Nat.ltb_lt in L'. rewrite L'. f_equal. lia.
Qed.

(** C5.  The full sample has one row and one target for each cutoff
    [i = 20 .. n-2], in that order.  The row of cutoff [i] is the row the
    closes [closes[0..i]] alone give, and its target is the percent return
    from [closes[i]] to [closes[i+1]]. *)
Theorem training_rows_aligned (closes : list num) (i : nat) :
  (30 <= length closes)%nat -> (20 <= i)%nat -> (i <= length closes - 2)%nat ->
  length (trainingFeatures closes (pctReturns closes)) = (length closes - 21)%nat /\
  length (trainingTargets closes (pctReturns closes)) = (length closes - 21)%nat /\
  nth_error (trainingFeatures closes (pctReturns closes)) (i - 20)
  = Some (featureAt (firstn (i + 1) closes) (pctReturns (firstn (i + 1) closes)) i) /\
  nth_error (trainingTargets closes (pctReturns closes)) (i - 20)
  = Some (((num_nth closes (i + 1) - num_nth closes i) / num_nth closes i) * hundred).
Proof.
  intros L30 L20 Li.
  unfold trainingFeatures, trainingTargets.
  rewrite !length_map, cutoffs_length, !nth_error_map.
  rewrite nth_error_cutoffs by lia. cbn [option_map].
  rewrite <- featureAt_prefix by lia.
  rewrite num_nth_pctReturns by lia.
  repeat split; reflexivity.
Qed.


Lemma backtest_next_volatility_cell (closes : list num) (split : nat) :
  nth_error (backtestNextFeature closes split) 6
  = Some (orElse (stddev (slice closes (Nat.max 0 (split - 19)) split)) zero).
Proof. reflexivity. Qed.



End TrainingRows.

Lemma training_rows_aligned_witness :
  nth_error (trainingTargets (map close wavyCloses) (pctReturns (map close wavyCloses))) 5
  = Some (mul (div (sub (num_nth (map close wavyCloses) 26) (num_nth (map close wavyCloses) 25))
                   (num_nth (map close wavyCloses) 25)) hundred).
Proof.
  apply (training_rows_aligned (map close wavyCloses) (i := 25)); simpl; lia.
Defined.

(** ** The three volatilities *)




(** ** Exact arithmetic: finite values and the reals they stand for *)

Section ExactValues.
Context {F : Type} {RF : RealField F} {RL : RealFieldLaws F}.
Local Open Scope R_scope.

Lemma isR_finite a r : isR a r -> finite a.
Proof. intros [x [-> _]]. exact I. Qed.

Lemma isR_val a r : isR a r -> val a = r.
Proof. intros [x [-> E]]. exact E. Qed.

Lemma finite_isR a : finite a -> isR a (val a).
Proof. destruct a; simpl; try contradiction. intros _. eexists; split; reflexivity. Qed.

Lemma isR_inj a b r : isR a r -> isR b r -> a = b.
Proof.
  intros [x [-> Ex]] [y [-> Ey]]. f_equal. apply toR_inj. congruence.
Qed.

Lemma isR_eq a r s : isR a r -> r = s -> isR a s.
Proof. intros Ha <-. exact Ha. Qed.

Lemma toR_fzero : toR (fzero (F := F)) = 0.
Proof. unfold fzero. rewrite toR_ofZ. reflexivity. Qed.

Lemma fltb_false (x y : F) : fltb x y = false <-> toR y <= toR x.
Proof.
  pose proof (toR_ltb x y) as L. destruct (fltb x y).
  - split; [discriminate|]. intros G. assert (toR x < toR y) by (apply L; reflexivity). lra.
  - split; [|reflexivity]. intros _.
    destruct (Rle_lt_dec (toR y) (toR x)) as [G|G]; [exact G|].
    apply L in G. discriminate.
Qed.

Lemma fisZero_true (y : F) : fisZero y = true <-> toR y = 0.
Proof.
  unfold fisZero. rewrite andb_true_iff, !negb_true_iff, !fltb_false, toR_fzero. lra.
Qed.

Lemma fisZero_false (y : F) : fisZero y = false <-> toR y <> 0.
Proof.
  rewrite <- fisZero_true. destruct (fisZero y); split; intros; congruence.
Qed.

Lemma isR_ofZ z : isR (ofZ z) (IZR z).
Proof. eexists; split; [reflexivity|apply toR_ofZ]. Qed.

Lemma isR_zero : isR zero 0.
Proof. apply isR_ofZ. Qed.

Lemma isR_one : isR one 1.
Proof. apply isR_ofZ. Qed.

Lemma isR_hundred : isR hundred 100.
Proof. apply isR_ofZ. Qed.

Lemma isR_ofNat n : isR (ofNat n) (INR n).
Proof. unfold ofNat. rewrite INR_IZR_INZ. apply isR_ofZ. Qed.

Lemma isR_add a b r s : isR a r -> isR b s -> isR (add a b) (r + s).
Proof.
  intros [x [-> Ex]] [y [-> Ey]]. eexists; split; [reflexivity|].
  rewrite toR_add. congruence.
Qed.

Lemma isR_sub a b r s : isR a r -> isR b s -> isR (sub a b) (r - s).
Proof.
  intros [x [-> Ex]] [y [-> Ey]]. eexists; split; [reflexivity|].
  rewrite toR_sub. congruence.
Qed.

Lemma isR_mul a b r s : isR a r -> isR b s -> isR (mul a b) (r * s).
Proof.
  intros [x [-> Ex]] [y [-> Ey]]. eexists; split; [reflexivity|].
  rewrite toR_mul. congruence.
Qed.

Lemma isR_div a b r s : isR a r -> isR b s -> s <> 0 -> isR (div a b) (r / s).
Proof.
  intros [x [-> Ex]] [y [-> Ey]] Hs. subst.
  apply fisZero_false in Hs as Z. cbn. rewrite Z.
  eexists; split; [reflexivity|]. apply toR_div, Hs.
Qed.

Lemma isR_abs a r : isR a r -> isR (Math_abs a) (Rabs r).
Proof.
  intros [x [-> Ex]]. eexists; split; [reflexivity|]. rewrite toR_abs. congruence.
Qed.

Lemma isR_sqrt a r : isR a r -> 0 <= r -> exists s, isR (Math_sqrt a) s /\ 0 <= s /\ s * s <= r.
Proof.
  intros [x [-> Ex]] Hr. subst. cbn.
  assert (fltb x fzero = false) as -> by (apply fltb_false; rewrite toR_fzero; exact Hr).
  exists (toR (fsqrt x)). split; [eexists; split; reflexivity|].
  split; [apply fsqrt_nonneg, Hr|apply fsqrt_below, Hr].
Qed.

Lemma ltb_isR a b r s : isR a r -> isR b s -> (ltb a b = true <-> r < s).
Proof. intros [x [-> Ex]] [y [-> Ey]]. subst. cbn. apply toR_ltb. Qed.

Lemma ltb_isR_false a b r s : isR a r -> isR b s -> (ltb a b = false <-> s <= r).
Proof. intros [x [-> Ex]] [y [-> Ey]]. subst. cbn. apply fltb_false. Qed.

Lemma isR_max a b r s : isR a r -> isR b s -> isR (Math_max a b) (Rmax r s).
Proof.
  intros Ha Hb. pose proof (ltb_isR Ha Hb) as L. pose proof (ltb_isR_false Ha Hb) as L'.
  destruct Ha as [x [-> Ex]], Hb as [y [-> Ey]]. cbn in *. unfold xmax. cbn.
  destruct (fltb x y).
  - rewrite Rmax_right by (apply Rlt_le, L; reflexivity). eexists; split; [reflexivity|exact Ey].
  - rewrite Rmax_left by (apply L'; reflexivity). eexists; split; [reflexivity|exact Ex].
Qed.

Lemma isR_min a b r s : isR a r -> isR b s -> isR (Math_min a b) (Rmin r s).
Proof.
  intros Ha Hb. pose proof (ltb_isR Hb Ha) as L. pose proof (ltb_isR_false Hb Ha) as L'.
  destruct Ha as [x [-> Ex]], Hb as [y [-> Ey]]. cbn in *. unfold xmin. cbn.
  destruct (fltb y x).
  - rewrite Rmin_right by (apply Rlt_le, L; reflexivity). eexists; split; [reflexivity|exact Ey].
  - rewrite Rmin_left by (apply L'; reflexivity). eexists; split; [reflexivity|exact Ex].
Qed.

Lemma truthy_isR a r : isR a r -> (truthy a = true <-> r <> 0).
Proof.
  intros [x [-> Ex]]. subst. cbn. rewrite negb_true_iff. apply fisZero_false.
Qed.

Lemma isR_orElse a d r s : isR a r -> isR d s -> s <> 0 \/ s = 0 ->
  isR (orElse a d) (if Req_dec_T r 0 then s else r).
Proof.
  intros Ha Hd _. unfold orElse. pose proof (truthy_isR Ha) as T.
  destruct (Req_dec_T r 0) as [E|E].
  - destruct (truthy a); [|exact Hd]. exfalso. apply (proj1 T); [reflexivity|exact E].
  - destruct (truthy a) eqn:Ta; [exact Ha|]. apply T in E. congruence.
Qed.

(** [a || 0] changes no finite value. *)
Lemma isR_orElse_zero a r : isR a r -> isR (orElse a zero) r.
Proof.
  intros Ha. apply (isR_eq (isR_orElse Ha isR_zero (or_intror eq_refl))).
  destruct (Req_dec_T r 0); congruence.
Qed.

Lemma orElse_zero_finite a r : isR a r -> orElse a zero = a.
Proof. intros Ha. apply (isR_inj (isR_orElse_zero Ha) Ha). Qed.

(** [x || 1] is not zero. *)
Lemma isR_orElse_one a r : isR a r -> exists s, isR (orElse a one) s /\ s <> 0 /\ (r <> 0 -> s = r).
Proof.
  intros Ha. pose proof (isR_orElse Ha isR_one (or_introl R1_neq_R0)) as O.
  destruct (Req_dec_T r 0) as [E|E].
  - exists 1. split; [exact O|]. split; [lra|]. intros G. contradiction.
  - exists r. split; [exact O|]. split; [exact E|]. reflexivity.
Qed.

(** A negative power of ten. *)
Lemma isR_lit_neg (m : Z) (k : positive) :
  isR (lit m (Zneg k)) (IZR m / IZR (10 ^ Zpos k)).
Proof.
  unfold lit. cbn [Z.leb Z.compare Z.opp].
  apply isR_div; try apply isR_ofZ.
  apply not_0_IZR. pose proof (Z.pow_pos_nonneg 10 (Zpos k)). lia.
Qed.

Lemma isR_lit_pos (m : Z) (k : positive) :
  (0 < m)%Z -> 0 < val (lit (num := xnum F) m (Zneg k)).
Proof.
  intros Pm. rewrite (isR_val (isR_lit_neg m k)).
  apply Rdiv_lt_0_compat; apply IZR_lt; [exact Pm|].
  pose proof (Z.pow_pos_nonneg 10 (Zpos k)). lia.
Qed.

End ExactValues.

Arguments finite_isR {F RF a} _.

(** ** Rows and cells *)

Section Cells.
Context {num : Type} `{JSNumber num}.

Lemma at_nat (A : Type) (l : list A) (j : nat) : at_ l (Z.of_nat j) = nth_error l j.
Proof.
  unfold at_. destruct (Z.of_nat j <? 0)%Z eqn:E; [apply Z.ltb_lt in E; lia|].
  rewrite Nat2Z.id. reflexivity.
Qed.

Lemma num_nth_nth (l : list num) (j : nat) : num_nth l j = nth j l NaN.
Proof.
  unfold num_nth, num_at, toNumber. rewrite at_nat.
  revert j. induction l as [|a l IH]; intros [|j]; simpl; try reflexivity. apply IH.
Qed.

Lemma num_nth_map (A : Type) (h : A -> num) (l : list A) (k : nat) (d : A) :
  (k < length l)%nat -> num_nth (map h l) k = h (nth k l d).
Proof.
  intros L. rewrite num_nth_nth.
  rewrite (nth_indep _ NaN (h d)) by (rewrite length_map; exact L).
  apply map_nth.
Qed.

Lemma num_nth_map_seq (h : nat -> num) (p j : nat) :
  (j < p)%nat -> num_nth (map h (seq 0 p)) j = h j.
Proof.
  intros L. rewrite (num_nth_map h (seq 0 p) O) by (rewrite length_seq; exact L).
  rewrite seq_nth by exact L. reflexivity.
Qed.

Lemma row_map (g : list num -> list num) (A : matrix num) (i : nat) :
  (i < length A)%nat -> row (map g A) i = g (row A i).
Proof.
  intros L. unfold row.
  rewrite (nth_indep _ [] (g [])) by (rewrite length_map; exact L).
  apply map_nth.
Qed.

Lemma row_map_seq (g : nat -> list num) (p i : nat) :
  (i < p)%nat -> row (map g (seq 0 p)) i = g i.
Proof.
  intros L. unfold row.
  rewrite (nth_indep _ [] (g O)) by (rewrite length_map, length_seq; exact L).
  rewrite map_nth, seq_nth by exact L. reflexivity.
Qed.

Lemma length_set_nth (A : Type) (i : nat) (v : A) (l : list A) :
  length (set_nth i v l) = length l.
Proof.
  revert i. induction l as [|a l IH]; intros [|i]; simpl; try reflexivity.
  f_equal. apply IH.
Qed.

Lemma nth_set_nth (A : Type) (i r : nat) (v d : A) (l : list A) :
  (i < length l)%nat -> nth r (set_nth i v l) d = if (r =? i)%nat then v else nth r l d.
Proof.
  revert i r. induction l as [|a l IH]; intros i r L; simpl in L; [lia|].
  destruct i as [|i], r as [|r]; simpl; try reflexivity.
  apply IH. lia.
Qed.

Lemma row_set_nth (i r : nat) (v : list num) (M : matrix num) :
  (i < length M)%nat -> row (set_nth i v M) r = if (r =? i)%nat then v else row M r.
Proof. intros L. unfold row. apply nth_set_nth, L. Qed.

Lemma num_nth_set_nth (i c : nat) (v : num) (l : list num) :
  (i < length l)%nat -> num_nth (set_nth i v l) c = if (c =? i)%nat then v else num_nth l c.
Proof. intros L. rewrite !num_nth_nth. apply nth_set_nth, L. Qed.

Lemma length_swap (A : Type) (d : A) (i j : nat) (l : list A) :
  length (swap d i j l) = length l.
Proof. unfold swap. rewrite !length_set_nth. reflexivity. Qed.

Lemma row_swap (i j r : nat) (M : matrix num) :
  (i < length M)%nat -> (j < length M)%nat ->
  row (swap [] i j M) r
  = if (r =? j)%nat then row M i else if (r =? i)%nat then row M j else row M r.
Proof.
  intros Li Lj. unfold swap.
  rewrite row_set_nth by (rewrite length_set_nth; exact Lj).
  rewrite row_set_nth by exact Li. reflexivity.
Qed.

Lemma length_for_cols (n : nat) (f : nat -> num -> num) (r : list num) :
  length r = n -> length (for_cols n f r) = n.
Proof.
  intros L. unfold for_cols. rewrite length_app, length_map, length_seq, length_skipn. lia.
Qed.

Lemma num_nth_for_cols (n : nat) (f : nat -> num -> num) (r : list num) (c : nat) :
  (c < n)%nat -> num_nth (for_cols n f r) c = f c (num_nth r c).
Proof.
  intros L. unfold for_cols. rewrite num_nth_nth, app_nth1
    by (rewrite length_map, length_seq; exact L).
  rewrite <- num_nth_nth. apply (num_nth_map_seq (fun c => f c (num_nth r c))), L.
Qed.

Lemma for_cols_all (n : nat) (f : nat -> num -> num) (r : list num) :
  length r = n -> for_cols n f r = map (fun c => f c (num_nth r c)) (seq 0 n).
Proof.
  intros L. unfold for_cols. rewrite skipn_all2 by lia. apply app_nil_r.
Qed.

End Cells.

(** ** Finite sums of reals *)

Section Sums.
Local Open Scope R_scope.

Lemma bigsum_ext m f g : (forall k, (k < m)%nat -> f k = g k) -> bigsum m f = bigsum m g.
Proof.
  induction m as [|m IH]; intros E; simpl; [reflexivity|].
  rewrite IH, E by (intros; try apply E; lia). reflexivity.
Qed.

Lemma bigsum_zero m : bigsum m (fun _ => 0) = 0.
Proof. induction m as [|m IH]; simpl; [reflexivity|]. rewrite IH. lra. Qed.

Lemma bigsum_plus m f g : bigsum m (fun k => f k + g k) = bigsum m f + bigsum m g.
Proof. induction m as [|m IH]; simpl; [lra|]. rewrite IH. lra. Qed.

Lemma bigsum_minus m f g : bigsum m (fun k => f k - g k) = bigsum m f - bigsum m g.
Proof. induction m as [|m IH]; simpl; [lra|]. rewrite IH. lra. Qed.

Lemma bigsum_scal_l m c f : bigsum m (fun k => c * f k) = c * bigsum m f.
Proof. induction m as [|m IH]; simpl; [lra|]. rewrite IH. lra. Qed.

Lemma bigsum_scal_r m c f : bigsum m (fun k => f k * c) = bigsum m f * c.
Proof. induction m as [|m IH]; simpl; [lra|]. rewrite IH. lra. Qed.

Lemma bigsum_swap m n (f : nat -> nat -> R) :
  bigsum m (fun i => bigsum n (fun j => f i j)) = bigsum n (fun j => bigsum m (fun i => f i j)).
Proof.
  induction m as [|m IH]; simpl.
  - symmetry. apply bigsum_zero.
  - rewrite IH, <- bigsum_plus. reflexivity.
Qed.

Lemma bigsum_delta_l n i g : (i < n)%nat -> bigsum n (fun k => delta i k * g k) = g i.
Proof.
  induction n as [|n IH]; intros L; [lia|]. simpl. unfold delta at 2.
  destruct (Nat.eqb_spec i n) as [->|N].
  - rewrite (bigsum_ext _ (fun _ => 0)), bigsum_zero; [lra|].
    intros k Lk. unfold delta. destruct (Nat.eqb_spec n k); [lia|lra].
  - rewrite IH by lia. lra.
Qed.

Lemma bigsum_delta_r n i g : (i < n)%nat -> bigsum n (fun k => g k * delta k i) = g i.
Proof.
  intros L. rewrite <- (bigsum_delta_l g L). apply bigsum_ext. intros k _.
  unfold delta. rewrite Nat.eqb_sym. lra.
Qed.

Lemma delta_sym i j : delta i j = delta j i.
Proof. unfold delta. rewrite Nat.eqb_sym. reflexivity. Qed.

(** A left inverse of a symmetric matrix is a right inverse. *)
Lemma left_inverse_symmetric n (M L : nat -> nat -> R) :
  (forall i j, (i < n)%nat -> (j < n)%nat -> M i j = M j i) ->
  (forall i j, (i < n)%nat -> (j < n)%nat -> bigsum n (fun k => L i k * M k j) = delta i j) ->
  forall i j, (i < n)%nat -> (j < n)%nat -> bigsum n (fun k => M i k * L k j) = delta i j.
Proof.
  intros Sym Inv.
  assert (T : forall i j, (i < n)%nat -> (j < n)%nat ->
                          bigsum n (fun k => M i k * L j k) = delta i j).
  { intros i j Li Lj. rewrite delta_sym, <- (Inv j i Lj Li).
    apply bigsum_ext. intros k Lk. rewrite (Sym i k Li Lk). lra. }
  assert (S : forall i j, (i < n)%nat -> (j < n)%nat -> L i j = L j i).
  { intros i j Li Lj.
    rewrite <- (bigsum_delta_r (fun k => L i k) Lj).
    rewrite (bigsum_ext _ (fun k => bigsum n (fun l => (L i k * M k l) * L j l))).
    2:{ intros k Lk. rewrite <- (T k j Lk Lj), <- bigsum_scal_l.
        apply bigsum_ext. intros; lra. }
    rewrite bigsum_swap.
    rewrite (bigsum_ext _ (fun l => delta i l * L j l)).
    2:{ intros l Ll. rewrite bigsum_scal_r, (Inv i l Li Ll). reflexivity. }
    apply bigsum_delta_l, Li. }
  intros i j Li Lj. rewrite <- (T i j Li Lj).
  apply bigsum_ext. intros k Lk. rewrite (S k j Lk Lj). reflexivity.
Qed.

End Sums.

(** ** Matrices of finite values *)

Section ExactMatrices.
Context {F : Type} {RF : RealField F} {RL : RealFieldLaws F}.
Local Open Scope R_scope.

Lemma mat_ext n p A a a' :
  (forall i j, (i < n)%nat -> (j < p)%nat -> a i j = a' i j) -> mat n p A a -> mat n p A a'.
Proof.
  intros E [L [Lr C]]. split; [exact L|]. split; [exact Lr|].
  intros i j Li Lj. rewrite <- E by assumption. apply C; assumption.
Qed.

Lemma vec_ext n y v v' : (forall i, (i < n)%nat -> v i = v' i) -> vec n y v -> vec n y v'.
Proof.
  intros E [L C]. split; [exact L|]. intros i Li. rewrite <- E by exact Li. apply C, Li.
Qed.

Lemma list_eq_num_nth (l l' : list (xnum F)) :
  length l = length l' ->
  (forall c, (c < length l)%nat -> num_nth l c = num_nth l' c) -> l = l'.
Proof.
  intros L E. apply (nth_ext l l' NaN NaN L). intros c Lc.
  rewrite <- !num_nth_nth. apply E, Lc.
Qed.

Lemma vec_unique n y y' v : vec n y v -> vec n y' v -> y = y'.
Proof.
  intros [L C] [L' C']. apply list_eq_num_nth; [congruence|].
  intros c Lc. apply (isR_inj (r := v c)); [apply C|apply C']; lia.
Qed.

Lemma mat_unique n p A A' a : mat n p A a -> mat n p A' a -> A = A'.
Proof.
  intros [L [Lr C]] [L' [Lr' C']].
  apply (nth_ext A A' [] [] ltac:(congruence)). intros i Li.
  change (row A i = row A' i).
  apply list_eq_num_nth; [rewrite Lr, Lr' by lia; reflexivity|].
  intros c Lc. rewrite Lr in Lc by lia.
  apply (isR_inj (r := a i c)); [apply C|apply C']; lia.
Qed.

Lemma mat_row n p A a i : mat n p A a -> (i < n)%nat -> vec p (row A i) (a i).
Proof. intros [L [Lr C]] Li. split; [apply Lr, Li|]. intros j Lj. apply C; assumption. Qed.

(** The accumulation of a sum of products, from zero, in index order. *)
Lemma isR_fold_sum (m : nat) (f : nat -> xnum F) (g : nat -> R) :
  (forall k, (k < m)%nat -> isR (f k) (g k)) ->
  isR (fold_left (fun acc k => add acc (f k)) (seq 0 m) zero) (bigsum m g).
Proof.
  induction m as [|m IH]; intros E; [apply isR_zero|].
  rewrite seq_S, fold_left_app. simpl.
  apply isR_add; [apply IH; intros; apply E; lia|apply E; lia].
Qed.

Lemma identity_mat n : mat n n (identity n) delta.
Proof.
  unfold identity. split; [rewrite length_map, length_seq; reflexivity|]. split.
  - intros i Li. rewrite (row_map_seq _ Li), length_map, length_seq. reflexivity.
  - intros i j Li Lj. unfold cell. rewrite (row_map_seq _ Li).
    rewrite (num_nth_map_seq _ Lj). unfold delta.
    destruct (i =? j)%nat; [apply isR_one|apply isR_zero].
Qed.

Lemma transpose_mat n p X x :
  mat n p X x -> (0 < n)%nat ->
  exists Xt, transpose X = Ok Xt /\ mat p n Xt (fun i k => x k i).
Proof.
  intros [L [Lr C]] Ln. destruct X as [|x0 X']; [simpl in L; lia|].
  rewrite transpose_ok. eexists; split; [reflexivity|].
  assert (L0 : length x0 = p) by (apply (Lr O Ln)).
  rewrite L0. split; [rewrite length_map, length_seq; reflexivity|]. split.
  - intros i Li. rewrite (row_map_seq _ Li), length_map. exact L.
  - intros i k Li Lk. unfold cell. rewrite (row_map_seq _ Li).
    rewrite (num_nth_map (fun r => num_nth r i) (x0 :: X') []) by lia.
    apply C; assumption.
Qed.

Lemma matMul_mat n m p A B a b :
  mat n m A a -> mat m p B b -> (0 < m)%nat ->
  exists C, matMul A B = Ok C /\
            mat n p C (fun i j => bigsum m (fun k => a i k * b k j)).
Proof.
  intros [LA [LrA CA]] [LB [LrB CB]] Lm.
  destruct B as [|b0 B']; [simpl in LB; lia|].
  unfold matMul. eexists; split; [reflexivity|].
  assert (L0 : length b0 = p) by (apply (LrB O Lm)).
  rewrite L0, LB. split; [rewrite length_map; exact LA|]. split.
  - intros i Li. rewrite row_map by lia. rewrite length_map, length_seq. reflexivity.
  - intros i j Li Lj. unfold cell at 1. rewrite row_map by lia.
    rewrite (num_nth_map_seq _ Lj).
    apply (isR_fold_sum (fun k => mul (num_nth (row A i) k) (num_nth (nth k (b0 :: B') []) j))).
    intros k Lk. apply isR_mul; [apply CA|apply CB]; assumption.
Qed.

Lemma column_mat n y v : vec n y v -> mat n 1 (map (fun a => [a]) y) (fun i _ => v i).
Proof.
  intros [L C]. split; [rewrite length_map; exact L|]. split.
  - intros i Li. unfold row.
    rewrite (nth_indep _ [] [NaN]) by (rewrite length_map; lia).
    rewrite (map_nth (fun a => [a])). reflexivity.
  - intros i j Li Lj. unfold cell, row.
    rewrite (nth_indep _ [] [NaN]) by (rewrite length_map; lia).
    rewrite (map_nth (fun a => [a])).
    destruct j; [|lia]. rewrite <- num_nth_nth. apply C, Li.
Qed.

Lemma first_column_vec n M m : mat n 1 M m -> vec n (map (fun r => num_nth r 0) M) (fun i => m i O).
Proof.
  intros [L [Lr C]]. split; [rewrite length_map; exact L|].
  intros i Li. rewrite (num_nth_map (fun r => num_nth r 0) M []) by lia.
  apply C; lia.
Qed.

Lemma addRidge_mat n M m lambda l :
  mat n n M m -> isR lambda l ->
  mat n n (addRidge lambda M) (fun i j => m i j + l * delta i j).
Proof.
  intros HM Hl. unfold addRidge. destruct HM as [L HM]. rewrite L.
  assert (G : forall k, (k <= n)%nat ->
    mat n n (fold_left (fun M i => set_nth i (set_nth i (add (cell M i i) lambda) (row M i)) M)
               (seq 0 k) M)
            (fun i j => if (i <? k)%nat then m i j + l * delta i j else m i j)).
  { induction k as [|k IH]; intros Lk.
    - simpl. split; [exact L|exact HM].
    - rewrite seq_S, fold_left_app. simpl.
      destruct (IH ltac:(lia)) as [L' [Lr' C']].
      set (M' := fold_left _ (seq 0 k) M) in *.
      split; [rewrite length_set_nth; exact L'|]. split.
      + intros i Li. rewrite row_set_nth by lia.
        destruct (Nat.eqb_spec i k) as [->|N]; [rewrite length_set_nth|]; apply Lr'; lia.
      + intros i j Li Lj. unfold cell. rewrite row_set_nth by lia.
        destruct (Nat.eqb_spec i k) as [->|N].
        * rewrite num_nth_set_nth by (rewrite Lr'; lia).
          assert ((k <? S k)%nat = true) as -> by (apply Nat.ltb_lt; lia).
          specialize (C' k j ltac:(lia) Lj) as Ckj.
          assert ((k <? k)%nat = false) as E by (apply Nat.ltb_ge; lia). rewrite E in Ckj.
          unfold delta. destruct (Nat.eqb_spec j k) as [->|N].
          -- rewrite Nat.eqb_refl. apply (isR_eq (r := m k k + l)); [|lra].
             apply isR_add; [|exact Hl].
             specialize (C' k k ltac:(lia) ltac:(lia)). rewrite E in C'. exact C'.
          -- destruct (Nat.eqb_spec k j); [lia|].
             apply (isR_eq Ckj). lra.
        * specialize (C' i j Li Lj). unfold cell in C'.
          destruct (Nat.ltb_spec i k) as [Q|Q].
          -- assert ((i <? S k)%nat = true) as -> by (apply Nat.ltb_lt; lia). exact C'.
          -- assert ((i <? S k)%nat = false) as -> by (apply Nat.ltb_ge; lia). exact C'. }
  apply (mat_ext (a := fun i j => if (i <? n)%nat then m i j + l * delta i j else m i j)).
  - intros i j Li _. apply Nat.ltb_lt in Li. rewrite Li. reflexivity.
  - apply G. lia.
Qed.

End ExactMatrices.

(** ** Gauss-Jordan elimination *)

Lemma findMaxRow_range {num : Type} {N : JSNumber num} (n i : nat) (A : matrix num) :
  (i < n)%nat -> (i <= findMaxRow n i A < n)%nat.
Proof.
  intros L. unfold findMaxRow.
  assert (G : forall l acc, (forall r, In r l -> (i <= r < n)%nat) -> (i <= acc < n)%nat ->
            (i <= fold_left (fun maxRow r =>
                               if ltb (Math_abs (cell A maxRow i)) (Math_abs (cell A r i))
                               then r else maxRow) l acc < n)%nat).
  { induction l as [|r l IH]; intros acc Hl Hacc; simpl; [exact Hacc|].
    apply IH; [intros; apply Hl; right; assumption|].
    destruct (ltb _ _); [apply Hl; left; reflexivity|exact Hacc]. }
  apply G; [|lia]. intros r Hr. apply in_seq in Hr. lia.
Qed.

Section GaussJordan.
Context {F : Type} {RF : RealField F} {RL : RealFieldLaws F}.
Local Open Scope R_scope.

Lemma exchange_lt n i mx r : (i < n)%nat -> (mx < n)%nat -> (r < n)%nat -> (exchange i mx r < n)%nat.
Proof. intros. unfold exchange. destruct (r =? mx)%nat, (r =? i)%nat; assumption. Qed.

Lemma exchange_pivot i mx : exchange i mx i = mx.
Proof.
  unfold exchange. rewrite Nat.eqb_refl. destruct (Nat.eqb_spec i mx); congruence.
Qed.

Lemma swap_mat n A a i mx :
  mat n n A a -> (i < n)%nat -> (mx < n)%nat ->
  mat n n (swap [] i mx A) (fun r c => a (exchange i mx r) c).
Proof.
  intros [L [Lr C]] Li Lm. split; [rewrite length_swap; exact L|].
  assert (R : forall r, row (swap [] i mx A) r = row A (exchange i mx r)).
  { intros r. rewrite row_swap by lia. unfold exchange.
    destruct (r =? mx)%nat, (r =? i)%nat; reflexivity. }
  split.
  - intros r Lr'. rewrite R. apply Lr, exchange_lt; assumption.
  - intros r c Lr' Lc. unfold cell. rewrite R. apply C; [apply exchange_lt|]; assumption.
Qed.

Lemma scale_row_mat n A a i pivot p :
  mat n n A a -> (i < n)%nat -> isR pivot p -> p <> 0 ->
  mat n n (set_nth i (for_cols n (fun _ x => div x pivot) (row A i)) A)
          (fun r c => if (r =? i)%nat then a r c / p else a r c).
Proof.
  intros [L [Lr C]] Li Hp Np. split; [rewrite length_set_nth; exact L|]. split.
  - intros r Lr'. rewrite row_set_nth by lia.
    destruct (r =? i)%nat; [apply length_for_cols|]; apply Lr; assumption.
  - intros r c Lr' Lc. unfold cell. rewrite row_set_nth by lia.
    destruct (Nat.eqb_spec r i) as [->|N]; [|apply C; assumption].
    rewrite num_nth_for_cols by exact Lc.
    apply isR_div; [apply C; assumption|exact Hp|exact Np].
Qed.

Lemma eliminate_mat n i A I a b :
  mat n n A a -> mat n n I b -> (i < n)%nat ->
  mat n n (fst (eliminate n i (A, I)))
          (fun r c => if (r =? i)%nat then a r c else a r c - a r i * a i c) /\
  mat n n (snd (eliminate n i (A, I)))
          (fun r c => if (r =? i)%nat then b r c else b r c - a r i * b i c).
Proof.
  intros HA HI Li. unfold eliminate.
  set (step := fun (s : matrix (xnum F) * matrix (xnum F)) (r : nat) => _).
  assert (G : forall k, (k <= n)%nat ->
    mat n n (fst (fold_left step (seq 0 k) (A, I)))
      (fun r c => if (r <? k)%nat && negb (r =? i)%nat then a r c - a r i * a i c else a r c) /\
    mat n n (snd (fold_left step (seq 0 k) (A, I)))
      (fun r c => if (r <? k)%nat && negb (r =? i)%nat then b r c - a r i * b i c else b r c)).
  { induction k as [|k IH]; intros Lk.
    - simpl. split; assumption.
    - rewrite seq_S, fold_left_app. simpl.
      destruct (IH ltac:(lia)) as [HAk HIk].
      destruct (fold_left step (seq 0 k) (A, I)) as [Ak Ik]. simpl in HAk, HIk.
      clear IH. unfold step. cbv beta iota. destruct (Nat.eqb_spec k i) as [->|N].
      + simpl. split; [revert HAk|revert HIk]; apply mat_ext; intros r c Lr Lc;
          destruct (Nat.eqb_spec r i) as [->|N']; simpl;
          rewrite ?andb_false_r, ?andb_true_r; try reflexivity;
          destruct (Nat.ltb_spec r i), (Nat.ltb_spec r (S i)); try reflexivity; lia.
      + destruct HAk as [LA [LrA CA]], HIk as [LI [LrI CI]]. simpl.
        assert (Hf : isR (cell Ak k i) (a k i)).
        { specialize (CA k i ltac:(lia) Li). rewrite Nat.ltb_irrefl in CA. exact CA. }
        assert (Hp : forall c, (c < n)%nat -> isR (cell Ak i c) (a i c)).
        { intros c Lc. specialize (CA i c Li Lc).
          rewrite Nat.eqb_refl, andb_false_r in CA. exact CA. }
        assert (Hq : forall c, (c < n)%nat -> isR (cell Ik i c) (b i c)).
        { intros c Lc. specialize (CI i c Li Lc).
          rewrite Nat.eqb_refl, andb_false_r in CI. exact CI. }
        split.
        * split; [rewrite length_set_nth; exact LA|]. split.
          -- intros r Lr. rewrite row_set_nth by lia.
             destruct (r =? k)%nat; [apply length_for_cols|]; apply LrA; lia.
          -- intros r c Lr Lc. unfold cell at 1. rewrite row_set_nth by lia.
             destruct (Nat.eqb_spec r k) as [->|N'].
             ++ rewrite num_nth_for_cols by exact Lc.
                assert ((k <? S k)%nat = true) as -> by (apply Nat.ltb_lt; lia).
                assert ((k =? i)%nat = false) as -> by (apply Nat.eqb_neq; exact N).
                simpl. apply isR_sub; [|apply isR_mul; [exact Hf|apply Hp, Lc]].
                specialize (CA k c ltac:(lia) Lc). rewrite Nat.ltb_irrefl in CA. exact CA.
             ++ specialize (CA r c Lr Lc).
                assert ((r <? S k)%nat = (r <? k)%nat) as ->; [|exact CA].
                destruct (Nat.ltb_spec r (S k)), (Nat.ltb_spec r k); try reflexivity; lia.
        * split; [rewrite length_set_nth; exact LI|]. split.
          -- intros r Lr. rewrite row_set_nth by lia.
             destruct (r =? k)%nat; [apply length_for_cols|]; apply LrI; lia.
          -- intros r c Lr Lc. unfold cell at 1. rewrite row_set_nth by lia.
             destruct (Nat.eqb_spec r k) as [->|N'].
             ++ rewrite num_nth_for_cols by exact Lc.
                assert ((k <? S k)%nat = true) as -> by (apply Nat.ltb_lt; lia).
                assert ((k =? i)%nat = false) as -> by (apply Nat.eqb_neq; exact N).
                simpl. apply isR_sub; [|apply isR_mul; [exact Hf|apply Hq, Lc]].
                specialize (CI k c ltac:(lia) Lc). rewrite Nat.ltb_irrefl in CI. exact CI.
             ++ specialize (CI r c Lr Lc).
                assert ((r <? S k)%nat = (r <? k)%nat) as ->; [|exact CI].
                destruct (Nat.ltb_spec r (S k)), (Nat.ltb_spec r k); try reflexivity; lia. }
  destruct (G n (Nat.le_refl n)) as [GA GI].
  split; [revert GA|revert GI]; apply mat_ext; intros r c Lr Lc;
    apply Nat.ltb_lt in Lr; rewrite Lr; destruct (r =? i)%nat; reflexivity.
Qed.

End GaussJordan.

Section Inversion.
Context {F : Type} {RF : RealField F} {RL : RealFieldLaws F}.
Local Open Scope R_scope.

Lemma threshold_pos : exists e, isR (lit 1 (-12)) e /\ 0 < e.
Proof.
  eexists. split; [apply (isR_lit_neg 1 12)|].
  apply Rdiv_lt_0_compat; [lra|]. apply IZR_lt. reflexivity.
Qed.

(** One turn of the outer loop, on the values: the rows [i] and [mx] are
    exchanged, the pivot is not zero, row [i] is divided by it and taken
    out of the other rows, in the matrix and in the inverse under way. *)
Lemma pivotStep_mat n i A I a b A' I' :
  mat n n A a -> mat n n I b -> (i < n)%nat ->
  pivotStep n (A, I) i = Some (A', I') ->
  exists mx, (i <= mx < n)%nat /\ a mx i <> 0 /\
    mat n n A' (fun r c =>
                  if (r =? i)%nat then a mx c / a mx i
                  else a (exchange i mx r) c - a (exchange i mx r) i * (a mx c / a mx i)) /\
    mat n n I' (fun r c =>
                  if (r =? i)%nat then b mx c / a mx i
                  else b (exchange i mx r) c - a (exchange i mx r) i * (b mx c / a mx i)).
Proof.
  intros HA HI Li E. unfold pivotStep in E.
  pose proof (findMaxRow_range A Li) as Rg.
  set (mx := findMaxRow n i A) in *. exists mx. split; [exact Rg|].
  pose proof (swap_mat HA Li (proj2 Rg)) as HA1.
  pose proof (swap_mat HI Li (proj2 Rg)) as HI1.
  set (A1 := swap [] i mx A) in *. set (I1 := swap [] i mx I) in *.
  assert (Hp : isR (cell A1 i i) (a mx i)).
  { destruct HA1 as [_ [_ C]]. specialize (C i i Li Li).
    rewrite exchange_pivot in C. exact C. }
  destruct threshold_pos as [e [He Pe]].
  destruct (ltb (Math_abs (cell A1 i i)) (lit 1 (-12))) eqn:T; [discriminate|].
  apply (ltb_isR_false (isR_abs Hp) He) in T.
  assert (Np : a mx i <> 0).
  { intros Z. rewrite Z, Rabs_R0 in T. lra. }
  split; [exact Np|].
  pose proof (scale_row_mat HA1 Li Hp Np) as HA2.
  pose proof (scale_row_mat HI1 Li Hp Np) as HI2.
  destruct (eliminate_mat HA2 HI2 Li) as [HA3 HI3].
  match type of E with Some ?X = _ => set (X0 := X) in E end.
  assert (E2 : X0 = (A', I')) by congruence.
  change (eliminate n i _) with X0 in HA3, HI3.
  rewrite E2 in HA3, HI3. simpl in HA3, HI3.
  split; [revert HA3|revert HI3]; apply mat_ext; intros r c Lr Lc;
    rewrite !Nat.eqb_refl, !exchange_pivot;
    destruct (Nat.eqb_spec r i) as [->|N]; try reflexivity;
    rewrite exchange_pivot; reflexivity.
Qed.

(** What a turn keeps: the matrix under way is the inverse under way
    times the input, and its first columns are those of the identity. *)
Lemma pivot_invariant n (m a b : nat -> nat -> R) i mx :
  (i <= mx < n)%nat -> a mx i <> 0 ->
  (forall r c, (r < n)%nat -> (c < n)%nat -> a r c = bigsum n (fun j => b r j * m j c)) ->
  (forall r c, (r < n)%nat -> (c < i)%nat -> a r c = delta r c) ->
  let a' := fun r c => if (r =? i)%nat then a mx c / a mx i
                       else a (exchange i mx r) c - a (exchange i mx r) i * (a mx c / a mx i) in
  let b' := fun r c => if (r =? i)%nat then b mx c / a mx i
                       else b (exchange i mx r) c - a (exchange i mx r) i * (b mx c / a mx i) in
  (forall r c, (r < n)%nat -> (c < n)%nat -> a' r c = bigsum n (fun j => b' r j * m j c)) /\
  (forall r c, (r < n)%nat -> (c < S i)%nat -> a' r c = delta r c).
Proof.
  intros Rg Np I1 I2 a' b'. split.
  - intros r c Lr Lc. unfold a', b'. destruct (Nat.eqb_spec r i) as [->|N].
    + rewrite (I1 mx c) by lia. unfold Rdiv. rewrite <- bigsum_scal_r.
      apply bigsum_ext. intros; lra.
    + assert (Lx : (exchange i mx r < n)%nat) by (apply exchange_lt; lia).
      rewrite (I1 _ c Lx Lc), (I1 mx c) by lia.
      unfold Rdiv. rewrite <- (bigsum_scal_r n (/ a mx i)), <- bigsum_scal_l, <- bigsum_minus.
      apply bigsum_ext. intros; lra.
  - intros r c Lr Lc. unfold a'.
    assert (Z : forall r', (i <= r' < n)%nat -> (c < i)%nat -> a r' c = 0).
    { intros r' Lr' Lc'. rewrite I2 by lia. unfold delta.
      destruct (Nat.eqb_spec r' c); [lia|reflexivity]. }
    destruct (Nat.eqb_spec r i) as [->|N].
    + destruct (Nat.eq_dec c i) as [->|Nc].
      * unfold delta. rewrite Nat.eqb_refl. field. exact Np.
      * rewrite Z by lia. unfold delta. destruct (Nat.eqb_spec i c); [lia|]. field. exact Np.
    + destruct (Nat.eq_dec c i) as [->|Nc].
      * unfold delta. destruct (Nat.eqb_spec r i); [lia|]. field. exact Np.
      * rewrite (Z mx) by lia.
        assert (E : a (exchange i mx r) c = delta r c).
        { unfold exchange. destruct (Nat.eqb_spec r mx) as [->|Nm].
          - rewrite Z by lia. unfold delta. destruct (Nat.eqb_spec mx c); [lia|reflexivity].
          - destruct (Nat.eqb_spec r i); [lia|]. apply I2; lia. }
        rewrite E. unfold Rdiv. lra.
Qed.

(** When [invertMatrix] returns a matrix, it is a left inverse. *)
Lemma invertMatrix_mat n M m Minv :
  mat n n M m -> invertMatrix M = Some Minv ->
  exists b, mat n n Minv b /\
            forall r c, (r < n)%nat -> (c < n)%nat ->
                        bigsum n (fun j => b r j * m j c) = delta r c.
Proof.
  intros HM E. unfold invertMatrix in E. rewrite map_id in E.
  pose proof HM as [L _]. rewrite L in E.
  set (step := fun (s : option (matrix (xnum F) * matrix (xnum F))) (i : nat) =>
                 match s with Some AI => pivotStep n AI i | None => None end) in E.
  assert (G : forall len k A I a b,
    (k + len = n)%nat -> mat n n A a -> mat n n I b ->
    (forall r c, (r < n)%nat -> (c < n)%nat -> a r c = bigsum n (fun j => b r j * m j c)) ->
    (forall r c, (r < n)%nat -> (c < k)%nat -> a r c = delta r c) ->
    forall A' I', fold_left step (seq k len) (Some (A, I)) = Some (A', I') ->
    exists a' b', mat n n A' a' /\ mat n n I' b' /\
      (forall r c, (r < n)%nat -> (c < n)%nat -> a' r c = bigsum n (fun j => b' r j * m j c)) /\
      (forall r c, (r < n)%nat -> (c < n)%nat -> a' r c = delta r c)).
  { induction len as [|len IH]; intros k A I a b Lk HA HI I1 I2 A' I' E'.
    - simpl in E'. injection E' as <- <-. exists a, b.
      repeat split; try apply HA; try apply HI; try assumption.
      intros r c Lr Lc. apply I2; lia.
    - change (fold_left step (seq (S k) len) (pivotStep n (A, I) k) = Some (A', I')) in E'.
      destruct (pivotStep n (A, I) k) as [[A1 I1']|] eqn:P.
      + assert (Lkn : (k < n)%nat) by lia.
        assert (Lk' : (S k + len = n)%nat) by lia.
        destruct (pivotStep_mat HA HI Lkn P) as [mx [Rg [Np [HA1 HI1]]]].
        destruct (@pivot_invariant n m a b k mx Rg Np I1 I2) as [J1 J2].
        apply (IH (S k) A1 I1' _ _ Lk' HA1 HI1 J1 J2 A' I' E').
      + exfalso. clear -E'. induction (seq (S k) len) as [|x l IHl];
          [discriminate E'|exact (IHl E')]. }
  match type of E with option_map snd ?X = _ => destruct X as [[A' I']|] eqn:R end;
    [|discriminate E].
  simpl in E. injection E as <-.
  destruct (G n O M (identity n) m delta (Nat.add_0_l n) HM (identity_mat n)) with (A' := A') (I' := I')
    as [a' [b' [HA' [HI' [J1 J2]]]]].
  - intros r c Lr Lc. symmetry. apply (bigsum_delta_l (fun j => m j c) Lr).
  - intros r c _ Lc. lia.
  - exact R.
  - exists b'. split; [exact HI'|]. intros r c Lr Lc.
    rewrite <- J1 by assumption. apply J2; assumption.
Qed.

End Inversion.

(** ** Ridge regression over exact arithmetic *)

Section Ridge.
Context {F : Type} {RF : RealField F} {RL : RealFieldLaws F}.
Local Open Scope R_scope.

Lemma normalMatrix_sym n x l i j : normalMatrix n x l i j = normalMatrix n x l j i.
Proof.
  unfold normalMatrix. rewrite (delta_sym i j). f_equal.
  apply bigsum_ext. intros; lra.
Qed.

(** The steps of [linearRidge] on an [n] by [p] matrix of finite values. *)
Lemma linearRidge_steps n p X x y v lambda l :
  mat n p X x -> vec n y v -> (0 < n)%nat -> (0 < p)%nat -> isR lambda l ->
  exists Xt XtX Xty,
    transpose X = Ok Xt /\ mat p n Xt (fun i k => x k i) /\
    matMul Xt X = Ok XtX /\ mat p p (addRidge lambda XtX) (normalMatrix n x l) /\
    matMul Xt (map (fun a => [a]) y) = Ok Xty /\
    mat p 1 Xty (fun i _ => bigsum n (fun k => x k i * v k)) /\
    (invertMatrix (addRidge lambda XtX) = None -> linearRidge X y lambda = Ok None) /\
    (forall XtXinv, invertMatrix (addRidge lambda XtX) = Some XtXinv ->
       exists binv betaMat,
         mat p p XtXinv binv /\
         (forall r c, (r < p)%nat -> (c < p)%nat ->
                      bigsum p (fun j => binv r j * normalMatrix n x l j c) = delta r c) /\
         matMul XtXinv Xty = Ok betaMat /\
         linearRidge X y lambda = Ok (Some (map (fun r => num_nth r 0) betaMat)) /\
         vec p (map (fun r => num_nth r 0) betaMat)
             (fun i => bigsum p (fun j => binv i j * bigsum n (fun k => x k j * v k)))).
Proof.
  intros HX Hy Ln Lp Hl.
  destruct (transpose_mat HX Ln) as [Xt [ET HXt]].
  destruct (matMul_mat HXt HX Ln) as [XtX [EM HXtX]].
  pose proof (addRidge_mat HXtX Hl) as HM.
  destruct (matMul_mat HXt (column_mat Hy) Ln) as [Xty [EY HXty]].
  exists Xt, XtX, Xty.
  split; [exact ET|]. split; [exact HXt|]. split; [exact EM|]. split; [exact HM|].
  split; [exact EY|]. split; [exact HXty|]. split.
  - intros EI. unfold linearRidge. rewrite ET. cbn [bind]. rewrite EM. cbn [bind].
    rewrite EI. reflexivity.
  - intros XtXinv EI.
    destruct (invertMatrix_mat HM EI) as [binv [HI LI]].
    destruct (matMul_mat HI HXty Lp) as [betaMat [EB HB]].
    exists binv, betaMat. split; [exact HI|]. split; [exact LI|]. split; [exact EB|]. split.
    + unfold linearRidge. rewrite ET. cbn [bind]. rewrite EM. cbn [bind].
      rewrite EI, EY. cbn [bind]. rewrite EB. reflexivity.
    + apply (first_column_vec HB).
Qed.

(** On finite values [linearRidge] raises nothing, and what it returns is
    finite. *)
Lemma linearRidge_finite n p X x y v lambda l :
  mat n p X x -> vec n y v -> (0 < n)%nat -> (0 < p)%nat -> isR lambda l ->
  linearRidge X y lambda = Ok None \/
  exists beta b, linearRidge X y lambda = Ok (Some beta) /\ vec p beta b.
Proof.
  intros HX Hy Ln Lp Hl.
  destruct (linearRidge_steps HX Hy Ln Lp Hl)
    as [Xt [XtX [Xty [_ [_ [_ [_ [_ [_ [N S]]]]]]]]]].
  destruct (invertMatrix (addRidge lambda XtX)) as [XtXinv|].
  - right. destruct (S XtXinv eq_refl) as [binv [betaMat [_ [_ [_ [E V]]]]]].
    eexists. eexists. split; [exact E|exact V].
  - left. apply N. reflexivity.
Qed.

(** What [linearRidge] returns, on the reals: the matrix it inverts is
    [XtX + lambda I], the matrix [invertMatrix] returns is its inverse on
    both sides, and the coefficients are that inverse times [Xt y], so that
    they solve the normal equations. *)
Lemma linearRidge_solves n (X : matrix (xnum F)) x (y : list (xnum F)) v
    (beta : list (xnum F)) (lambda : xnum F) l :
  (8 <= n)%nat -> mat n 8 X x -> vec n y v -> isR lambda l ->
  linearRidge X y lambda = Ok (Some beta) ->
  exists Xt XtX XtXinv Xty binv b,
    transpose X = Ok Xt /\
    matMul Xt X = Ok XtX /\
    mat 8 8 XtX (fun i j => bigsum n (fun k => x k i * x k j)) /\
    mat 8 8 (addRidge lambda XtX) (normalMatrix n x l) /\
    invertMatrix (addRidge lambda XtX) = Some XtXinv /\
    mat 8 8 XtXinv binv /\
    (forall r c, (r < 8)%nat -> (c < 8)%nat ->
                 bigsum 8 (fun j => binv r j * normalMatrix n x l j c) = delta r c) /\
    (forall r c, (r < 8)%nat -> (c < 8)%nat ->
                 bigsum 8 (fun j => normalMatrix n x l r j * binv j c) = delta r c) /\
    matMul Xt (map (fun a => [a]) y) = Ok Xty /\
    mat 8 1 Xty (fun i _ => bigsum n (fun k => x k i * v k)) /\
    matMul XtXinv Xty = Ok (map (fun a => [a]) beta) /\
    vec 8 beta b /\
    (forall i, (i < 8)%nat ->
               b i = bigsum 8 (fun j => binv i j * bigsum n (fun k => x k j * v k))) /\
    (forall i, (i < 8)%nat ->
               bigsum 8 (fun j => normalMatrix n x l i j * b j)
               = bigsum n (fun k => x k i * v k)) /\
    matMul XtXinv (addRidge lambda XtX) = Ok (identity 8) /\
    matMul (addRidge lambda XtX) XtXinv = Ok (identity 8) /\
    matMul (addRidge lambda XtX) (map (fun a => [a]) beta) = Ok Xty.
Proof.
  intros Ln HX Hy Hl E.
  assert (L0 : (0 < n)%nat) by lia. assert (L8 : (0 < 8)%nat) by lia.
  destruct (transpose_mat HX L0) as [Xt [ET HXt]].
  destruct (matMul_mat HXt HX L0) as [XtX [EM HXtX]].
  pose proof (addRidge_mat HXtX Hl) as HM.
  destruct (matMul_mat HXt (column_mat Hy) L0) as [Xty [EY HXty]].
  unfold linearRidge in E. rewrite ET in E. cbn [bind] in E. rewrite EM in E. cbn [bind] in E.
  destruct (invertMatrix (addRidge lambda XtX)) as [XtXinv|] eqn:EI; [|discriminate E].
  rewrite EY in E. cbn [bind] in E.
  destruct (invertMatrix_mat HM EI) as [binv [HI LI]].
  destruct (matMul_mat HI HXty L8) as [betaMat [EB HB]].
  rewrite EB in E. cbn [bind] in E.
  assert (Eb : map (fun r => num_nth r 0) betaMat = beta) by congruence.
  pose proof (first_column_vec HB) as V. rewrite Eb in V.
  set (c := fun j => bigsum n (fun k => x k j * v k)).
  set (b := fun i => bigsum 8 (fun j => binv i j * c j)).
  assert (Vb : vec 8 beta b) by exact V.
  assert (LIn : forall r c0, (r < 8)%nat -> (c0 < 8)%nat ->
                 bigsum 8 (fun j => binv r j * normalMatrix n x l j c0) = delta r c0).
  { intros r c0 Lr Lc. rewrite <- (LI r c0 Lr Lc). apply bigsum_ext. intros k Lk.
    unfold normalMatrix. reflexivity. }
  assert (RI : forall i j, (i < 8)%nat -> (j < 8)%nat ->
                           bigsum 8 (fun k => normalMatrix n x l i k * binv k j) = delta i j).
  { apply left_inverse_symmetric; [|exact LIn].
    intros i j _ _. apply normalMatrix_sym. }
  assert (HMn : mat 8 8 (addRidge lambda XtX) (normalMatrix n x l)).
  { revert HM. apply mat_ext. intros i j Li Lj. reflexivity. }
  assert (NE : forall i, (i < 8)%nat -> bigsum 8 (fun j => normalMatrix n x l i j * b j) = c i).
  { intros i Li. unfold b.
    rewrite (bigsum_ext _ (fun k => bigsum 8 (fun j => (normalMatrix n x l i k * binv k j) * c j))).
    2:{ intros k Lk. cbv beta. rewrite <- bigsum_scal_l. apply bigsum_ext. intros; lra. }
    rewrite bigsum_swap.
    rewrite (bigsum_ext _ (fun j => delta i j * c j)).
    2:{ intros k Lk. rewrite bigsum_scal_r, (RI i k Li Lk). reflexivity. }
    apply (bigsum_delta_l c Li). }
  exists Xt, XtX, XtXinv, Xty, binv, b.
  split; [exact ET|]. split; [exact EM|].
  split; [revert HXtX; apply mat_ext; intros; reflexivity|].
  split; [exact HMn|]. split; [exact EI|]. split; [exact HI|].
  split; [exact LIn|]. split; [exact RI|]. split; [exact EY|].
  split; [exact HXty|].
  split.
  { rewrite EB. f_equal. apply (mat_unique HB).
    revert Vb. intros Vb. apply (column_mat Vb). }
  split; [exact Vb|]. split; [intros; reflexivity|]. split; [exact NE|].
  split; [|split].
  - destruct (matMul_mat HI HMn L8) as [C [EC HC]]. rewrite EC. f_equal.
    apply (mat_unique (n := 8) (p := 8) (a := delta)); [|apply identity_mat].
    revert HC. apply mat_ext. intros i j Li Lj. apply LIn; assumption.
  - destruct (matMul_mat HMn HI L8) as [C [EC HC]]. rewrite EC. f_equal.
    apply (mat_unique (n := 8) (p := 8) (a := delta)); [|apply identity_mat].
    revert HC. apply mat_ext. intros i j Li Lj. apply RI; assumption.
  - destruct (matMul_mat HMn (column_mat Vb) L8) as [C [EC HC]]. rewrite EC. f_equal.
    apply (mat_unique HC). revert HXty. apply mat_ext. intros i j Li Lj. symmetry.
    apply NE, Li.
Qed.

End Ridge.



(** ** Finite values through the engine *)

Section FiniteValues.
Context {F : Type} {RF : RealField F} {RL : RealFieldLaws F}.
Local Open Scope R_scope.

Lemma nonneg_finite a : nonneg a -> finite a.
Proof. intros [r [Hr _]]. apply (isR_finite Hr). Qed.

Lemma positive_finite a : strictlyPositive a -> finite a.
Proof. intros [r [Hr _]]. apply (isR_finite Hr). Qed.

Lemma positive_val a : strictlyPositive a -> val a <> 0.
Proof. intros [r [Hr Pr]]. rewrite (isR_val Hr). lra. Qed.

Lemma fin_ofZ z : finite (ofZ (num := xnum F) z).
Proof. exact I. Qed.

Lemma fin_zero : finite (zero (num := xnum F)).
Proof. exact I. Qed.

Lemma fin_one : finite (one (num := xnum F)).
Proof. exact I. Qed.

Lemma fin_hundred : finite (hundred (num := xnum F)).
Proof. exact I. Qed.

Lemma fin_ofNat n : finite (ofNat (num := xnum F) n).
Proof. exact I. Qed.

Lemma fin_add a b : finite a -> finite b -> finite (add a b).
Proof. intros Ha Hb. apply (isR_finite (isR_add (finite_isR Ha) (finite_isR Hb))). Qed.

Lemma fin_sub a b : finite a -> finite b -> finite (sub a b).
Proof. intros Ha Hb. apply (isR_finite (isR_sub (finite_isR Ha) (finite_isR Hb))). Qed.

Lemma fin_mul a b : finite a -> finite b -> finite (mul a b).
Proof. intros Ha Hb. apply (isR_finite (isR_mul (finite_isR Ha) (finite_isR Hb))). Qed.

Lemma fin_div a b : finite a -> finite b -> val b <> 0 -> finite (div a b).
Proof. intros Ha Hb N. apply (isR_finite (isR_div (finite_isR Ha) (finite_isR Hb) N)). Qed.

Lemma fin_abs a : finite a -> finite (Math_abs a).
Proof. intros Ha. apply (isR_finite (isR_abs (finite_isR Ha))). Qed.

Lemma fin_max a b : finite a -> finite b -> finite (Math_max a b).
Proof. intros Ha Hb. apply (isR_finite (isR_max (finite_isR Ha) (finite_isR Hb))). Qed.

Lemma fin_min a b : finite a -> finite b -> finite (Math_min a b).
Proof. intros Ha Hb. apply (isR_finite (isR_min (finite_isR Ha) (finite_isR Hb))). Qed.

Lemma fin_orElse a d : finite a -> finite d -> finite (orElse a d).
Proof. intros Ha Hd. unfold orElse. destruct (truthy a); assumption. Qed.

Lemma fin_lit_neg (m : Z) (k : positive) : finite (lit (num := xnum F) m (Zneg k)).
Proof. apply (isR_finite (isR_lit_neg m k)). Qed.

Lemma val_ofNat n : val (ofNat (num := xnum F) n) = INR n.
Proof. apply (isR_val (isR_ofNat n)). Qed.

Lemma val_ofNat_neq n : (0 < n)%nat -> val (ofNat (num := xnum F) n) <> 0.
Proof. intros L. rewrite val_ofNat. apply not_0_INR. lia. Qed.

Lemma fin_div_ofNat a n : finite a -> (0 < n)%nat -> finite (div a (ofNat n)).
Proof. intros Ha L. apply fin_div; [exact Ha|apply fin_ofNat|apply val_ofNat_neq, L]. Qed.

Lemma fin_div_hundred a : finite a -> finite (div a hundred).
Proof.
  intros Ha. apply fin_div; [exact Ha|exact I|].
  rewrite (isR_val isR_hundred). lra.
Qed.

Lemma fin_num_nth (l : list (xnum F)) i :
  Forall finite l -> (i < length l)%nat -> finite (num_nth l i).
Proof.
  intros Hl L. rewrite num_nth_nth. apply Forall_nth; assumption.
Qed.

Lemma fin_at (l : list (xnum F)) z v : Forall finite l -> at_ l z = Some v -> finite v.
Proof.
  intros Hl E. unfold at_ in E. destruct (z <? 0)%Z; [discriminate|].
  apply nth_error_In in E. rewrite Forall_forall in Hl. apply Hl, E.
Qed.

Lemma fin_coalesce_at (l : list (xnum F)) z :
  Forall finite l -> finite (coalesce (at_ l z) zero).
Proof.
  intros Hl. destruct (at_ l z) as [v|] eqn:E; simpl; [apply (fin_at _ Hl E)|exact I].
Qed.

Lemma fin_num_at (l : list (xnum F)) z :
  Forall finite l -> (0 <= z < Z.of_nat (length l))%Z -> finite (num_at l z).
Proof.
  intros Hl L. replace z with (Z.of_nat (Z.to_nat z)) by lia.
  apply (fin_num_nth Hl). lia.
Qed.

Lemma fin_fold_left (A : Type) (f : xnum F -> A -> xnum F) (l : list A) (P : A -> Prop) init :
  (forall acc x, finite acc -> P x -> finite (f acc x)) ->
  finite init -> Forall P l -> finite (fold_left f l init).
Proof.
  intros Hf. revert init. induction l as [|x l IH]; intros init Hi Hl; simpl; [exact Hi|].
  inversion Hl; subst. apply IH; [apply Hf|]; assumption.
Qed.

Lemma fin_sum (l : list (xnum F)) : Forall finite l -> finite (sum l).
Proof.
  intros Hl. unfold sum, reduce. apply fin_fold_left with (P := finite); [|exact I|exact Hl].
  intros; apply fin_add; assumption.
Qed.

Lemma Forall_skipn (A : Type) (P : A -> Prop) (k : nat) (l : list A) :
  Forall P l -> Forall P (skipn k l).
Proof.
  revert l. induction k as [|k IH]; intros l Hl; [exact Hl|].
  destruct l as [|a l]; [constructor|]. inversion Hl; subst. apply IH; assumption.
Qed.

Lemma Forall_firstn (A : Type) (P : A -> Prop) (k : nat) (l : list A) :
  Forall P l -> Forall P (firstn k l).
Proof.
  revert l. induction k as [|k IH]; intros l Hl; [constructor|].
  destruct l as [|a l]; [constructor|]. inversion Hl; subst.
  constructor; [|apply IH]; assumption.
Qed.

Lemma Forall_slice (A : Type) (P : A -> Prop) (a b : nat) (l : list A) :
  Forall P l -> Forall P (slice l a b).
Proof. intros Hl. apply Forall_firstn, Forall_skipn, Hl. Qed.

Lemma length_slice (A : Type) (a b : nat) (l : list A) :
  length (slice l a b) = Nat.min (b - a) (length l - a).
Proof. unfold slice. rewrite length_firstn, length_skipn. reflexivity. Qed.

Lemma fin_sma (arr : list (xnum F)) (period : nat) :
  Forall finite arr -> (0 < period <= length arr)%nat -> finite (sma arr period).
Proof.
  intros Ha [L0 L]. unfold sma.
  assert ((length arr <? period)%nat = false) as -> by (apply Nat.ltb_ge; exact L).
  apply fin_div_ofNat; [|exact L0]. apply fin_sum, Forall_skipn, Ha.
Qed.

Lemma fin_ema (arr : list (xnum F)) (period : nat) :
  Forall finite arr -> (0 < length arr)%nat -> finite (ema arr period).
Proof.
  intros Ha L. destruct arr as [|a0 rest]; [simpl in L; lia|]. inversion Ha; subst.
  unfold ema.
  assert (K : finite (div (ofZ 2) (add (ofNat period) one) : xnum F)).
  { apply fin_div; [exact I|exact I|].
    rewrite (isR_val (isR_add (isR_ofNat period) isR_one)).
    pose proof (pos_INR period). lra. }
  apply fin_fold_left with (P := finite); [|assumption|assumption].
  intros acc x Hacc Hx. apply fin_add; apply fin_mul; try assumption.
  apply fin_sub; [exact I|exact K].
Qed.

Lemma nonneg_sq_step acc b mean :
  nonneg acc -> finite b -> finite mean ->
  nonneg (add acc (mul (sub b mean) (sub b mean))).
Proof.
  intros [r [Hr Pr]] Hb Hm.
  pose proof (isR_sub (finite_isR Hb) (finite_isR Hm)) as D.
  eexists. split; [apply (isR_add Hr (isR_mul D D))|].
  pose proof (Rle_0_sqr (val b - val mean)) as Q. unfold Rsqr in Q. lra.
Qed.

Lemma nonneg_fold_sq (l : list (xnum F)) mean init :
  nonneg init -> finite mean -> Forall finite l ->
  nonneg (fold_left (fun a b => add a (mul (sub b mean) (sub b mean))) l init).
Proof.
  intros Hi Hm. revert init Hi. induction l as [|x l IH]; intros init Hi Hl; simpl; [exact Hi|].
  inversion Hl; subst. apply IH; [apply nonneg_sq_step|]; assumption.
Qed.

Lemma nonneg_zero : nonneg (zero (num := xnum F)).
Proof. exists 0. split; [apply isR_zero|lra]. Qed.

Lemma nonneg_div_ofNat a n : nonneg a -> (0 < n)%nat -> nonneg (div a (ofNat n)).
Proof.
  intros [r [Hr Pr]] L.
  assert (0 < INR n) by (apply lt_0_INR; exact L).
  eexists. split; [apply (isR_div Hr (isR_ofNat n)); lra|].
  apply Rmult_le_pos; [exact Pr|]. left. apply Rinv_0_lt_compat. assumption.
Qed.

Lemma nonneg_stddev (arr : list (xnum F)) :
  Forall finite arr -> (0 < length arr)%nat -> nonneg (stddev arr).
Proof.
  intros Ha L. unfold stddev. destruct arr as [|a0 rest] eqn:E; [simpl in L; lia|].
  rewrite <- E in *. clear E.
  assert (M : finite (div (sum arr) (ofNat (length arr)))).
  { apply fin_div_ofNat; [apply fin_sum, Ha|exact L]. }
  assert (V : nonneg (div (reduce (fun a b =>
                                     add a (mul (sub b (div (sum arr) (ofNat (length arr))))
                                                (sub b (div (sum arr) (ofNat (length arr))))))
                                  arr zero)
                          (ofNat (length arr)))).
  { apply nonneg_div_ofNat; [|exact L].
    apply nonneg_fold_sq; [apply nonneg_zero|exact M|exact Ha]. }
  destruct V as [r [Hr Pr]].
  destruct (isR_sqrt Hr Pr) as [s [Hs [Ps _]]].
  exists s. split; assumption.
Qed.

Lemma fin_stddev (arr : list (xnum F)) :
  Forall finite arr -> (0 < length arr)%nat -> finite (stddev arr).
Proof. intros Ha L. apply nonneg_finite, nonneg_stddev; assumption. Qed.

End FiniteValues.

Section FiniteFeatures.
Context {F : Type} {RF : RealField F} {RL : RealFieldLaws F}.
Local Open Scope R_scope.

Lemma valid_finite closes : validCloses closes -> Forall finite closes.
Proof. apply Forall_impl. intros a. apply positive_finite. Qed.

Lemma valid_num_nth closes i :
  validCloses closes -> (i < length closes)%nat -> strictlyPositive (num_nth closes i).
Proof. intros V L. rewrite num_nth_nth. apply Forall_nth; assumption. Qed.

Lemma fin_pct (a b : xnum F) :
  finite a -> strictlyPositive b -> finite (mul (div (sub a b) b) hundred).
Proof.
  intros Ha Hb. apply fin_mul; [|exact I].
  apply fin_div; [apply fin_sub; [exact Ha|]| |]; try apply positive_finite; try exact Hb.
  apply positive_val, Hb.
Qed.

Lemma length_pctReturns (num : Type) (N : JSNumber num) (closes : list num) :
  length (pctReturns closes) = (length closes - 1)%nat.
Proof. unfold pctReturns. rewrite length_map, length_seq. reflexivity. Qed.

Lemma fin_pctReturns closes : validCloses closes -> Forall finite (pctReturns closes).
Proof.
  intros V. unfold pctReturns. apply Forall_forall. intros a Ha.
  apply in_map_iff in Ha. destruct Ha as [i [<- Hi]]. apply in_seq in Hi.
  apply fin_pct; [apply positive_finite|]; apply valid_num_nth; try assumption; lia.
Qed.

Lemma fin_momentum (w : list (xnum F)) :
  Forall finite w -> (20 <= length w)%nat -> finite (momentum w).
Proof.
  intros Hw L. unfold momentum. apply fin_orElse; [|exact I].
  apply fin_sub.
  - apply (fin_num_at Hw). unfold lastIndex. lia.
  - apply fin_orElse; [|exact I]. apply fin_sma; [exact Hw|lia].
Qed.

Lemma length_window (closes : list (xnum F)) i :
  (i + 1 <= length closes)%nat -> length (slice closes 0 (i + 1)) = (i + 1)%nat.
Proof. intros L. rewrite length_slice. lia. Qed.

(** The rows of the full sample. *)
Lemma fin_featureAt closes i :
  validCloses closes -> (20 <= i)%nat -> (i + 2 <= length closes)%nat ->
  Forall finite (featureAt closes (pctReturns closes) i).
Proof.
  intros V L20 Li. pose proof (valid_finite V) as Fc.
  pose proof (fin_pctReturns V) as Fr.
  assert (Fw : Forall finite (slice closes 0 (i + 1))) by (apply Forall_slice, Fc).
  assert (Lw : length (slice closes 0 (i + 1)) = (i + 1)%nat) by (apply length_window; lia).
  unfold featureAt. cbn [coalesce].
  repeat constructor.
  - apply fin_coalesce_at, Fr.
  - apply fin_sma; [exact Fw|lia].
  - apply fin_sma; [exact Fw|lia].
  - apply fin_ema; [exact Fw|lia].
  - apply fin_ema; [exact Fw|lia].
  - apply fin_stddev; [apply Forall_slice, Fr|].
    rewrite length_slice, length_pctReturns. lia.
  - apply fin_momentum; [exact Fw|lia].
Qed.

(** The training rows of the backtest, their targets, and the row of the
    split. *)
Lemma fin_backtestFeatureAt closes i :
  validCloses closes -> (20 <= i)%nat -> (i + 1 <= length closes)%nat ->
  Forall finite (backtestFeatureAt closes i).
Proof.
  intros V L20 Li. pose proof (valid_finite V) as Fc.
  assert (Fw : Forall finite (slice closes 0 (i + 1))) by (apply Forall_slice, Fc).
  assert (Lw : length (slice closes 0 (i + 1)) = (i + 1)%nat) by (apply length_window; lia).
  unfold backtestFeatureAt. cbn [coalesce].
  repeat constructor.
  - apply fin_pct; [apply positive_finite|]; apply valid_num_nth; try assumption; lia.
  - apply fin_orElse; [|exact I]. apply fin_sma; [exact Fw|lia].
  - apply fin_orElse; [|exact I]. apply fin_sma; [exact Fw|lia].
  - apply fin_orElse; [|exact I]. apply fin_ema; [exact Fw|lia].
  - apply fin_orElse; [|exact I]. apply fin_ema; [exact Fw|lia].
  - apply fin_orElse; [|exact I]. apply fin_stddev.
    + apply Forall_forall. intros a Ha. apply in_map_iff in Ha.
      destruct Ha as [c [<- _]]. exact I.
    + rewrite length_map, length_slice. lia.
  - apply fin_momentum; [exact Fw|lia].
Qed.

Lemma fin_backtestTargetAt closes i :
  validCloses closes -> (i + 2 <= length closes)%nat -> finite (backtestTargetAt closes i).
Proof.
  intros V Li. unfold backtestTargetAt.
  apply fin_pct; [apply positive_finite|]; apply valid_num_nth; try assumption; lia.
Qed.

Lemma fin_backtestNextFeature closes split :
  validCloses closes -> (20 <= split)%nat -> (split + 1 <= length closes)%nat ->
  Forall finite (backtestNextFeature closes split).
Proof.
  intros V L20 Li. pose proof (valid_finite V) as Fc.
  assert (Fw : Forall finite (slice closes 0 (split + 1))) by (apply Forall_slice, Fc).
  assert (Lw : length (slice closes 0 (split + 1)) = (split + 1)%nat)
    by (apply length_window; lia).
  assert (Vw : validCloses (slice closes 0 (split + 1))) by (apply Forall_slice, V).
  unfold backtestNextFeature.
  repeat constructor.
  - apply fin_orElse; [|exact I]. unfold lastIndex. rewrite Lw.
    replace (Z.of_nat (split + 1) - 1)%Z with (Z.of_nat split) by lia.
    replace (Z.of_nat split - 1)%Z with (Z.of_nat (split - 1)) by lia.
    apply fin_pct; [apply positive_finite|]; apply (valid_num_nth Vw); lia.
  - apply fin_orElse; [|exact I]. apply fin_sma; [exact Fw|lia].
  - apply fin_orElse; [|exact I]. apply fin_sma; [exact Fw|lia].
  - apply fin_orElse; [|exact I]. apply fin_ema; [exact Fw|lia].
  - apply fin_orElse; [|exact I]. apply fin_ema; [exact Fw|lia].
  - apply fin_orElse; [|exact I]. apply fin_stddev; [apply Forall_slice, Fc|].
    rewrite length_slice. lia.
  - apply fin_momentum; [exact Fw|lia].
Qed.

(** The row of a rollout step, from finite buffers. *)
Lemma fin_rolloutFeature (lc lr : list (xnum F)) :
  Forall finite lc -> Forall finite lr -> (20 <= length lc)%nat -> (0 < length lr)%nat ->
  Forall finite (rolloutFeature lc lr).
Proof.
  intros Fc Fr Lc Lr. unfold rolloutFeature. cbn [coalesce].
  repeat constructor.
  - apply fin_coalesce_at, Fr.
  - apply fin_sma; [exact Fc|lia].
  - apply fin_sma; [exact Fc|lia].
  - apply fin_ema; [exact Fc|lia].
  - apply fin_ema; [exact Fc|lia].
  - apply fin_stddev; [apply Forall_skipn, Fr|].
    unfold slice_from. rewrite length_skipn. lia.
  - apply fin_momentum; [exact Fc|lia].
Qed.

Lemma fin_dot (f beta : list (xnum F)) :
  Forall finite f -> Forall finite beta -> (length f <= length beta)%nat -> finite (dot f beta).
Proof.
  intros Ff Fb L. unfold dot, reduce.
  apply fin_fold_left with (P := fun jv : nat * xnum F =>
                                  (fst jv < length beta)%nat /\ finite (snd jv)).
  - intros acc [j v] Hacc [Lj Hv]. simpl in *.
    apply fin_add; [exact Hacc|]. apply fin_mul; [exact Hv|]. apply fin_num_nth; assumption.
  - exact I.
  - apply Forall_forall. intros [j v] Hjv.
    pose proof (in_combine_l _ _ _ _ Hjv) as Hj. apply in_seq in Hj.
    pose proof (in_combine_r _ _ _ _ Hjv) as Hv.
    rewrite Forall_forall in Ff. simpl. split; [lia|apply Ff, Hv].
Qed.

(** Rows of finite cells make a matrix of finite values. *)
Lemma rows_mat (p : nat) (A : matrix (xnum F)) :
  Forall (fun r => length r = p /\ Forall finite r) A ->
  mat (length A) p A (fun i j => val (cell A i j)).
Proof.
  intros HA. split; [reflexivity|].
  assert (G : forall i, (i < length A)%nat -> length (row A i) = p /\ Forall finite (row A i)).
  { intros i Li. unfold row. apply (Forall_nth (fun r => length r = p /\ Forall finite r));
      assumption. }
  split.
  - intros i Li. apply G, Li.
  - intros i j Li Lj. apply finite_isR. unfold cell.
    destruct (G i Li) as [Lr Fr]. apply fin_num_nth; [exact Fr|lia].
Qed.

Lemma list_vec (y : list (xnum F)) :
  Forall finite y -> vec (length y) y (fun i => val (num_nth y i)).
Proof.
  intros Hy. split; [reflexivity|]. intros i Li. apply finite_isR, fin_num_nth; assumption.
Qed.

Lemma vec_Forall n (y : list (xnum F)) v : vec n y v -> Forall finite y.
Proof.
  intros [L C]. apply Forall_forall. intros a Ha.
  apply (In_nth _ _ NaN) in Ha. destruct Ha as [k [Lk <-]].
  rewrite <- num_nth_nth. apply (isR_finite (C k ltac:(lia))).
Qed.

End FiniteFeatures.

Section FiniteBacktest.
Context {F : Type} {RF : RealField F} {RL : RealFieldLaws F}.
Local Open Scope R_scope.

Lemma isR_ridge : exists l, isR (lit (num := xnum F) 1 (-2)) l /\ 0 < l.
Proof.
  eexists. split; [apply (isR_lit_neg 1 2)|].
  apply Rdiv_lt_0_compat; [lra|]. apply IZR_lt. reflexivity.
Qed.

(** A fit on rows of eight finite cells returns eight finite coefficients,
    or nothing. *)
Lemma fit_finite (X : matrix (xnum F)) (y : list (xnum F)) :
  Forall (fun r => length r = 8%nat /\ Forall finite r) X -> Forall finite y ->
  length y = length X -> (0 < length X)%nat ->
  linearRidge X y (lit 1 (-2)) = Ok None \/
  exists beta, linearRidge X y (lit 1 (-2)) = Ok (Some beta) /\
               length beta = 8%nat /\ Forall finite beta.
Proof.
  intros HX Hy Ly LX. destruct isR_ridge as [l [Hl _]].
  pose proof (list_vec Hy) as Vy. rewrite Ly in Vy.
  destruct (linearRidge_finite (rows_mat HX) Vy LX ltac:(lia) Hl) as [E|[beta [b [E V]]]].
  - left. exact E.
  - right. exists beta. split; [exact E|]. split; [apply V|apply (vec_Forall V)].
Qed.

Lemma splits_range n split : In split (splits n) -> (30 <= split)%nat /\ (split + 2 <= n)%nat.
Proof.
  unfold splits. intros Hs. apply filter_In in Hs. destruct Hs as [Hs _].
  apply in_seq in Hs. lia.
Qed.

Lemma backtest_rows_finite closes split :
  validCloses closes -> (split + 2 <= length closes)%nat ->
  Forall (fun r => length r = 8%nat /\ Forall finite r)
         (map (backtestFeatureAt closes) (seq 20 (split - 20))) /\
  Forall finite (map (backtestTargetAt closes) (seq 20 (split - 20))).
Proof.
  intros V L. split; apply Forall_forall; intros a Ha; apply in_map_iff in Ha;
    destruct Ha as [i [<- Hi]]; apply in_seq in Hi.
  - split; [reflexivity|]. apply fin_backtestFeatureAt; [exact V|lia|lia].
  - apply fin_backtestTargetAt; [exact V|lia].
Qed.

Lemma backtestSplit_valid closes errors split :
  validCloses closes -> (30 <= split)%nat -> (split + 2 <= length closes)%nat ->
  Forall nonneg errors ->
  exists errors', backtestSplit closes errors split = Ok errors' /\ Forall nonneg errors'.
Proof.
  intros V L30 L He. unfold backtestSplit.
  destruct (backtest_rows_finite split V L) as [HX Hy].
  set (X := map (backtestFeatureAt closes) (seq 20 (split - 20))) in *.
  set (y := map (backtestTargetAt closes) (seq 20 (split - 20))) in *.
  assert (LX : length X = (split - 20)%nat) by (unfold X; rewrite length_map, length_seq; reflexivity).
  assert (Ly : length y = length X) by (unfold y; rewrite length_map, length_seq; lia).
  assert ((length X <? 5)%nat = false) as -> by (apply Nat.ltb_ge; lia).
  destruct (fit_finite HX Hy Ly ltac:(lia)) as [E|[betaT [E [Lb Fb]]]]; rewrite E; cbn [bind].
  - exists errors. split; [reflexivity|exact He].
  - destruct (at_ closes (Z.of_nat split + 1)) as [actualPrice|] eqn:EA;
      [|exists errors; split; [reflexivity|exact He]].
    destruct (truthy actualPrice && ltb zero actualPrice);
      [|exists errors; split; [reflexivity|exact He]].
    eexists. split; [reflexivity|]. apply Forall_app. split; [exact He|].
    constructor; [|constructor].
    assert (Pa : strictlyPositive actualPrice).
    { unfold at_ in EA. destruct (Z.of_nat split + 1 <? 0)%Z; [discriminate|].
      apply nth_error_In in EA. unfold validCloses in V. rewrite Forall_forall in V.
      apply V, EA. }
    assert (Fp : finite (mul (num_nth closes split)
                             (add one (div (dot (backtestNextFeature closes split) betaT) hundred)))).
    { apply fin_mul; [apply positive_finite, valid_num_nth; [exact V|lia]|].
      apply fin_add; [exact I|]. apply fin_div_hundred.
      apply fin_dot; [apply fin_backtestNextFeature; [exact V|lia|lia]|exact Fb|].
      rewrite Lb. simpl. lia. }
    assert (Fq : finite (div (sub (mul (num_nth closes split)
                                       (add one (div (dot (backtestNextFeature closes split) betaT)
                                                     hundred)))
                                  actualPrice) actualPrice)).
    { apply fin_div; [apply fin_sub; [exact Fp|apply positive_finite, Pa]
                     |apply positive_finite, Pa|apply positive_val, Pa]. }
    eexists. split; [apply (isR_abs (finite_isR Fq))|]. apply Rabs_pos.
Qed.

Lemma backtestErrors_valid closes :
  validCloses closes ->
  exists errors, backtestErrors closes = Ok errors /\ Forall nonneg errors.
Proof.
  intros V. unfold backtestErrors.
  assert (G : forall l errors,
            (forall s, In s l -> (30 <= s)%nat /\ (s + 2 <= length closes)%nat) ->
            Forall nonneg errors ->
            exists errors',
              fold_left (fun acc split => bind acc (fun e => backtestSplit closes e split))
                        l (Ok errors) = Ok errors' /\ Forall nonneg errors').
  { induction l as [|s l IH]; intros errors Hl He; simpl.
    - exists errors. split; [reflexivity|exact He].
    - destruct (Hl s (or_introl eq_refl)) as [L30 L].
      destruct (backtestSplit_valid V L30 L He) as [e' [E He']].
      rewrite E. apply IH; [|exact He']. intros s' Hs'. apply Hl. right. exact Hs'. }
  apply G; [|constructor]. intros s Hs. apply splits_range, Hs.
Qed.

Lemma nonneg_sum (l : list (xnum F)) : Forall nonneg l -> nonneg (sum l).
Proof.
  intros Hl. unfold sum, reduce.
  assert (G : forall k init, nonneg init -> Forall nonneg k -> nonneg (fold_left add k init)).
  { clear Hl. induction k as [|x k IH]; intros init Hi Hk; simpl; [exact Hi|].
    inversion Hk as [|? ? [rx [Hx Px]] Hk']; subst. apply IH; [|exact Hk'].
    destruct Hi as [ri [Hi Pi]]. eexists. split; [apply (isR_add Hi Hx)|]. lra. }
  apply G; [apply nonneg_zero|exact Hl].
Qed.









(** The confidence of the backtest is the clamp of the specification, and
    lies between 0 and 1. *)
Lemma backtestConfidence_spec (errors : list (xnum F)) :
  Forall nonneg errors ->
  backtestConfidence errors = specBacktestConf errors /\
  exists bt, isR (backtestConfidence errors) bt /\ 0 <= bt <= 1.
Proof.
  intros He. unfold backtestConfidence, specBacktestConf.
  destruct errors as [|e0 errors']; [split; [reflexivity|]|].
  - exists 0. split; [apply isR_zero|lra].
  - set (errors := e0 :: errors') in *. cbn [length Nat.ltb Nat.leb].
    assert (L : (0 < length errors)%nat) by (simpl; lia).
    destruct (nonneg_div_ofNat (nonneg_sum He) L) as [m [Hm Pm]].
    pose proof (isR_lit_neg (F := F) 1 1) as Ht.
    assert (T : IZR 1 / IZR (10 ^ 1) = / 10) by (simpl; lra).
    rewrite T in Ht.
    assert (Hx : isR (div (div (sum errors) (ofNat (length errors))) (lit 1 (-1))) (m / / 10)).
    { apply (isR_div Hm Ht). lra. }
    pose proof (isR_max isR_zero (isR_sub isR_one (isR_min isR_one Hx))) as Hcode.
    pose proof (isR_max isR_zero (isR_min isR_one (isR_sub isR_one Hx))) as Hspec.
    assert (E : Rmax 0 (1 - Rmin 1 (m / / 10)) = Rmax 0 (Rmin 1 (1 - m / / 10))).
    { assert (0 <= m / / 10) by (unfold Rdiv; rewrite Rinv_inv; lra).
      unfold Rmax, Rmin. repeat destruct (Rle_dec _ _); lra. }
    split.
    + unfold clamp, mape. apply (isR_inj Hcode). rewrite E. exact Hspec.
    + eexists. split; [exact Hcode|].
      unfold Rmax, Rmin. repeat destruct (Rle_dec _ _); lra.
Qed.

Lemma finalConfidence_range (bc r2 : xnum F) :
  finite bc -> finite r2 ->
  exists c, isR (finalConfidence bc r2) c /\ 0 <= c <= 1.
Proof.
  intros Hb Hr. unfold finalConfidence.
  pose proof (isR_add (isR_mul (isR_lit_neg (F := F) 8 1) (finite_isR Hb))
                      (isR_mul (isR_lit_neg (F := F) 2 1)
                               (isR_max isR_zero (isR_min isR_one (finite_isR Hr))))) as Hs.
  eexists. split; [apply (isR_max isR_zero (isR_min isR_one Hs))|].
  unfold Rmax, Rmin. repeat destruct (Rle_dec _ _); lra.
Qed.

Lemma fin_rSquared (features : matrix (xnum F)) (targets beta : list (xnum F)) :
  Forall (fun r => length r = 8%nat /\ Forall finite r) features ->
  Forall finite targets -> Forall finite beta -> length beta = 8%nat ->
  length targets = length features -> (0 < length targets)%nat ->
  finite (rSquared features targets beta).
Proof.
  intros HX Ht Hb Lb Lt L0. unfold rSquared.
  set (preds := map (fun f => dot f beta) features).
  assert (Fp : Forall finite preds).
  { apply Forall_forall. intros a Ha. apply in_map_iff in Ha. destruct Ha as [f [<- Hf]].
    rewrite Forall_forall in HX. destruct (HX f Hf) as [Lf Ff].
    apply fin_dot; [exact Ff|exact Hb|lia]. }
  assert (Lp : length preds = length targets) by (unfold preds; rewrite length_map; lia).
  assert (Fm : finite (div (sum targets) (ofNat (length targets)))).
  { apply fin_div_ofNat; [apply fin_sum, Ht|exact L0]. }
  apply fin_sub; [exact I|].
  assert (Ftot : finite (reduce (fun a b =>
                   add a (mul (sub b (div (sum targets) (ofNat (length targets))))
                              (sub b (div (sum targets) (ofNat (length targets))))))
                 targets zero)).
  { apply nonneg_finite, nonneg_fold_sq; [apply nonneg_zero|exact Fm|exact Ht]. }
  destruct (isR_orElse_one (finite_isR Ftot)) as [s [Hs [Ns _]]].
  apply fin_div; [|apply (isR_finite Hs)|rewrite (isR_val Hs); exact Ns].
  unfold reduce.
  apply fin_fold_left with (P := fun ib : nat * xnum F =>
                                  (fst ib < length preds)%nat /\ finite (snd ib)).
  - intros acc [i b] Hacc [Li Hb']. simpl in *.
    assert (finite (sub b (num_nth preds i))) by (apply fin_sub; [|apply fin_num_nth]; assumption).
    apply fin_add; [exact Hacc|]. apply fin_mul; assumption.
  - exact I.
  - apply Forall_forall. intros [i b] Hib.
    pose proof (in_combine_l _ _ _ _ Hib) as Hi. apply in_seq in Hi.
    pose proof (in_combine_r _ _ _ _ Hib) as Hb'.
    rewrite Forall_forall in Ht. simpl. split; [lia|apply Ht, Hb'].
Qed.

End FiniteBacktest.

Section FiniteForecast.
Context {F : Type} {RF : RealField F} {RL : RealFieldLaws F}.
Local Open Scope R_scope.

Lemma rolloutStep_good (beta : list (xnum F)) (s : Rollout (xnum F)) :
  Forall finite beta -> length beta = 8%nat -> goodBuffers s ->
  Forall finite (rolloutFeature (lastCloses s) (lastReturns s)) /\
  goodBuffers (rolloutStep beta s).
Proof.
  intros Fb Lb [Fc [Fr [Fp [Lc Lr]]]].
  pose proof (fin_rolloutFeature Fc Fr Lc Lr) as Ff.
  split; [exact Ff|].
  assert (Hret : finite (stepReturn beta s)).
  { unfold stepReturn. apply fin_dot; [exact Ff|exact Fb|]. rewrite Lb. simpl. lia. }
  assert (Hprice : finite (stepPrice beta s)).
  { unfold stepPrice. apply fin_mul.
    - apply (fin_num_at Fc). unfold lastIndex. lia.
    - apply fin_add; [exact I|]. apply fin_div_hundred, Hret. }
  rewrite rolloutStep_eq. unfold goodBuffers. cbn [lastCloses lastReturns projection].
  rewrite !length_app.
  repeat split; try (apply Forall_app; split; [assumption|constructor; [assumption|constructor]]);
    simpl; lia.
Qed.

Lemma rollout_iter_good (beta : list (xnum F)) (s0 : Rollout (xnum F)) (k : nat) :
  Forall finite beta -> length beta = 8%nat -> goodBuffers s0 ->
  goodBuffers (Nat.iter k (rolloutStep beta) s0).
Proof.
  intros Fb Lb G. induction k as [|k IH]; [exact G|].
  simpl. apply (rolloutStep_good Fb Lb IH).
Qed.

Lemma start_good (closes : list (xnum F)) :
  validCloses closes -> (30 <= length closes)%nat ->
  goodBuffers {| lastCloses := closes; lastReturns := pctReturns closes; projection := [] |}.
Proof.
  intros V L. unfold goodBuffers. cbn [lastCloses lastReturns projection].
  rewrite length_pctReturns.
  repeat split; [apply valid_finite, V|apply fin_pctReturns, V|constructor|lia|lia].
Qed.

(** The compounding of [predict]. *)
Lemma compound_finite (g : xnum F) (len start : nat) (projection : list (xnum F)) :
  finite g -> Forall finite projection -> length projection = S start ->
  Forall finite (fold_left (fun projection i => projection ++ [mul (num_nth projection i) g])
                           (seq start len) projection).
Proof.
  intros Hg. revert start projection.
  induction len as [|len IH]; intros start projection Fp Lp; simpl; [exact Fp|].
  apply IH.
  - apply Forall_app. split; [exact Fp|]. constructor; [|constructor].
    apply fin_mul; [|exact Hg]. apply fin_num_nth; [exact Fp|lia].
  - rewrite length_app. simpl. lia.
Qed.

Lemma predict_finite (values : list (xnum F)) :
  validCloses values -> (2 <= length values)%nat ->
  finite (nextPrice (predict values)) /\ Forall finite (projectionLine (predict values)).
Proof.
  intros V L. pose proof (valid_finite V) as Fv.
  pose proof (predict_long_length values L) as L5.
  unfold predict in *.
  assert ((length values <? 2)%nat = false) as E by (apply Nat.ltb_ge; exact L).
  rewrite E in *. cbn [nextPrice projectionLine] in *.
  set (avg := if (0 <? length (pctReturns values))%nat
              then div (sum (pctReturns values)) (ofNat (length (pctReturns values)))
              else zero) in *.
  assert (Fa : finite avg).
  { unfold avg. destruct (Nat.ltb_spec 0 (length (pctReturns values))) as [Q|Q]; [|exact I].
    apply fin_div_ofNat; [apply fin_sum, fin_pctReturns, V|exact Q]. }
  assert (Fl : finite (num_at values (lastIndex values))).
  { apply (fin_num_at Fv). unfold lastIndex. lia. }
  assert (Fg : finite (add one (div avg hundred))).
  { apply fin_add; [exact I|apply fin_div_hundred, Fa]. }
  pose proof (@compound_finite _ 5 0 [num_at values (lastIndex values)] Fg
                (Forall_cons _ Fl (Forall_nil _)) eq_refl) as Fp.
  set (projection := fold_left _ (seq 0 5) _) in *.
  unfold slice_from in *. rewrite length_skipn in L5.
  split; [|apply Forall_skipn, Fp].
  apply (fin_num_at Fp). unfold lastIndex. lia.
Qed.

Lemma training_rows_finite (closes : list (xnum F)) :
  validCloses closes -> (30 <= length closes)%nat ->
  Forall (fun r => length r = 8%nat /\ Forall finite r)
         (trainingFeatures closes (pctReturns closes)) /\
  Forall finite (trainingTargets closes (pctReturns closes)) /\
  length (trainingTargets closes (pctReturns closes))
  = length (trainingFeatures closes (pctReturns closes)) /\
  (0 < length (trainingFeatures closes (pctReturns closes)))%nat.
Proof.
  intros V L. unfold trainingFeatures, trainingTargets.
  rewrite !length_map, cutoffs_length.
  split; [|split; [|split; [reflexivity|lia]]];
    apply Forall_forall; intros a Ha; apply in_map_iff in Ha;
    destruct Ha as [i [<- Hi]]; unfold cutoffs in Hi; apply in_seq in Hi.
  - split; [reflexivity|]. apply fin_featureAt; [exact V|lia|lia].
  - apply fin_num_nth; [apply fin_pctReturns, V|]. rewrite length_pctReturns. lia.
Qed.

End FiniteForecast.

(** ** The forecast over exact arithmetic *)

Lemma steadyCloses_valid : validCloses (map close steadyCloses).
Proof.
  apply Forall_forall. intros a Ha. apply in_map_iff in Ha. destruct Ha as [c [<- Hc]].
  apply in_map_iff in Hc. destruct Hc as [k [<- _]]. cbn [close].
  exists 100%R. split; [apply (isR_ofZ 100)|lra].
Qed.

Lemma bumpCloses_valid : validCloses (map close bumpCloses).
Proof.
  apply Forall_forall. intros a Ha. apply in_map_iff in Ha. destruct Ha as [c [<- Hc]].
  apply in_map_iff in Hc. destruct Hc as [k [<- _]]. cbn [close].
  eexists. split; [apply isR_ofZ|]. apply IZR_lt. lia.
Qed.

(** The fit of the thirty closes that rise at the end is regular. *)
Lemma bumpCloses_regular :
  exists beta,
    linearRidge (trainingFeatures (map close bumpCloses) (pctReturns (map close bumpCloses)))
                (trainingTargets (map close bumpCloses) (pctReturns (map close bumpCloses)))
                (lit 1 (-2)) = Ok (Some beta).
Proof.
  assert (S : match linearRidge
                      (trainingFeatures (map close bumpCloses) (pctReturns (map close bumpCloses)))
                      (trainingTargets (map close bumpCloses) (pctReturns (map close bumpCloses)))
                      (lit 1 (-2)) with
              | Ok (Some _) => true
              | _ => false
              end = true) by (vm_compute; reflexivity).
  destruct (linearRidge _ _ _) as [[beta|]|]; try discriminate S.
  exists beta. reflexivity.
Qed.

Section ExactArithmetic.
Context {F : Type} {RF : RealField F} {RL : RealFieldLaws F}.
Local Open Scope R_scope.

(** C3.  Over exact arithmetic, for a design matrix of finite values with 8
    columns and at least 8 rows, finite targets and a finite [lambda],
    positive or not: when [linearRidge] returns coefficients, there are 8 of
    them, all finite, and they solve the normal equations
    [sum_j (sum_k x_ki x_kj + lambda [i = j]) beta_j = sum_k x_ki y_k] for
    every row [i].  The matrices of the code are what the equations name:
    the cells of [XtX] are the sums [sum_k x_ki x_kj], [addRidge] adds
    [lambda] on the diagonal and nowhere else, the matrix [XtXinv] of
    [invertMatrix] is the inverse of that matrix on both sides, and [beta]
    is [XtXinv] times [Xt y]. *)
Theorem ridge_normal_equations (X : matrix (xnum F)) (y beta : list (xnum F))
    (lambda : xnum F) :
  let n := length X in
  let x := fun k i => val (cell X k i) in
  let v := fun k => val (num_nth y k) in
  let b := fun j => val (num_nth beta j) in
  let m := fun i j => bigsum n (fun k => x k i * x k j) + (if (i =? j)%nat then val lambda else 0) in
  (8 <= n)%nat ->
  Forall (fun r => length r = 8%nat /\ Forall finite r) X ->
  length y = n -> Forall finite y -> finite lambda ->
  linearRidge X y lambda = Ok (Some beta) ->
  length beta = 8%nat /\ Forall finite beta /\
  (forall i, (i < 8)%nat -> bigsum 8 (fun j => m i j * b j) = bigsum n (fun k => x k i * v k)) /\
  exists Xt XtX XtXinv Xty,
    transpose X = Ok Xt /\
    matMul Xt X = Ok XtX /\
    invertMatrix (addRidge lambda XtX) = Some XtXinv /\
    matMul Xt (map (fun a => [a]) y) = Ok Xty /\
    matMul XtXinv Xty = Ok (map (fun a => [a]) beta) /\
    (forall i j, (i < 8)%nat -> (j < 8)%nat ->
       isR (cell XtX i j) (bigsum n (fun k => x k i * x k j)) /\
       isR (cell (addRidge lambda XtX) i j) (m i j) /\
       finite (cell XtXinv i j) /\
       bigsum 8 (fun k => val (cell XtXinv i k) * m k j) = delta i j /\
       bigsum 8 (fun k => m i k * val (cell XtXinv k j)) = delta i j) /\
    (forall i, (i < 8)%nat ->
       isR (cell Xty i 0) (bigsum n (fun k => x k i * v k)) /\
       b i = bigsum 8 (fun j => val (cell XtXinv i j) * val (cell Xty j 0))) /\
    matMul XtXinv (addRidge lambda XtX) = Ok (identity 8) /\
    matMul (addRidge lambda XtX) XtXinv = Ok (identity 8) /\
    matMul (addRidge lambda XtX) (map (fun a => [a]) beta) = Ok Xty.
Proof.
  intros n x v b m L8 HX Ly Hy Hl E.
  pose proof (list_vec Hy) as Vy. rewrite Ly in Vy.
  destruct (linearRidge_solves L8 (rows_mat HX) Vy (finite_isR Hl) E)
    as [Xt [XtX [XtXinv [Xty [binv [b' [ET [EM [HXtX [HM [EI [HI [LI [RI [EY [HXty
       [EB [Vb [Bb [NE [M1 [M2 M3]]]]]]]]]]]]]]]]]]]]]].
  assert (Nm : forall i j, normalMatrix n x (val lambda) i j = m i j).
  { intros i j. unfold normalMatrix, m, delta. destruct (i =? j)%nat; lra. }
  assert (Eb : forall i, (i < 8)%nat -> b' i = b i).
  { intros i Li. symmetry. apply isR_val. apply Vb, Li. }
  assert (Ei : forall i j, (i < 8)%nat -> (j < 8)%nat -> binv i j = val (cell XtXinv i j)).
  { intros i j Li Lj. symmetry. apply isR_val. apply HI; assumption. }
  split; [apply Vb|]. split; [apply (vec_Forall Vb)|]. split.
  { intros i Li. etransitivity; [|exact (NE i Li)]. apply bigsum_ext. intros j Lj.
    f_equal; [symmetry; apply Nm|symmetry; apply Eb, Lj]. }
  exists Xt, XtX, XtXinv, Xty.
  split; [exact ET|]. split; [exact EM|]. split; [exact EI|]. split; [exact EY|].
  split; [exact EB|]. split.
  { intros i j Li Lj. split; [apply HXtX; assumption|].
    split; [rewrite <- Nm; apply HM; assumption|].
    split; [apply (isR_finite (r := binv i j)), HI; assumption|]. split.
    - etransitivity; [|exact (LI i j Li Lj)]. apply bigsum_ext. intros k Lk.
      f_equal; [symmetry; apply Ei; assumption|symmetry; apply Nm].
    - etransitivity; [|exact (RI i j Li Lj)]. apply bigsum_ext. intros k Lk.
      f_equal; [symmetry; apply Nm|symmetry; apply Ei; assumption]. }
  split.
  { intros i Li. split; [apply HXty; [exact Li|lia]|].
    rewrite <- (Eb i Li). etransitivity; [exact (Bb i Li)|]. apply bigsum_ext. intros j Lj.
    f_equal; [apply Ei; assumption|]. symmetry. apply isR_val. apply HXty; [exact Lj|lia]. }
  split; [exact M1|]. split; [exact M2|exact M3].
Qed.

(** Over exact arithmetic, for a history of at least 30 candles whose
    closes are finite and strictly positive: every feature row the engine
    builds (the rows of the full sample, the training rows and the split
    rows of the backtest, the rows of the rollout) has 8 cells, all finite;
    the coefficients of a regular fit are finite; and the forecast that
    comes back has a finite next price, finite projected prices and a finite
    confidence. *)
Lemma values_finite_exact (candles : list (Candle (xnum F))) :
  let closes := map close candles in
  let returns := pctReturns closes in
  (30 <= length candles)%nat -> validCloses closes ->
  (forall f, In f (trainingFeatures closes returns) -> length f = 8%nat /\ Forall finite f) /\
  (forall split i, In split (splits (length closes)) -> (20 <= i < split)%nat ->
      length (backtestFeatureAt closes i) = 8%nat /\
      Forall finite (backtestFeatureAt closes i)) /\
  (forall split, In split (splits (length closes)) ->
      length (backtestNextFeature closes split) = 8%nat /\
      Forall finite (backtestNextFeature closes split)) /\
  (forall beta,
      linearRidge (trainingFeatures closes returns) (trainingTargets closes returns)
                  (lit 1 (-2)) = Ok (Some beta) ->
      length beta = 8%nat /\ Forall finite beta /\
      forall k,
        let s := Nat.iter k (rolloutStep beta)
                   {| lastCloses := closes; lastReturns := returns; projection := [] |} in
        length (rolloutFeature (lastCloses s) (lastReturns s)) = 8%nat /\
        Forall finite (rolloutFeature (lastCloses s) (lastReturns s))) /\
  exists r c,
    improvedPredict candles = Ok r /\ confidence r = Some c /\
    finite (nextPrice r) /\ Forall finite (projectionLine r) /\ finite c.
Proof.
  intros closes returns L V.
  assert (Lc : (30 <= length closes)%nat) by (unfold closes; rewrite length_map; exact L).
  destruct (training_rows_finite V Lc) as [HX [Hy [Ly LX]]].
  fold returns in HX, Hy, Ly, LX.
  assert (Fit : forall beta,
             linearRidge (trainingFeatures closes returns) (trainingTargets closes returns)
                         (lit 1 (-2)) = Ok (Some beta) ->
             length beta = 8%nat /\ Forall finite beta).
  { intros beta E. destruct (fit_finite HX Hy Ly LX) as [E'|[beta' [E' R]]];
      rewrite E' in E; [discriminate E|]. injection E as <-. exact R. }
  split; [|split; [|split; [|split]]].
  - intros f Hf. rewrite Forall_forall in HX. apply HX, Hf.
  - intros split i Hs Hi. apply splits_range in Hs. split; [reflexivity|].
    apply fin_backtestFeatureAt; [exact V|lia|lia].
  - intros split Hs. apply splits_range in Hs. split; [reflexivity|].
    apply fin_backtestNextFeature; [exact V|lia|lia].
  - intros beta E. destruct (Fit beta E) as [Lb Fb]. split; [exact Lb|]. split; [exact Fb|].
    intros k s. split; [reflexivity|].
    apply (rolloutStep_good Fb Lb). apply (rollout_iter_good k Fb Lb), start_good; assumption.
  - destruct (fit_finite HX Hy Ly LX) as [E|[beta [E [Lb Fb]]]].
    + rewrite (improvedPredict_singular candles L E).
      destruct (predict_finite V) as [Fn Fp]; [lia|].
      eexists. eexists. split; [reflexivity|]. split; [reflexivity|].
      split; [exact Fn|]. split; [exact Fp|]. apply (fin_lit_neg 1 1).
    + destruct (improvedPredict_regression candles L E) as [errors [EB EP]].
      destruct (backtestErrors_valid V) as [errors' [EB' He]].
      fold closes in EB. rewrite EB in EB'. injection EB' as <-.
      rewrite EP. fold closes. fold returns.
      pose proof (rollout_iter_good 5 Fb Lb (start_good V Lc)) as [_ [_ [Fp _]]].
      fold returns in Fp. rewrite <- rollout_iter in Fp.
      assert (Lp : length (projection (rollout closes returns beta)) = 5%nat).
      { rewrite rollout_iter, projection_iter, length_app, length_map, length_seq. reflexivity. }
      destruct (backtestConfidence_spec He) as [_ [bt [Hbt _]]].
      assert (Fr2 : finite (rSquared (trainingFeatures closes returns)
                                     (trainingTargets closes returns) beta))
        by (apply fin_rSquared; try assumption; lia).
      destruct (finalConfidence_range _ _ (isR_finite Hbt) Fr2) as [c [Hc _]].
      eexists. eexists. split; [reflexivity|]. cbn [confidence nextPrice projectionLine].
      split; [reflexivity|].
      split; [apply (fin_num_at Fp); unfold lastIndex; lia|].
      split; [exact Fp|apply (isR_finite Hc)].
Qed.


End ExactArithmetic.

(** ** The forecast in binary64 *)






(** ** The confidence and the finite values, in every arithmetic *)


(** C7.  Every feature row the engine builds has 8 cells, whatever the
    numbers are: the rows of the full sample, the training rows and the
    split rows of the backtest, the rows of the rollout.  Over exact
    arithmetic, for a history of at least 30 candles whose closes are finite
    and strictly positive, all these cells are finite, the coefficients of a
    regular fit are finite, and the forecast that comes back has a finite
    next price, finite projected prices and a finite confidence. *)
Theorem engine_values_finite :
  (forall (num : Type) (N : JSNumber num) (closes returns : list num) (i : nat),
      length (featureAt closes returns i) = 8%nat /\
      length (backtestFeatureAt closes i) = 8%nat /\
      length (backtestNextFeature closes i) = 8%nat /\
      length (rolloutFeature closes returns) = 8%nat /\
      Forall (fun f => length f = 8%nat) (trainingFeatures closes returns)) /\
  (forall (F : Type) (RF : RealField F) (RL : RealFieldLaws F)
          (candles : list (Candle (xnum F))),
      let closes := map close candles in
      let returns := pctReturns closes in
      (30 <= length candles)%nat -> validCloses closes ->
      (forall f, In f (trainingFeatures closes returns) -> length f = 8%nat /\ Forall finite f) /\
      (forall split i, In split (splits (length closes)) -> (20 <= i < split)%nat ->
          length (backtestFeatureAt closes i) = 8%nat /\
          Forall finite (backtestFeatureAt closes i)) /\
      (forall split, In split (splits (length closes)) ->
          length (backtestNextFeature closes split) = 8%nat /\
          Forall finite (backtestNextFeature closes split)) /\
      (forall beta,
          linearRidge (trainingFeatures closes returns) (trainingTargets closes returns)
                      (lit 1 (-2)) = Ok (Some beta) ->
          length beta = 8%nat /\ Forall finite beta /\
          forall k,
            let s := Nat.iter k (rolloutStep beta)
                       {| lastCloses := closes; lastReturns := returns; projection := [] |} in
            length (rolloutFeature (lastCloses s) (lastReturns s)) = 8%nat /\
            Forall finite (rolloutFeature (lastCloses s) (lastReturns s))) /\
      exists r c,
        improvedPredict candles = Ok r /\ confidence r = Some c /\
        finite (nextPrice r) /\ Forall finite (projectionLine r) /\ finite c).
Proof.
  split.
  - intros num N closes returns i. repeat split.
    apply Forall_forall. intros f Hf. apply in_map_iff in Hf.
    destruct Hf as [k [<- _]]. reflexivity.
  - intros F RF RL candles closes returns L V.
    apply (values_finite_exact candles L V).
Qed.



(** C7 over the rationals, on the thirty closes that rise at the end. *)
Lemma engine_values_finite_witness :
  exists r c,
    improvedPredict bumpCloses = Ok r /\ confidence r = Some c /\
    finite (nextPrice r) /\ Forall finite (projectionLine r) /\ finite c.
Proof.
  apply (proj2 engine_values_finite _ _ _ bumpCloses).
  - simpl; lia.
  - exact bumpCloses_valid.
Defined.

(** C7 in binary64, on thirty closes of [2^1023]: all are finite and
    positive; the first training row has 8 cells, of which the two moving
    averages and the momentum are infinite; the coefficients of the fit are
    [NaN], and so are the next price and the five projected prices. *)
Lemma features_overflow_binary64 :
  let closes := map close largeCloses in
  let returns := pctReturns closes in
  (30 <= length largeCloses)%nat /\
  forallb (fun c => Binary64.isFinite c && PrimFloat.ltb 0 c) closes = true /\
  exists f beta r,
    nth_error (trainingFeatures closes returns) 0 = Some f /\
    f = [1; 0; infinity; infinity; 0x1p1023; 0x1p1023; 0; neg_infinity]%float /\
    length f = 8%nat /\
    map Binary64.isFinite f = [true; true; false; false; true; true; true; false] /\
    linearRidge (trainingFeatures closes returns) (trainingTargets closes returns)
                (lit 1 (-2)) = Ok (Some beta) /\
    forallb Binary64.isNaN beta = true /\
    improvedPredict largeCloses = Ok r /\
    Binary64.isNaN (nextPrice r) = true /\
    forallb Binary64.isNaN (projectionLine r) = true /\
    length (projectionLine r) = 5%nat.
Proof.
  intros closes returns. split; [simpl; lia|]. split; [vm_compute; reflexivity|].
  do 3 eexists. split; [vm_compute; reflexivity|].
  split; [reflexivity|]. split; [reflexivity|]. split; [vm_compute; reflexivity|].
  split; [vm_compute; reflexivity|]. split; [reflexivity|].
  split; [vm_compute; reflexivity|]. split; [reflexivity|]. split; reflexivity.
Qed.

(** Over the rationals, on the nine training rows of thirty closes that
    rise at the end. *)
Lemma ridge_normal_equations_witness :
  let closes := map close bumpCloses in
  let X := trainingFeatures closes (pctReturns closes) in
  let y := trainingTargets closes (pctReturns closes) in
  let lambda : xnum Qcanon.Qc := lit 1 (-2) in
  exists beta,
    linearRidge X y lambda = Ok (Some beta) /\
    length X = 9%nat /\ length beta = 8%nat /\ Forall finite beta /\
    forall i, (i < 8)%nat ->
      (bigsum 8 (fun j =>
                   (bigsum 9 (fun k => val (cell X k i) * val (cell X k j))
                    + (if (i =? j)%nat then val lambda else 0))
                   * val (num_nth beta j))
       = bigsum 9 (fun k => val (cell X k i) * val (num_nth y k)))%R.
Proof.
  intros closes X y lambda.
  destruct bumpCloses_regular as [beta E].
  destruct (training_rows_finite bumpCloses_valid) as [HX [Hy [Ly _]]]; [simpl; lia|].
  destruct (@ridge_normal_equations _ _ _ X y beta lambda) as [Lb [Fb [NE _]]].
  - unfold X, trainingFeatures. rewrite length_map, cutoffs_length. simpl; lia.
  - exact HX.
  - exact Ly.
  - exact Hy.
  - exact I.
  - exact E.
  - exists beta. split; [exact E|]. split; [reflexivity|].
    split; [exact Lb|]. split; [exact Fb|exact NE].
Defined.

(** C3 in binary64.  On the nine training rows of the thirty closes that
    alternate between 100000 and 100001, with [lambda = 0.01]: the design
    matrix has 8 columns of finite values, [linearRidge] returns eight
    finite coefficients, and they miss the normal equations by more than a
    millionth of the right-hand side in every row: [residual] is the row of
    [(XtX + lambda I) beta - Xt y] and [target] the row of [Xt y], both
    computed without rounding from the binary64 values.  In the third row
    the residual is beyond a thousandth of the right-hand side, and beyond a
    millionth of every row of the right-hand side. *)
Lemma ridge_residual_binary64 :
  let closes := map close sawCloses in
  let X := trainingFeatures closes (pctReturns closes) in
  let y := trainingTargets closes (pctReturns closes) in
  let lambda : float := lit 1 (-2) in
  (8 <= length X)%nat /\
  forallb (fun r => (length r =? 8)%nat && forallb Binary64.isFinite r) X = true /\
  length y = length X /\ forallb Binary64.isFinite y = true /\
  Binary64.isFinite lambda = true /\ ltb zero lambda = true /\
  exists beta,
    linearRidge X y lambda = Ok (Some beta) /\
    length beta = 8%nat /\ forallb Binary64.isFinite beta = true /\
    forallb (fun i => Exact.exceeds Exact.millionth
                        (Exact.residual X lambda y beta i) (Exact.target X y i))
            (seq 0 8) = true /\
    Exact.exceeds Exact.thousandth
      (Exact.residual X lambda y beta 2) (Exact.target X y 2) = true /\
    forallb (fun j => Exact.exceeds Exact.millionth
                        (Exact.residual X lambda y beta 2) (Exact.target X y j))
            (seq 0 8) = true.
Proof.
  intros closes X y lambda.
  split; [vm_compute; lia|]. split; [vm_compute; reflexivity|].
  split; [reflexivity|]. split; [vm_compute; reflexivity|].
  split; [vm_compute; reflexivity|]. split; [vm_compute; reflexivity|].
  eexists. split; [vm_compute; reflexivity|].
  split; [reflexivity|]. split; [vm_compute; reflexivity|].
  split; [vm_compute; reflexivity|]. split; vm_compute; reflexivity.
Qed.

(** * Further properties of the code *)

(** ** The indicators *)


Section Indicators.
Context {F : Type} {RF : RealField F} {RL : RealFieldLaws F}.
Local Open Scope R_scope.

Lemma within_finite lo hi (a : xnum F) : within lo hi a -> finite a.
Proof. intros [r [Hr _]]. apply (isR_finite Hr). Qed.

Lemma within_Forall_finite lo hi (l : list (xnum F)) : Forall (within lo hi) l -> Forall finite l.
Proof. apply Forall_impl. intros a. apply within_finite. Qed.

Lemma within_sum lo hi (l : list (xnum F)) acc r :
  Forall (within lo hi) l -> isR acc r ->
  exists s, isR (fold_left add l acc) s /\
            r + INR (length l) * lo <= s <= r + INR (length l) * hi.
Proof.
  intros Hl. revert acc r. induction Hl as [|x l [v [Hv Bv]] _ IH]; intros acc r Hacc.
  - exists r. split; [exact Hacc|]. simpl. lra.
  - destruct (IH _ _ (isR_add Hacc Hv)) as [s [Hs Bs]].
    exists s. split; [exact Hs|].
    change (length (x :: l)) with (S (length l)). rewrite S_INR. lra.
Qed.

Lemma within_mean lo hi (l : list (xnum F)) :
  Forall (within lo hi) l -> (0 < length l)%nat ->
  within lo hi (div (sum l) (ofNat (length l))).
Proof.
  intros Hl L. destruct (within_sum Hl isR_zero) as [s [Hs Bs]].
  assert (P : 0 < INR (length l)) by (apply lt_0_INR; exact L).
  exists (s / INR (length l)). split.
  - apply (isR_div Hs (isR_ofNat _)). lra.
  - split.
    + apply Rmult_le_reg_r with (INR (length l)); [exact P|].
      unfold Rdiv. rewrite Rmult_assoc, Rinv_l by lra. lra.
    + apply Rmult_le_reg_r with (INR (length l)); [exact P|].
      unfold Rdiv. rewrite Rmult_assoc, Rinv_l by lra. lra.
Qed.





Lemma sq_sum_bound (l : list (xnum F)) mean m d acc r :
  isR mean m -> 0 <= d ->
  Forall (fun b => exists v, isR b v /\ - d <= v - m <= d) l -> isR acc r ->
  exists s, isR (fold_left (fun a b => add a (mul (sub b mean) (sub b mean))) l acc) s /\
            r <= s <= r + INR (length l) * (d * d).
Proof.
  intros Hm Hd Hl. revert acc r. induction Hl as [|x l [v [Hv Bv]] _ IH]; intros acc r Hacc.
  - exists r. split; [exact Hacc|]. simpl. lra.
  - pose proof (isR_sub Hv Hm) as D.
    destruct (IH _ _ (isR_add Hacc (isR_mul D D))) as [s [Hs Bs]].
    exists s. split; [exact Hs|].
    change (length (x :: l)) with (S (length l)). rewrite S_INR.
    assert (Q : 0 <= (v - m) * (v - m) <= d * d).
    { pose proof (Rle_0_sqr (v - m)) as Q0. unfold Rsqr in Q0.
      split; [exact Q0|].
      destruct (Rle_dec 0 (v - m)); nra. }
    lra.
Qed.

Lemma stddev_within lo hi (arr : list (xnum F)) :
  Forall (within lo hi) arr -> (0 < length arr)%nat ->
  within 0 (hi - lo) (stddev arr).
Proof.
  intros Ha L. unfold stddev. destruct arr as [|a0 rest] eqn:E; [simpl in L; lia|].
  rewrite <- E in *. clear E.
  destruct (within_mean Ha L) as [m [Hm Bm]].
  assert (P : 0 < INR (length arr)) by (apply lt_0_INR; exact L).
  assert (Hd : 0 <= hi - lo) by lra.
  destruct (@sq_sum_bound arr _ m (hi - lo) zero 0 Hm Hd) as [s [Hs Bs]].
  { eapply Forall_impl; [|exact Ha]. intros b [v [Hv Bv]]. exists v. split; [exact Hv|].
    lra. }
  { apply isR_zero. }
  assert (V : isR (div (reduce (fun a b =>
                     add a (mul (sub b (div (sum arr) (ofNat (length arr))))
                                (sub b (div (sum arr) (ofNat (length arr))))))
                   arr zero) (ofNat (length arr))) (s / INR (length arr))).
  { apply (isR_div Hs (isR_ofNat _)). lra. }
  assert (Bv : 0 <= s / INR (length arr) <= (hi - lo) * (hi - lo)).
  { split.
    - apply Rmult_le_pos; [lra|]. left. apply Rinv_0_lt_compat, P.
    - apply Rmult_le_reg_r with (INR (length arr)); [exact P|].
      unfold Rdiv. rewrite Rmult_assoc, Rinv_l by lra. lra. }
  destruct (isR_sqrt V (proj1 Bv)) as [t [Ht [Pt Qt]]].
  exists t. split; [exact Ht|]. split; [exact Pt|]. nra.
Qed.


(** X2.  Over exact arithmetic, on values between [lo] and [hi], [stddev]
    is a finite value between 0 and [hi - lo]; it is 0 when the values are
    all the same. *)
Theorem stddev_within_range lo hi (arr : list (xnum F)) :
  Forall (within lo hi) arr -> (0 < length arr)%nat ->
  within 0 (hi - lo) (stddev arr) /\ (lo = hi -> stddev arr = zero).
Proof.
  intros Ha L. pose proof (stddev_within Ha L) as W. split; [exact W|].
  intros E. destruct W as [r [Hr Br]]. apply (isR_inj Hr).
  replace r with 0 by lra. apply isR_zero.
Qed.
End Indicators.


(** ** The matrix helpers *)


Lemma map_seq_nth (A : Type) (d : A) (l : list A) :
  map (fun j => nth j l d) (seq 0 (length l)) = l.
Proof.
  apply (nth_ext _ _ d d).
  - rewrite length_map, length_seq. reflexivity.
  - intros n Ln. rewrite length_map, length_seq in Ln.
    rewrite (nth_indep _ d (nth 0 l d)) by (rewrite length_map, length_seq; exact Ln).
    rewrite (map_nth (fun j => nth j l d)), seq_nth by exact Ln. reflexivity.
Qed.

Section Transposition.
Context {num : Type} `{JSNumber num}.

(** X3.  A matrix that has a row, whose rows all have the same [p >= 1]
    cells, is transposed into [p] rows of as many cells as it has rows, and
    transposing again gives it back. *)
Theorem transpose_involutive (m : matrix num) (p : nat) :
  m <> [] -> (0 < p)%nat -> Forall (fun r => length r = p) m ->
  exists t, transpose m = Ok t /\ length t = p /\
            Forall (fun r => length r = length m) t /\
            transpose t = Ok m.
Proof.
  intros Hm Hp Hr. destruct m as [|x0 X']; [contradiction|].
  assert (L0 : length x0 = p) by (inversion Hr; assumption).
  rewrite transpose_ok, L0. eexists. split; [reflexivity|].
  split; [rewrite length_map, length_seq; reflexivity|].
  split.
  { apply Forall_forall. intros r Hin. apply in_map_iff in Hin.
    destruct Hin as [i [<- _]]. apply length_map. }
  destruct p as [|p]; [lia|].
  change (seq 0 (S p)) with (0%nat :: seq 1 p). rewrite map_cons, transpose_ok. f_equal.
  rewrite length_map.
  transitivity (map (fun j => nth j (x0 :: X') []) (seq 0 (length (x0 :: X'))));
    [|apply map_seq_nth].
  apply map_ext_in. intros j Hj. apply in_seq in Hj.
  change (map (fun r => num_nth r 0) (x0 :: X') :: map (fun i => map (fun r => num_nth r i) (x0 :: X')) (seq 1 p))
    with (map (fun i => map (fun r => num_nth r i) (x0 :: X')) (seq 0 (S p))).
  rewrite map_map.
  assert (Lj : length (nth j (x0 :: X') []) = S p).
  { rewrite Forall_forall in Hr. apply Hr, nth_In. lia. }
  transitivity (map (fun i => nth i (nth j (x0 :: X') []) NaN) (seq 0 (S p)));
    [|rewrite <- Lj; apply map_seq_nth].
  apply map_ext_in. intros i Hi.
  rewrite (num_nth_map (fun r => num_nth r i) (x0 :: X') []) by lia.
  apply num_nth_nth.
Qed.
End Transposition.

Section MatrixEdges.
Context {num : Type} `{JSNumber num}.
Local Open Scope js_scope.

(** X4.  [linearRidge] raises exactly when the design matrix has no row, or
    its first row has no cell, or there is no target although the matrix
    [XtX + lambda I] was inverted. *)
Theorem linearRidge_raises (X : matrix num) (y : list num) (lambda : num) :
  linearRidge X y lambda = TypeError <->
  X = [] \/ (exists X', X = [] :: X') \/
  (y = [] /\ exists Xt XtX, transpose X = Ok Xt /\ matMul Xt X = Ok XtX /\
                            invertMatrix (addRidge lambda XtX) <> None).
Proof.
  destruct X as [|x0 X'].
  { split; [intros _; left; reflexivity|reflexivity]. }
  unfold linearRidge. rewrite transpose_ok. cbn [bind nth].
  set (Xt := map _ (seq 0 (length x0))).
  assert (LXt : length Xt = length x0) by (unfold Xt; rewrite length_map, length_seq; reflexivity).
  destruct (matMul_ok Xt (B := x0 :: X')) as [XtX [E LX]]; [discriminate|].
  rewrite E. cbn [bind].
  destruct (invertMatrix (addRidge lambda XtX)) as [inv|] eqn:EI.
  - destruct y as [|y0 y'].
    + cbn [map matMul bind]. split; [intros _|reflexivity].
      right; right. split; [reflexivity|]. exists Xt, XtX. repeat split; try assumption.
      rewrite EI. discriminate.
    + destruct (matMul_ok Xt (B := map (fun v => [v]) (y0 :: y'))) as [Xty [E1 L1]]; [discriminate|].
      rewrite E1. cbn [bind]. destruct Xty as [|t0 Xty'].
      * cbn [matMul bind]. split; [intros _|reflexivity].
        right; left. exists X'. cbn [length] in L1.
        destruct x0; [reflexivity|]. cbn [length] in LXt. lia.
      * cbn [matMul bind]. split; [discriminate|].
        intros [D|[[X0 D]|[D _]]]; try discriminate.
        injection D as -> _. cbn [length] in LXt, L1. lia.
  - split; [discriminate|].
    intros [D|[[X0 D]|[_ [Xt' [XtX' [ET [EM N]]]]]]]; try discriminate.
    + injection D as -> _. exfalso. unfold Xt in E. simpl in E. injection E as <-.
      simpl in EI. discriminate.
    + exfalso. injection ET as <-. rewrite E in EM. injection EM as <-. apply N, EI.
Qed.
End MatrixEdges.

Section LeftInverse.
Context {F : Type} {RF : RealField F} {RL : RealFieldLaws F}.
Local Open Scope R_scope.

(** X5.  Over exact arithmetic, for a square matrix of finite values of any
    size: what [invertMatrix] returns is a square matrix of finite values of
    the same size, and its product with the matrix is the identity. *)
Theorem invertMatrix_left_inverse (M Minv : matrix (xnum F)) :
  (0 < length M)%nat ->
  Forall (fun r => length r = length M /\ Forall finite r) M ->
  invertMatrix M = Some Minv ->
  length Minv = length M /\
  Forall (fun r => length r = length M /\ Forall finite r) Minv /\
  matMul Minv M = Ok (identity (length M)).
Proof.
  intros Ln HM E.
  pose proof (rows_mat HM) as Hm.
  destruct (invertMatrix_mat Hm E) as [b [Hb Q]].
  destruct (matMul_mat Hb Hm Ln) as [C [EC HC]].
  assert (C = identity (length M)) as ->.
  { apply (mat_unique HC). apply (mat_ext (a := delta)); [|apply identity_mat].
    intros i j Li Lj. symmetry. apply Q; assumption. }
  split; [apply Hb|]. split; [|exact EC].
  destruct Hb as [Lb [Lr Cb]].
  apply Forall_forall. intros r Hr.
  destruct (In_nth _ _ [] Hr) as [i [Li <-]]. rewrite Lb in Li.
  split; [apply (Lr i Li)|].
  apply Forall_forall. intros a Ha.
  destruct (In_nth _ _ NaN Ha) as [j [Lj <-]].
  change (nth i Minv []) with (row Minv i) in *. rewrite (Lr i Li) in Lj.
  rewrite <- num_nth_nth. apply (isR_finite (Cb i j Li Lj)).
Qed.
End LeftInverse.

Section TinyColumn.
Context {num : Type} `{JSNumber num}.

Lemma pivot_steps_none (n : nat) (l : list nat) :
  fold_left (fun s i => match s with Some AI => pivotStep n AI i | None => None end) l
            (@None (matrix num * matrix num)) = None.
Proof. induction l as [|i l IH]; [reflexivity|exact IH]. Qed.

(** X22.  [invertMatrix] compares the pivot with [1e-12] as it is: a matrix
    whose first column has only cells below [1e-12] in absolute value is
    reported to have no inverse, whatever its other cells are. *)
Theorem invertMatrix_tiny_column (m : matrix num) :
  m <> [] ->
  (forall r, (r < length m)%nat -> ltb (Math_abs (cell m r 0)) (lit 1 (-12)) = true) ->
  invertMatrix m = None.
Proof.
  intros Hm Hc. unfold invertMatrix. rewrite map_id.
  destruct (length m) as [|n] eqn:L; [destruct m; [contradiction|discriminate]|].
  change (seq 0 (S n)) with (0%nat :: seq 1 n). cbn [fold_left].
  assert (P : pivotStep (S n) (m, identity (S n)) 0 = None).
  { unfold pivotStep.
    pose proof (@findMaxRow_range _ _ (S n) 0 m ltac:(lia)) as R.
    set (mx := findMaxRow (S n) 0 m) in *.
    assert (Q : cell (swap [] 0 mx m) 0 0 = cell m mx 0).
    { unfold cell. rewrite row_swap by lia.
      destruct (0 =? mx)%nat eqn:Z; [apply Nat.eqb_eq in Z; rewrite <- Z|]; reflexivity. }
    rewrite Q, Hc by lia. reflexivity. }
  match goal with
  | |- context [fold_left ?f ?l ?x] =>
      replace x with (@None (matrix num * matrix num)) by (symmetry; exact P)
  end.
  rewrite pivot_steps_none. reflexivity.
Qed.
End TinyColumn.

Section ZeroColumn.
Context {F : Type} {RF : RealField F} {RL : RealFieldLaws F}.
Local Open Scope R_scope.

Lemma bigsum_all_zero m f : (forall k, (k < m)%nat -> f k = 0) -> bigsum m f = 0.
Proof.
  intros Z. rewrite (bigsum_ext _ (fun _ => 0)) by exact Z. apply bigsum_zero.
Qed.

(** A column of zeros in the design matrix gets the coefficient zero: on the
    reals that the cells stand for. *)
Lemma zero_column_reals n p X x y v lambda l (beta : list (xnum F)) c :
  mat n p X x -> vec n y v -> (0 < n)%nat -> (c < p)%nat -> isR lambda l -> 0 < l ->
  (forall k, (k < n)%nat -> x k c = 0) ->
  linearRidge X y lambda = Ok (Some beta) ->
  length beta = p /\ isR (num_nth beta c) 0.
Proof.
  intros Hm Hv Ln Lc Hl Pl Z E.
  destruct (linearRidge_steps Hm Hv Ln ltac:(lia) Hl)
    as [Xt [XtX [Xty [ET [HXt [EM [HM [EY [HXty [N S]]]]]]]]]].
  destruct (invertMatrix (addRidge lambda XtX)) as [XtXinv|] eqn:EI;
    [|rewrite (N eq_refl) in E; discriminate E].
  destruct (S XtXinv eq_refl) as [binv [betaMat [HI [LI [EB [E' V]]]]]].
  rewrite E' in E. injection E as <-.
  split; [apply V|].
  assert (RI : forall i j, (i < p)%nat -> (j < p)%nat ->
                           bigsum p (fun k => normalMatrix n x l i k * binv k j) = delta i j).
  { apply left_inverse_symmetric; [|exact LI].
    intros i j _ _. apply normalMatrix_sym. }
  assert (Nc : forall k, (k < p)%nat -> normalMatrix n x l c k = l * delta c k).
  { intros k Lk. unfold normalMatrix.
    rewrite bigsum_all_zero; [lra|]. intros i Li. rewrite (Z i Li). lra. }
  assert (Bc : forall j, (j < p)%nat -> binv c j = delta c j / l).
  { intros j Lj. specialize (RI c j Lc Lj).
    rewrite (bigsum_ext _ (fun k => delta c k * (l * binv k j))) in RI.
    2:{ intros k Lk. rewrite (Nc k Lk). lra. }
    rewrite (bigsum_delta_l (fun k => l * binv k j) Lc) in RI.
    rewrite <- RI. field. lra. }
  destruct V as [LV CV]. apply (isR_eq (CV c Lc)).
  apply bigsum_all_zero. intros j Lj. rewrite (Bc j Lj).
  unfold delta. destruct (c =? j)%nat eqn:Q.
  - apply Nat.eqb_eq in Q. subst j.
    rewrite (bigsum_all_zero (fun k => x k c * v k)); [lra|].
    intros k Lk. rewrite (Z k Lk). lra.
  - lra.
Qed.

(** X6.  Over exact arithmetic, for a design matrix of finite values with a
    column of zeros and a finite [lambda > 0]: the coefficient that
    [linearRidge] returns for this column is zero. *)
Theorem linearRidge_zero_column (X : matrix (xnum F)) (y beta : list (xnum F))
    (lambda : xnum F) (p c : nat) :
  (0 < length X)%nat -> (c < p)%nat ->
  Forall (fun r => length r = p /\ Forall finite r) X ->
  Forall (fun r => num_nth r c = zero) X ->
  length y = length X -> Forall finite y ->
  finite lambda -> 0 < val lambda ->
  linearRidge X y lambda = Ok (Some beta) ->
  length beta = p /\ num_nth beta c = zero.
Proof.
  intros Ln Lc HX HZ Ly Hy Fl Pl E.
  pose proof (list_vec Hy) as Hv. rewrite Ly in Hv.
  destruct (zero_column_reals (beta := beta) (c := c) (rows_mat HX) Hv Ln Lc (finite_isR Fl) Pl)
    as [L Z]; [|exact E|].
  - intros k Lk. unfold cell, row. rewrite Forall_forall in HZ.
    rewrite (HZ (nth k X [])) by (apply nth_In; exact Lk).
    apply (isR_val isR_zero).
  - split; [exact L|]. apply (isR_inj Z isR_zero).
Qed.
End ZeroColumn.


(** ** The simple projection *)


Section PredictSteps.
Context {num : Type} `{JSNumber num}.
Local Open Scope js_scope.

Lemma predict_steps (values : list num) :
  (2 <= length values)%nat ->
  let last := num_at values (lastIndex values) in
  let g := one + sum (pctReturns values) / ofNat (length values - 1) / hundred in
  projectionLine (predict values)
  = [last * g; last * g * g; last * g * g * g; last * g * g * g * g;
     last * g * g * g * g * g] /\
  nextPrice (predict values) = last * g * g * g * g * g.
Proof.
  intros L. cbv zeta. unfold predict.
  assert ((length values <? 2)%nat = false) as -> by (apply Nat.ltb_ge; exact L).
  rewrite (length_pctReturns _ values).
  assert ((0 <? length values - 1)%nat = true) as -> by (apply Nat.ltb_lt; lia).
  cbn [fold_left seq projectionLine nextPrice slice_from].
  repeat rewrite <- app_assoc. cbn [app skipn].
  unfold lastIndex, num_nth, num_at, at_. cbn. split; reflexivity.
Qed.
End PredictSteps.

Section Compounding.
Context {F : Type} {RF : RealField F} {RL : RealFieldLaws F}.
Local Open Scope R_scope.

Lemma pct_above (a b : xnum F) :
  strictlyPositive a -> strictlyPositive b ->
  exists r, isR (mul (div (sub a b) b) hundred) r /\ -100 < r.
Proof.
  intros [x [Hx Px]] [y [Hy Py]].
  exists ((x - y) / y * 100). split.
  - apply (isR_mul (isR_div (isR_sub Hx Hy) Hy ltac:(lra)) isR_hundred).
  - assert (0 < x / y) by (apply Rdiv_lt_0_compat; assumption).
    replace ((x - y) / y * 100) with (100 * (x / y) - 100) by (field; lra). lra.
Qed.

Lemma pctReturns_above (values : list (xnum F)) :
  validCloses values ->
  Forall (fun a => exists r, isR a r /\ -100 < r) (pctReturns values).
Proof.
  intros V. unfold pctReturns. apply Forall_forall. intros a Ha.
  apply in_map_iff in Ha. destruct Ha as [i [<- Hi]]. apply in_seq in Hi.
  apply pct_above; apply valid_num_nth; try assumption; lia.
Qed.

Lemma sum_above (l : list (xnum F)) acc r :
  Forall (fun a => exists v, isR a v /\ -100 < v) l -> isR acc r ->
  exists s, isR (fold_left add l acc) s /\
            r - 100 * INR (length l) <= s /\ (l <> [] -> r - 100 * INR (length l) < s).
Proof.
  intros Hl. revert acc r. induction Hl as [|x l [v [Hv Bv]] _ IH]; intros acc r Hacc.
  - exists r. split; [exact Hacc|]. simpl. split; [lra|]. intros N. contradiction.
  - destruct (IH _ _ (isR_add Hacc Hv)) as [s [Hs [Bs _]]].
    exists s. split; [exact Hs|].
    change (length (x :: l)) with (S (length l)). rewrite S_INR. split; [lra|]. intros _. lra.
Qed.

(** X7.  Over exact arithmetic, for two or more finite, strictly positive
    values: [predict] projects five prices, the last value compounded one to
    five times by the factor [g = 1 + avg/100], where [avg] is the mean of
    the percent returns; [g] is positive, and so are the five prices.  The
    next price is the fifth. *)
Theorem predict_compounds (values : list (xnum F)) :
  validCloses values -> (2 <= length values)%nat ->
  exists last g,
    isR (num_at values (lastIndex values)) last /\ 0 < last /\ 0 < g /\
    (exists avg, isR (div (sum (pctReturns values)) (ofNat (length values - 1))) avg /\
                 g = 1 + avg / 100) /\
    exists p1 p2 p3 p4 p5,
      projectionLine (predict values) = [p1; p2; p3; p4; p5] /\
      nextPrice (predict values) = p5 /\
      isR p1 (last * g ^ 1) /\ isR p2 (last * g ^ 2) /\ isR p3 (last * g ^ 3) /\
      isR p4 (last * g ^ 4) /\ isR p5 (last * g ^ 5) /\
      Forall strictlyPositive [p1; p2; p3; p4; p5].
Proof.
  intros V L.
  assert (Hlast : strictlyPositive (num_at values (lastIndex values))).
  { unfold lastIndex. replace (Z.of_nat (length values) - 1)%Z with (Z.of_nat (length values - 1)) by lia.
    apply valid_num_nth; [exact V|lia]. }
  destruct Hlast as [last [Hl Pl]].
  pose proof (length_pctReturns _ values) as Lr.
  destruct (sum_above (pctReturns_above V) isR_zero) as [s [Hs [_ Bs]]].
  rewrite Lr in Bs.
  assert (Pn : 0 < INR (length values - 1)) by (apply lt_0_INR; lia).
  assert (Bs' : - 100 * INR (length values - 1) < s).
  { assert (pctReturns values <> []) as N.
    { intros N. rewrite N in Lr. simpl in Lr. lia. }
    specialize (Bs N). lra. }
  set (avg := s / INR (length values - 1)).
  assert (Ha : isR (div (sum (pctReturns values)) (ofNat (length values - 1))) avg).
  { apply (isR_div Hs (isR_ofNat _)). lra. }
  assert (Pa : -100 < avg).
  { unfold avg. apply Rmult_lt_reg_r with (INR (length values - 1)); [exact Pn|].
    unfold Rdiv. rewrite Rmult_assoc, Rinv_l by lra. lra. }
  set (g := 1 + avg / 100).
  assert (Pg : 0 < g) by (unfold g; lra).
  assert (Hg : isR (add one (div (div (sum (pctReturns values)) (ofNat (length values - 1))) hundred)) g).
  { apply (isR_add isR_one (isR_div Ha isR_hundred ltac:(lra))). }
  exists last, g. split; [exact Hl|]. split; [exact Pl|]. split; [exact Pg|].
  split; [exists avg; split; [exact Ha|reflexivity]|].
  destruct (predict_steps values L) as [P N]. rewrite P, N. clear P N.
  set (G := add one (div (div (sum (pctReturns values)) (ofNat (length values - 1))) hundred)) in *.
  set (l0 := num_at values (lastIndex values)) in *.
  pose proof (isR_mul Hl Hg) as H1.
  pose proof (isR_mul H1 Hg) as H2.
  pose proof (isR_mul H2 Hg) as H3.
  pose proof (isR_mul H3 Hg) as H4.
  pose proof (isR_mul H4 Hg) as H5.
  assert (P1 : 0 < last * g) by (apply Rmult_lt_0_compat; assumption).
  assert (P2 : 0 < last * g * g) by (apply Rmult_lt_0_compat; assumption).
  assert (P3 : 0 < last * g * g * g) by (apply Rmult_lt_0_compat; assumption).
  assert (P4 : 0 < last * g * g * g * g) by (apply Rmult_lt_0_compat; assumption).
  assert (P5 : 0 < last * g * g * g * g * g) by (apply Rmult_lt_0_compat; assumption).
  do 5 eexists. split; [reflexivity|]. split; [reflexivity|].
  split; [apply (isR_eq H1); ring|].
  split; [apply (isR_eq H2); ring|].
  split; [apply (isR_eq H3); ring|].
  split; [apply (isR_eq H4); ring|].
  split; [apply (isR_eq H5); ring|].
  constructor; [exists (last * g); split; assumption|].
  constructor; [exists (last * g * g); split; assumption|].
  constructor; [exists (last * g * g * g); split; assumption|].
  constructor; [exists (last * g * g * g * g); split; assumption|].
  constructor; [exists (last * g * g * g * g * g); split; assumption|].
  constructor.
Qed.
End Compounding.

Section Scaling.
Context {F : Type} {RF : RealField F} {RL : RealFieldLaws F}.
Local Open Scope R_scope.

Lemma pct_scaled (k a b : xnum F) :
  strictlyPositive k -> finite a -> strictlyPositive b ->
  mul (div (sub (mul k a) (mul k b)) (mul k b)) hundred
  = mul (div (sub a b) b) hundred.
Proof.
  intros [x [Hk Pk]] Fa [y [Hb Pb]]. pose proof (finite_isR Fa) as Ha.
  assert (N : x * y <> 0) by (apply Rmult_integral_contrapositive_currified; lra).
  assert (Ny : y <> 0) by lra.
  pose proof (isR_mul (isR_div (isR_sub (isR_mul Hk Ha) (isR_mul Hk Hb)) (isR_mul Hk Hb) N)
                      isR_hundred) as L.
  pose proof (isR_mul (isR_div (isR_sub Ha Hb) Hb Ny) isR_hundred) as R.
  apply (isR_inj L). apply (isR_eq R). field. lra.
Qed.

Lemma pctReturns_scaled (values : list (xnum F)) (k : xnum F) :
  validCloses values -> strictlyPositive k ->
  pctReturns (map (mul k) values) = pctReturns values.
Proof.
  intros V Pk. unfold pctReturns. rewrite length_map.
  apply map_ext_in. intros i Hi. apply in_seq in Hi.
  rewrite !(num_nth_map (mul k) values NaN) by lia.
  rewrite <- !num_nth_nth.
  apply pct_scaled; [exact Pk|apply positive_finite|]; apply valid_num_nth; try assumption; lia.
Qed.

(** X8.  Over exact arithmetic, [predict] does not depend on the unit of the
    prices: multiplying finite, strictly positive values by a positive
    factor leaves the percent returns as they are and multiplies the five
    projected prices and the next price by the factor. *)
Theorem predict_scales (values : list (xnum F)) (k : xnum F) :
  validCloses values -> strictlyPositive k -> (2 <= length values)%nat ->
  pctReturns (map (mul k) values) = pctReturns values /\
  projectionLine (predict (map (mul k) values)) = map (mul k) (projectionLine (predict values)) /\
  nextPrice (predict (map (mul k) values)) = mul k (nextPrice (predict values)).
Proof.
  intros V Pk L. pose proof (pctReturns_scaled V Pk) as R.
  split; [exact R|].
  destruct (predict_steps values L) as [P N].
  destruct (predict_steps (map (mul k) values) ltac:(rewrite length_map; exact L)) as [P' N'].
  rewrite P', N', P, N, R, length_map. clear P N P' N'.
  set (g := add one (div (div (sum (pctReturns values)) (ofNat (length values - 1))) hundred)).
  assert (Fg : finite g).
  { apply fin_add; [exact I|]. apply fin_div_hundred, fin_div_ofNat; [|lia].
    apply fin_sum, fin_pctReturns, V. }
  assert (Q : num_at (map (mul k) values) (lastIndex (map (mul k) values))
              = mul k (num_at values (lastIndex values))).
  { unfold lastIndex. rewrite length_map.
    replace (Z.of_nat (length values) - 1)%Z with (Z.of_nat (length values - 1)) by lia.
    change (num_nth (map (mul k) values) (length values - 1)
            = mul k (num_nth values (length values - 1))).
    rewrite (num_nth_map (mul k) values NaN) by lia. rewrite <- num_nth_nth. reflexivity. }
  rewrite Q.
  set (a := num_at values (lastIndex values)).
  assert (Fa : finite a).
  { apply (fin_num_at (valid_finite V)). unfold lastIndex. lia. }
  pose proof (finite_isR Fa) as Ha. pose proof (finite_isR Fg) as Hg.
  destruct Pk as [x [Hk _]].
  assert (S : forall u v r s, isR u r -> isR v s -> r = s -> u = v).
  { intros u v r s Hu Hv E. apply (isR_inj Hu). apply (isR_eq Hv). symmetry. exact E. }
  pose proof (isR_mul Ha Hg) as A1. pose proof (isR_mul A1 Hg) as A2.
  pose proof (isR_mul A2 Hg) as A3. pose proof (isR_mul A3 Hg) as A4.
  pose proof (isR_mul A4 Hg) as A5.
  pose proof (isR_mul (isR_mul Hk Ha) Hg) as B1. pose proof (isR_mul B1 Hg) as B2.
  pose proof (isR_mul B2 Hg) as B3. pose proof (isR_mul B3 Hg) as B4.
  pose proof (isR_mul B4 Hg) as B5.
  assert (E1 := S _ _ _ _ B1 (isR_mul Hk A1) ltac:(ring)).
  assert (E2 := S _ _ _ _ B2 (isR_mul Hk A2) ltac:(ring)).
  assert (E3 := S _ _ _ _ B3 (isR_mul Hk A3) ltac:(ring)).
  assert (E4 := S _ _ _ _ B4 (isR_mul Hk A4) ltac:(ring)).
  assert (E5 := S _ _ _ _ B5 (isR_mul Hk A5) ltac:(ring)).
  cbn [map]. split; [|exact E5].
  rewrite E5, E4, E3, E2, E1. reflexivity.
Qed.
End Scaling.

Section ZeroClose.
Context {F : Type} {RF : RealField F} {RL : RealFieldLaws F}.
Local Open Scope R_scope.

Lemma infOf_not_finite (s : comparison) : ~ finite (infOf (F := F) s).
Proof. destruct s; exact (fun f => f). Qed.

Lemma add_not_finite_l (a b : xnum F) : ~ finite a -> ~ finite (add a b).
Proof. destruct a, b; simpl; tauto. Qed.

Lemma add_not_finite_r (a b : xnum F) : ~ finite b -> ~ finite (add a b).
Proof. destruct a, b; simpl; tauto. Qed.

Lemma mul_not_finite_r (a b : xnum F) : ~ finite b -> ~ finite (mul a b).
Proof.
  destruct a, b; simpl; try tauto; intros _;
    try apply infOf_not_finite.
Qed.

Lemma mul_not_finite_l (a b : xnum F) : ~ finite a -> ~ finite (mul a b).
Proof.
  destruct a, b; simpl; try tauto; intros _;
    try apply infOf_not_finite.
Qed.

Lemma div_not_finite_l (a b : xnum F) : ~ finite a -> finite b -> ~ finite (div a b).
Proof.
  destruct a, b; simpl; try tauto; intros _ _; destruct (fltb x fzero); simpl; tauto.
Qed.

Lemma div_by_zero (a b : xnum F) : finite a -> isR b 0 -> ~ finite (div a b).
Proof.
  intros Fa [y [-> Hy]]. destruct a as [x| | |]; try contradiction.
  simpl. apply fisZero_true in Hy. rewrite Hy. apply infOf_not_finite.
Qed.

Lemma sum_not_finite (l : list (xnum F)) (acc : xnum F) :
  (~ finite acc \/ Exists (fun a => ~ finite a) l) -> ~ finite (fold_left add l acc).
Proof.
  revert acc. induction l as [|x l IH]; intros acc [N|E]; simpl.
  - exact N.
  - inversion E.
  - apply IH. left. apply add_not_finite_l, N.
  - apply IH. inversion E; subst.
    + left. apply add_not_finite_r. assumption.
    + right. assumption.
Qed.

Lemma zero_close_return (values : list (xnum F)) (j : nat) :
  Forall finite values -> (j + 1 < length values)%nat -> isR (num_nth values j) 0 ->
  ~ finite (num_nth (pctReturns values) j) /\
  Exists (fun a => ~ finite a) (pctReturns values).
Proof.
  intros Fv L Z.
  assert (N : ~ finite (num_nth (pctReturns values) j)).
  { rewrite num_nth_pctReturns by exact L.
    apply mul_not_finite_l, div_by_zero; [|exact Z].
    apply fin_sub; apply fin_num_nth; try assumption; lia. }
  split; [exact N|].
  apply Exists_exists. exists (num_nth (pctReturns values) j). split; [|exact N].
  rewrite num_nth_nth. apply nth_In. rewrite length_pctReturns. lia.
Qed.

(** X9.  Over exact arithmetic, a close of zero that is not the last one is
    not intercepted: the percent return computed from it is not finite, the
    five prices and the next price of [predict] are not finite, and in a
    history long enough for the regression the return stands as it is in
    the row of the next cutoff, where [?? 0] does not replace it. *)
Theorem zero_close_not_intercepted (values : list (xnum F)) (j : nat) :
  Forall finite values -> (j + 1 < length values)%nat -> isR (num_nth values j) 0 ->
  ~ finite (num_nth (pctReturns values) j) /\
  length (projectionLine (predict values)) = 5%nat /\
  Forall (fun p => ~ finite p) (projectionLine (predict values)) /\
  ~ finite (nextPrice (predict values)) /\
  ((20 <= j + 1)%nat -> (j + 2 < length values)%nat ->
   nth_error (trainingFeatures values (pctReturns values)) (j + 1 - 20)
   = Some (featureAt values (pctReturns values) (j + 1)) /\
   nth_error (featureAt values (pctReturns values) (j + 1)) 1
   = Some (num_nth (pctReturns values) j)).
Proof.
  intros Fv L Z. destruct (zero_close_return j Fv L Z) as [N E].
  split; [exact N|].
  assert (L2 : (2 <= length values)%nat) by lia.
  split; [apply predict_long_length, L2|].
  pose proof (length_pctReturns _ values) as Lr.
  assert (P : Forall (fun p => ~ finite p) (projectionLine (predict values)) /\
              ~ finite (nextPrice (predict values))).
  { unfold predict.
    assert ((length values <? 2)%nat = false) as -> by (apply Nat.ltb_ge; exact L2).
    rewrite Lr.
    assert ((0 <? length values - 1)%nat = true) as -> by (apply Nat.ltb_lt; lia).
    assert (G : ~ finite (add one (div (div (sum (pctReturns values)) (ofNat (length values - 1)))
                                       (hundred (num := xnum F))))).
    { apply add_not_finite_r, div_not_finite_l; [|exact I].
      apply div_not_finite_l; [|exact I].
      apply sum_not_finite. right. exact E. }
    set (g := add one _) in *.
    cbn [fold_left seq projectionLine nextPrice slice_from].
    repeat rewrite <- app_assoc. cbn [app skipn].
    unfold lastIndex, num_nth, num_at, at_. cbn.
    split; [|apply mul_not_finite_r, G].
    repeat constructor; apply mul_not_finite_r, G. }
  split; [apply P|]. split; [apply P|].
  intros L20 Lj. split.
  - unfold trainingFeatures. rewrite nth_error_map, nth_error_cutoffs by lia. reflexivity.
  - unfold featureAt. cbn [nth_error].
    replace (Z.of_nat (j + 1) - 1)%Z with (Z.of_nat j) by lia.
    unfold coalesce. change (at_ (pctReturns values) (Z.of_nat j)) with (at_ (pctReturns values) (Z.of_nat j)).
    rewrite at_nat. unfold num_nth, num_at, toNumber, coalesce. rewrite at_nat.
    destruct (nth_error (pctReturns values) j) eqn:Q; [reflexivity|].
    apply nth_error_None in Q. rewrite Lr in Q. lia.
Qed.
End ZeroClose.

(** The dot product of a row of eight cells, term by term. *)
Lemma dot_eight {num : Type} {N : JSNumber num} (f0 f1 f2 f3 f4 f5 f6 f7 : num)
    (beta : list num) :
  dot [f0; f1; f2; f3; f4; f5; f6; f7] beta
  = add (add (add (add (add (add (add (add zero (mul f0 (num_nth beta 0)))
                                           (mul f1 (num_nth beta 1)))
                                      (mul f2 (num_nth beta 2)))
                                 (mul f3 (num_nth beta 3)))
                            (mul f4 (num_nth beta 4)))
                       (mul f5 (num_nth beta 5)))
                  (mul f6 (num_nth beta 6)))
        (mul f7 (num_nth beta 7)).
Proof. reflexivity. Qed.

Section Flat.
Context {F : Type} {RF : RealField F} {RL : RealFieldLaws F}.
Local Open Scope R_scope.

Lemma mul_one_r (a : xnum F) : finite a -> mul a one = a.
Proof.
  intros Fa. apply (isR_inj (r := val a)); [|apply finite_isR, Fa].
  apply (isR_eq (isR_mul (finite_isR Fa) isR_one)). lra.
Qed.

Lemma mul_zero_r (a : xnum F) : finite a -> mul a zero = zero.
Proof.
  intros Fa. apply (isR_inj (r := 0)); [|apply isR_zero].
  apply (isR_eq (isR_mul (finite_isR Fa) isR_zero)). lra.
Qed.

Lemma add_zero_zero : add (zero : xnum F) zero = zero.
Proof.
  apply (isR_inj (r := 0)); [|apply isR_zero].
  apply (isR_eq (isR_add isR_zero isR_zero)). lra.
Qed.

Lemma growth_zero : add one (div (zero : xnum F) hundred) = one.
Proof.
  apply (isR_inj (r := 1)); [|apply isR_one].
  apply (isR_eq (isR_add isR_one (isR_div isR_zero isR_hundred ltac:(lra)))). lra.
Qed.

(** A fit to targets that are all zero has coefficients that are all zero. *)
Lemma linearRidge_zero_targets (X : matrix (xnum F)) (y beta : list (xnum F)) (p : nat) :
  (0 < length X)%nat -> (0 < p)%nat ->
  Forall (fun r => length r = p /\ Forall finite r) X ->
  length y = length X -> Forall (fun a => a = zero) y ->
  linearRidge X y (lit 1 (-2)) = Ok (Some beta) ->
  beta = repeat zero p.
Proof.
  intros Ln Lp HX Ly Hy E.
  pose proof (rows_mat HX) as Hm.
  assert (Fy : Forall finite y).
  { eapply Forall_impl; [|exact Hy]. intros a ->. exact I. }
  pose proof (list_vec Fy) as Hv. rewrite Ly in Hv.
  destruct isR_ridge as [l [Hl _]].
  destruct (linearRidge_steps Hm Hv Ln Lp Hl)
    as [Xt [XtX [Xty [ET [HXt [EM [HM [EY [HXty [N S]]]]]]]]]].
  destruct (invertMatrix (addRidge (lit 1 (-2)) XtX)) as [XtXinv|] eqn:EI;
    [|rewrite (N eq_refl) in E; discriminate E].
  destruct (S XtXinv eq_refl) as [binv [betaMat [HI [LI [EB [E' V]]]]]].
  rewrite E' in E. injection E as <-.
  apply (vec_unique V). split; [apply repeat_length|].
  intros i Li. rewrite num_nth_nth, nth_repeat_lt by exact Li.
  apply (isR_eq isR_zero). symmetry.
  apply bigsum_all_zero. intros j Lj.
  rewrite (bigsum_all_zero (fun k => val (cell X k j) * val (num_nth y k))); [lra|].
  intros k Lk. rewrite Forall_forall in Hy.
  rewrite (Hy (num_nth y k)); [rewrite (isR_val isR_zero); lra|].
  rewrite num_nth_nth. apply nth_In. lia.
Qed.

Lemma dot_zero (f : list (xnum F)) :
  length f = 8%nat -> Forall finite f -> dot f (repeat zero 8) = zero.
Proof.
  intros L Ff.
  do 8 (destruct f as [|? f]; [discriminate L|]). destruct f; [|discriminate L].
  rewrite dot_eight.
  repeat match goal with H : Forall _ (_ :: _) |- _ => inversion H; clear H; subst end.
  change (num_nth (repeat zero 8) 0) with (zero : xnum F).
  change (num_nth (repeat zero 8) 1) with (zero : xnum F).
  change (num_nth (repeat zero 8) 2) with (zero : xnum F).
  change (num_nth (repeat zero 8) 3) with (zero : xnum F).
  change (num_nth (repeat zero 8) 4) with (zero : xnum F).
  change (num_nth (repeat zero 8) 5) with (zero : xnum F).
  change (num_nth (repeat zero 8) 6) with (zero : xnum F).
  change (num_nth (repeat zero 8) 7) with (zero : xnum F).
  rewrite !mul_zero_r by assumption. rewrite !add_zero_zero. reflexivity.
Qed.

Lemma constant_returns (closes : list (xnum F)) (c : xnum F) :
  strictlyPositive c -> Forall (fun a => a = c) closes ->
  Forall (fun a => a = zero) (pctReturns closes).
Proof.
  intros [r [Hc Pc]] Hall. unfold pctReturns. apply Forall_forall. intros a Ha.
  apply in_map_iff in Ha. destruct Ha as [i [<- Hi]]. apply in_seq in Hi.
  rewrite Forall_forall in Hall.
  rewrite !num_nth_nth.
  rewrite (Hall (nth i closes NaN)) by (apply nth_In; lia).
  rewrite (Hall (nth (i - 1) closes NaN)) by (apply nth_In; lia).
  apply (isR_inj (r := 0)); [|apply isR_zero].
  apply (isR_eq (isR_mul (isR_div (isR_sub Hc Hc) Hc ltac:(lra)) isR_hundred)).
  field. lra.
Qed.

Lemma sum_zeros (l : list (xnum F)) : Forall (fun a => a = zero) l -> sum l = zero.
Proof.
  intros Hl. unfold sum, reduce.
  assert (G : forall acc, acc = zero -> fold_left add l acc = zero).
  { induction Hl as [|x l -> _ IH]; intros acc ->; [reflexivity|].
    simpl. apply IH. apply add_zero_zero. }
  apply G. reflexivity.
Qed.

Lemma last_constant (closes : list (xnum F)) (c : xnum F) :
  Forall (fun a => a = c) closes -> (0 < length closes)%nat ->
  num_at closes (lastIndex closes) = c.
Proof.
  intros Hall L. unfold lastIndex.
  replace (Z.of_nat (length closes) - 1)%Z with (Z.of_nat (length closes - 1)) by lia.
  change (num_nth closes (length closes - 1) = c). rewrite num_nth_nth.
  rewrite Forall_forall in Hall. apply Hall, nth_In. lia.
Qed.

Lemma predict_constant (values : list (xnum F)) (c : xnum F) :
  strictlyPositive c -> Forall (fun a => a = c) values -> (2 <= length values)%nat ->
  projectionLine (predict values) = repeat c 5 /\ nextPrice (predict values) = c.
Proof.
  intros Pc Hall L. pose proof (positive_finite Pc) as Fc.
  destruct (predict_steps values L) as [P N]. rewrite P, N.
  rewrite (sum_zeros (constant_returns Pc Hall)).
  assert (A : div (zero : xnum F) (ofNat (length values - 1)) = zero).
  { apply (isR_inj (r := 0)); [|apply isR_zero].
    assert (0 < INR (length values - 1)) by (apply lt_0_INR; lia).
    assert (D : INR (length values - 1) <> 0) by lra.
    apply (isR_eq (isR_div isR_zero (isR_ofNat _) D)). field. lra. }
  assert (L0 : (0 < length values)%nat) by lia.
  rewrite A, growth_zero, (last_constant Hall L0).
  rewrite !mul_one_r by exact Fc. split; reflexivity.
Qed.

Lemma rollout_constant (closes returns : list (xnum F)) (c : xnum F) (k : nat) :
  finite c ->
  goodBuffers {| lastCloses := closes; lastReturns := returns; projection := [] |} ->
  num_at closes (lastIndex closes) = c ->
  let s := Nat.iter k (rolloutStep (repeat zero 8))
             {| lastCloses := closes; lastReturns := returns; projection := [] |} in
  goodBuffers s /\ num_at (lastCloses s) (lastIndex (lastCloses s)) = c /\
  projection s = repeat c k.
Proof.
  intros Fc G0 L0. induction k as [|k IH]; cbv zeta in *.
  - split; [exact G0|]. split; [exact L0|reflexivity].
  - destruct IH as [G [L P]]. rewrite Nat.iter_succ.
    set (s := Nat.iter k (rolloutStep (repeat zero 8)) _) in *.
    assert (Fb : Forall finite (repeat (zero : xnum F) 8)) by (repeat constructor).
    destruct (rolloutStep_good Fb eq_refl G) as [Ff G'].
    split; [exact G'|].
    assert (R : stepReturn (repeat zero 8) s = zero).
    { unfold stepReturn. apply dot_zero; [reflexivity|exact Ff]. }
    assert (Q : stepPrice (repeat zero 8) s = c).
    { unfold stepPrice. rewrite R, growth_zero, L. apply mul_one_r, Fc. }
    rewrite rolloutStep_eq, Q. cbn [lastCloses projection]. split.
    + unfold lastIndex. rewrite length_app. cbn [length].
      replace (Z.of_nat (length (lastCloses s) + 1) - 1)%Z with (Z.of_nat (length (lastCloses s))) by lia.
      change (num_nth (lastCloses s ++ [c]) (length (lastCloses s)) = c).
      rewrite num_nth_nth, app_nth2, Nat.sub_diag by lia. reflexivity.
    + rewrite P. symmetry. apply repeat_cons.
Qed.

(** X10.  Over exact arithmetic, a history of two or more candles with one
    and the same finite, strictly positive close gets a flat forecast on
    every path: five projected prices equal to the close, and the next price
    equal to the close. *)
Theorem constant_history_flat (candles : list (Candle (xnum F))) (c : xnum F) :
  strictlyPositive c -> (2 <= length candles)%nat ->
  Forall (fun k => close k = c) candles ->
  exists r, improvedPredict candles = Ok r /\
            projectionLine r = repeat c 5 /\ nextPrice r = c.
Proof.
  intros Pc L2 Hall. pose proof (positive_finite Pc) as Fc.
  assert (Hc : Forall (fun a => a = c) (map close candles)).
  { apply Forall_forall. intros a Ha. apply in_map_iff in Ha. destruct Ha as [k [<- Hk]].
    rewrite Forall_forall in Hall. apply Hall, Hk. }
  assert (Lc : length (map close candles) = length candles) by apply length_map.
  destruct (Nat.lt_ge_cases (length candles) 30) as [L|L].
  - eexists. split; [apply improvedPredict_short, L|].
    cbn [withConfidence projectionLine nextPrice]. apply predict_constant; [exact Pc|exact Hc|lia].
  - assert (V : validCloses (map close candles)).
    { eapply Forall_impl; [|exact Hc]. intros a ->. exact Pc. }
    destruct (training_rows_finite V ltac:(lia)) as [HX [Hy [Ly LX]]].
    destruct (fit_finite HX Hy Ly LX) as [E|[beta [E _]]].
    + eexists. split; [apply improvedPredict_singular; [exact L|exact E]|].
      cbn [withConfidence projectionLine nextPrice].
      apply predict_constant; [exact Pc|exact Hc|lia].
    + assert (B : beta = repeat zero 8).
      { apply (linearRidge_zero_targets (p := 8) LX ltac:(lia) HX Ly); [|exact E].
        unfold trainingTargets. apply Forall_forall. intros a Ha.
        apply in_map_iff in Ha. destruct Ha as [i [<- Hi]].
        pose proof (constant_returns Pc Hc) as Z. rewrite Forall_forall in Z.
        apply Z. rewrite num_nth_nth. apply nth_In.
        unfold cutoffs in Hi. apply in_seq in Hi. rewrite length_pctReturns. lia. }
      subst beta.
      destruct (improvedPredict_regression candles L E) as [errors [_ P]].
      cbv zeta in P. eexists. split; [exact P|]. cbn [projectionLine nextPrice].
      rewrite rollout_iter.
      destruct (@rollout_constant (map close candles) (pctReturns (map close candles)) c 5 Fc
                  (@start_good _ _ _ (map close candles) V ltac:(lia)) (@last_constant (map close candles) c Hc ltac:(lia))) as [_ [_ Q]].
      rewrite Q. split; [reflexivity|].
      unfold lastIndex, num_at, at_. cbn. reflexivity.
Qed.
End Flat.


(** ** The backtest and the confidence *)


Section ThinGeneric.
Context {num : Type} `{JSNumber num}.
Lemma backtestErrors_thin (closes : list num) :
  (length closes <= 31)%nat -> backtestErrors closes = Ok [].
Proof.
  intros L. unfold backtestErrors, splits.
  replace (length closes - 1 - 30)%nat with 0%nat by lia. reflexivity.
Qed.
End ThinGeneric.

Section Thin.
Context {F : Type} {RF : RealField F} {RL : RealFieldLaws F}.
Local Open Scope R_scope.

(** X11.  Over exact arithmetic, a history of 30 or 31 candles with finite,
    strictly positive closes has no split to backtest: no error is recorded,
    and the confidence of the forecast is at most 0.2. *)
Theorem thin_history_confidence (candles : list (Candle (xnum F))) :
  (30 <= length candles <= 31)%nat -> validCloses (map close candles) ->
  backtestErrors (map close candles) = Ok [] /\
  exists r c v,
    improvedPredict candles = Ok r /\ confidence r = Some c /\
    isR c v /\ 0 <= v <= 2 / 10.
Proof.
  intros [L30 L31] V.
  assert (Lc : length (map close candles) = length candles) by apply length_map.
  assert (B : backtestErrors (map close candles) = Ok []).
  { apply backtestErrors_thin. lia. }
  split; [exact B|].
  destruct (training_rows_finite V ltac:(lia)) as [HX [Hy [Ly LX]]].
  destruct (fit_finite HX Hy Ly LX) as [E|[beta [E [Lb Fb]]]].
  - eexists. exists (lit 1 (-1)). eexists.
    split; [apply improvedPredict_singular; [exact L30|exact E]|].
    split; [reflexivity|]. split; [apply (isR_lit_neg 1 1)|].
    assert (T : IZR 1 / IZR (10 ^ 1) = 1 / 10) by (simpl; lra). rewrite T. lra.
  - destruct (improvedPredict_regression candles L30 E) as [errors [B' P]].
    rewrite B in B'. injection B' as <-.
    pose proof (fin_rSquared HX Hy Fb Lb Ly ltac:(lia)) as Fr.
    eexists. eexists. eexists. split; [exact P|]. split; [reflexivity|].
    unfold finalConfidence, backtestConfidence. cbn [length Nat.ltb Nat.leb].
    pose proof (isR_add (isR_mul (isR_lit_neg (F := F) 8 1) isR_zero)
                        (isR_mul (isR_lit_neg (F := F) 2 1)
                                 (isR_max isR_zero (isR_min isR_one (finite_isR Fr))))) as Hs.
    split; [apply (isR_max isR_zero (isR_min isR_one Hs))|].
    assert (T8 : IZR 8 / IZR (10 ^ 1) = 8 / 10) by (simpl; lra).
    assert (T2 : IZR 2 / IZR (10 ^ 1) = 2 / 10) by (simpl; lra).
    rewrite T8, T2.
    unfold Rmax, Rmin. repeat destruct (Rle_dec _ _); lra.
Qed.
End Thin.

Lemma filter_step (len start : nat) :
  filter (fun s => ((s - start) mod 3 =? 0)%nat) (seq start len)
  = map (fun k => (start + 3 * k)%nat) (seq 0 ((len + 2) / 3)).
Proof.
  revert start. induction len as [len IH] using lt_wf_ind. intros start.
  destruct len as [|[|[|len]]].
  - reflexivity.
  - cbn [seq filter]. rewrite Nat.sub_diag. cbn. f_equal. lia.
  - cbn [seq filter]. rewrite Nat.sub_diag.
    replace (S start - start)%nat with 1%nat by lia. cbn. f_equal. lia.
  - cbn [seq filter]. rewrite Nat.sub_diag.
    replace (S start - start)%nat with 1%nat by lia.
    replace (S (S start) - start)%nat with 2%nat by lia.
    change (0 mod 3 =? 0)%nat with true. change (1 mod 3 =? 0)%nat with false.
    change (2 mod 3 =? 0)%nat with false.
    rewrite (filter_ext_in _ (fun s => ((s - S (S (S start))) mod 3 =? 0)%nat)).
    2:{ intros s Hs. apply in_seq in Hs. f_equal.
        replace (s - start)%nat with (s - S (S (S start)) + 1 * 3)%nat by lia.
        apply Nat.Div0.mod_add. }
    rewrite (IH len) by lia.
    replace (S (S (S len)) + 2)%nat with (len + 2 + 1 * 3)%nat by lia.
    rewrite Nat.div_add by lia. rewrite Nat.add_1_r.
    cbn [seq map]. f_equal; [lia|].
    rewrite <- seq_shift, map_map. apply map_ext. intros k. lia.
Qed.

Lemma splits_explicit (n : nat) :
  splits n = map (fun k => (30 + 3 * k)%nat) (seq 0 ((n - 29) / 3)).
Proof.
  unfold splits. rewrite filter_step. do 2 f_equal.
  destruct (Nat.le_gt_cases n 31) as [L|L].
  - replace (n - 1 - 30 + 2)%nat with 2%nat by lia.
    rewrite !Nat.div_small by lia. reflexivity.
  - f_equal. lia.
Qed.

Lemma splits_length (n : nat) : length (splits n) = ((n - 29) / 3)%nat.
Proof. rewrite splits_explicit, length_map, length_seq. reflexivity. Qed.

Section Schedule.
Context {num : Type} `{JSNumber num}.

Lemma backtestSplit_grows (closes errors errors' : list num) (split : nat) :
  backtestSplit closes errors split = Ok errors' ->
  errors' = errors \/ exists e, errors' = errors ++ [e].
Proof.
  unfold backtestSplit.
  destruct (length _ <? 5)%nat; [intros [= <-]; left; reflexivity|].
  destruct (linearRidge _ _ _) as [[betaT|]|]; cbn [bind]; try discriminate.
  - destruct (at_ closes _) as [a|]; [|intros [= <-]; left; reflexivity].
    destruct (truthy a && ltb zero a); intros [= <-]; [right; eexists|left]; reflexivity.
  - intros [= <-]; left; reflexivity.
Qed.

Lemma backtest_fold_length (closes : list num) (l : list nat) (acc errors : list num) :
  fold_left (fun acc split => errors <- acc ;; backtestSplit closes errors split) l (Ok acc)
  = Ok errors ->
  (length errors <= length acc + length l)%nat.
Proof.
  revert acc. induction l as [|s l IH]; intros acc E; simpl in E.
  - injection E as <-. simpl. lia.
  - destruct (backtestSplit closes acc s) as [acc'|] eqn:B.
    + apply IH in E. apply backtestSplit_grows in B. destruct B as [->|[e ->]].
      * simpl. lia.
      * rewrite length_app in E. simpl in *. lia.
    + exfalso. clear -E. induction l as [|s' l IH]; simpl in E; [discriminate|auto].
Qed.

(** X12.  The backtest visits the splits 30, 33, 36, ... below [n - 1],
    that is [(n - 29) / 3] of them; at each of them the training sample has
    ten rows or more, so that the guard on fewer than five rows never
    skips one; and the backtest records one error for each split at most. *)
Theorem backtest_schedule (closes : list num) :
  splits (length closes)
  = map (fun k => (30 + 3 * k)%nat) (seq 0 ((length closes - 29) / 3)) /\
  (forall split, In split (splits (length closes)) ->
                 (10 <= length (map (backtestFeatureAt closes) (seq 20 (split - 20))))%nat) /\
  exists errors, backtestErrors closes = Ok errors /\
                 (length errors <= (length closes - 29) / 3)%nat.
Proof.
  split; [apply splits_explicit|].
  split.
  - intros split Hs. rewrite splits_explicit in Hs. apply in_map_iff in Hs.
    destruct Hs as [k [<- _]]. rewrite length_map, length_seq. lia.
  - destruct (backtestErrors_ok closes) as [errors E]. exists errors. split; [exact E|].
    apply backtest_fold_length in E. rewrite splits_length in E. simpl in E. exact E.
Qed.
End Schedule.

Section WalkForward.
Context {num : Type} `{JSNumber num}.
Local Open Scope js_scope.

Lemma slice_of_prefix (l : list num) (k a b : nat) :
  (b <= k)%nat -> slice (firstn k l) a b = slice l a b.
Proof.
  intros L. unfold slice.
  rewrite skipn_firstn_comm, firstn_firstn. f_equal. lia.
Qed.

Lemma backtestFeatureAt_prefix (closes : list num) (k i : nat) :
  (i + 1 <= k)%nat -> backtestFeatureAt (firstn k closes) i = backtestFeatureAt closes i.
Proof.
  intros L. unfold backtestFeatureAt.
  rewrite !(slice_of_prefix closes) by lia.
  rewrite !num_nth_firstn by lia. reflexivity.
Qed.

Lemma backtestTargetAt_prefix (closes : list num) (k i : nat) :
  (i + 2 <= k)%nat -> backtestTargetAt (firstn k closes) i = backtestTargetAt closes i.
Proof.
  intros L. unfold backtestTargetAt. rewrite !num_nth_firstn by lia. reflexivity.
Qed.

Lemma backtestNextFeature_prefix (closes : list num) (k split : nat) :
  (split + 1 <= k)%nat ->
  backtestNextFeature (firstn k closes) split = backtestNextFeature closes split.
Proof.
  intros L. unfold backtestNextFeature.
  rewrite !(slice_of_prefix closes) by lia. reflexivity.
Qed.

Lemma backtest_rows_prefix (closes : list num) (k split : nat) :
  (split + 1 <= k)%nat ->
  map (backtestFeatureAt (firstn k closes)) (seq 20 (split - 20))
  = map (backtestFeatureAt closes) (seq 20 (split - 20)) /\
  map (backtestTargetAt (firstn k closes)) (seq 20 (split - 20))
  = map (backtestTargetAt closes) (seq 20 (split - 20)).
Proof.
  intros L. split; apply map_ext_in; intros i Hi; apply in_seq in Hi.
  - apply backtestFeatureAt_prefix. lia.
  - apply backtestTargetAt_prefix. lia.
Qed.

(** X13.  The backtest does not look ahead: at a split, the training rows,
    their targets and the row of the split are those of the closes
    [closes[0..split]] alone, and the whole turn, the recorded error
    included, is that of the closes [closes[0..split+1]] alone. *)
Theorem backtest_no_lookahead (closes errors : list num) (split : nat) :
  map (backtestFeatureAt closes) (seq 20 (split - 20))
  = map (backtestFeatureAt (firstn (split + 1) closes)) (seq 20 (split - 20)) /\
  map (backtestTargetAt closes) (seq 20 (split - 20))
  = map (backtestTargetAt (firstn (split + 1) closes)) (seq 20 (split - 20)) /\
  backtestNextFeature closes split = backtestNextFeature (firstn (split + 1) closes) split /\
  backtestSplit closes errors split = backtestSplit (firstn (split + 2) closes) errors split.
Proof.
  destruct (@backtest_rows_prefix closes (split + 1) split) as [F1 T1]; [lia|].
  destruct (@backtest_rows_prefix closes (split + 2) split) as [F2 T2]; [lia|].
  split; [symmetry; exact F1|]. split; [symmetry; exact T1|].
  split; [symmetry; apply backtestNextFeature_prefix; lia|].
  unfold backtestSplit. rewrite F2, T2.
  rewrite backtestNextFeature_prefix by lia.
  rewrite num_nth_firstn by lia.
  rewrite at_firstn by lia. reflexivity.
Qed.
End WalkForward.

Section Placeholder.
Context {F : Type} {RF : RealField F} {RL : RealFieldLaws F}.
Local Open Scope R_scope.

Lemma orElse_zero_zero : orElse (zero : xnum F) zero = zero.
Proof. apply (orElse_zero_finite isR_zero). Qed.

Lemma placeholder_zero (A : Type) (l : list A) :
  orElse (stddev (map (fun _ => zero : xnum F) l)) zero = zero.
Proof.
  destruct l as [|a l].
  - reflexivity.
  - assert (W : within 0 (0 - 0) (stddev (map (fun _ => zero : xnum F) (a :: l)))).
    { apply stddev_within; [|simpl; lia].
      apply Forall_forall. intros b Hb. apply in_map_iff in Hb. destruct Hb as [? [<- _]].
      exists 0. split; [apply isR_zero|lra]. }
    destruct W as [r [Hr Br]]. rewrite (orElse_zero_finite Hr).
    apply (isR_inj Hr). replace r with 0 by lra. apply isR_zero.
Qed.

Lemma backtest_row_cell6 (closes : list (xnum F)) (i : nat) :
  num_nth (backtestFeatureAt closes i) 6 = zero.
Proof.
  unfold backtestFeatureAt. unfold num_nth, num_at, at_. cbn [Z.of_nat Z.ltb Z.compare Z.to_nat Pos.to_nat Pos.iter_op Nat.add nth_error toNumber coalesce].
  apply placeholder_zero.
Qed.

Lemma orElse_finite (a : xnum F) : finite a -> orElse a zero = a.
Proof. intros Fa. apply (orElse_zero_finite (finite_isR Fa)). Qed.

Lemma at_pctReturns (closes : list (xnum F)) (i : nat) :
  (1 <= i)%nat -> (i + 1 <= length closes)%nat ->
  at_ (pctReturns closes) (Z.of_nat i - 1)
  = Some (mul (div (sub (num_nth closes i) (num_nth closes (i - 1))) (num_nth closes (i - 1)))
              hundred).
Proof.
  intros L1 L. replace (Z.of_nat i - 1)%Z with (Z.of_nat (i - 1)) by lia.
  rewrite at_nat. unfold pctReturns. rewrite nth_error_map, nth_error_seq.
  assert (i - 1 < length closes - 1)%nat as L' by lia.
  apply Nat.ltb_lt in L'. rewrite L'. cbn [option_map].
  replace (1 + (i - 1))%nat with i by lia. reflexivity.
Qed.

(** X14.  Over exact arithmetic, for finite, strictly positive closes and a
    cutoff of 20 or more: the training row of the backtest is the row of the
    full sample but for the volatility cell, which is zero; and the row the
    backtest builds at a split is the row the rollout would build on the
    closes up to the split but for the volatility cell, which is taken from
    the closes. *)
Theorem backtest_rows_match_training (closes : list (xnum F)) (i : nat) :
  validCloses closes -> (20 <= i)%nat -> (i + 1 <= length closes)%nat ->
  backtestFeatureAt closes i = set_nth 6 zero (featureAt closes (pctReturns closes) i) /\
  backtestNextFeature closes i
  = set_nth 6 (orElse (stddev (slice closes (Nat.max 0 (i - 19)) i)) zero)
      (rolloutFeature (firstn (i + 1) closes) (pctReturns (firstn (i + 1) closes))).
Proof.
  intros V L20 Li. pose proof (valid_finite V) as Fc.
  assert (Fw : Forall finite (slice closes 0 (i + 1))) by (apply Forall_slice, Fc).
  assert (Lw : length (slice closes 0 (i + 1)) = (i + 1)%nat) by (apply length_window; lia).
  assert (S5 : finite (sma (slice closes 0 (i + 1)) 5)) by (apply fin_sma; [exact Fw|lia]).
  assert (S20 : finite (sma (slice closes 0 (i + 1)) 20)) by (apply fin_sma; [exact Fw|lia]).
  assert (E12 : finite (ema (slice closes 0 (i + 1)) 12)) by (apply fin_ema; [exact Fw|lia]).
  assert (E26 : finite (ema (slice closes 0 (i + 1)) 26)) by (apply fin_ema; [exact Fw|lia]).
  split.
  - unfold backtestFeatureAt, featureAt. cbn [set_nth coalesce].
    rewrite at_pctReturns by lia. cbn [coalesce].
    rewrite !orElse_finite by assumption.
    rewrite placeholder_zero. reflexivity.
  - unfold backtestNextFeature, rolloutFeature. cbn [set_nth coalesce].
    rewrite slice_prefix in *.
    pose proof (length_pctReturns _ (firstn (i + 1) closes)) as Lr.
    rewrite Lw in Lr.
    unfold lastIndex. rewrite Lr, Lw.
    replace (Z.of_nat (i + 1 - 1) - 1)%Z with (Z.of_nat i - 1)%Z by lia.
    rewrite at_pctReturns by (rewrite ?Lw; lia). cbn [coalesce].
    replace (Z.of_nat (i + 1) - 1)%Z with (Z.of_nat i) by lia.
    replace (Z.of_nat i - 1)%Z with (Z.of_nat (i - 1)) by lia.
    change (num_at (firstn (i + 1) closes) (Z.of_nat i)) with (num_nth (firstn (i + 1) closes) i).
    change (num_at (firstn (i + 1) closes) (Z.of_nat (i - 1))) with (num_nth (firstn (i + 1) closes) (i - 1)).
    assert (Vw : validCloses (firstn (i + 1) closes)) by (apply Forall_firstn, V).
    assert (Fp : finite (mul (div (sub (num_nth (firstn (i + 1) closes) i)
                                       (num_nth (firstn (i + 1) closes) (i - 1)))
                                  (num_nth (firstn (i + 1) closes) (i - 1))) hundred)).
    { apply fin_pct; [apply positive_finite|]; apply (valid_num_nth Vw); lia. }
    rewrite !orElse_finite by assumption. reflexivity.
Qed.
(** X15.  Over exact arithmetic, for finite, strictly positive closes: the
    model fitted at a split of the backtest has the volatility coefficient
    zero, so that the return it predicts is the same whatever finite value
    stands in the volatility cell of the row of the split. *)
Theorem backtest_ignores_volatility (closes betaT : list (xnum F)) (split : nat) (v : xnum F) :
  validCloses closes -> In split (splits (length closes)) -> finite v ->
  linearRidge (map (backtestFeatureAt closes) (seq 20 (split - 20)))
              (map (backtestTargetAt closes) (seq 20 (split - 20)))
              (lit 1 (-2)) = Ok (Some betaT) ->
  num_nth betaT 6 = zero /\
  dot (set_nth 6 v (backtestNextFeature closes split)) betaT
  = dot (backtestNextFeature closes split) betaT.
Proof.
  intros V Hs Fv E. apply splits_range in Hs. destruct Hs as [L30 Ln].
  destruct (@backtest_rows_finite _ _ _ closes split V Ln) as [HX Hy].
  destruct isR_ridge as [l [Hl Pl]].
  assert (Z : num_nth betaT 6 = zero).
  { pose proof (list_vec Hy) as Hv.
    replace (length (map (backtestTargetAt closes) (seq 20 (split - 20))))
      with (length (map (backtestFeatureAt closes) (seq 20 (split - 20)))) in Hv
      by (rewrite !length_map; reflexivity).
    assert (Ln' : (0 < length (map (backtestFeatureAt closes) (seq 20 (split - 20))))%nat)
      by (rewrite length_map, length_seq; lia).
    destruct (zero_column_reals (beta := betaT) (c := 6%nat) (rows_mat HX) Hv Ln' ltac:(lia) Hl Pl)
      as [_ Z]; [|exact E|].
    - intros k Lk. unfold cell, row.
      rewrite (nth_indep _ [] (backtestFeatureAt closes 0)) by exact Lk.
      rewrite (map_nth (backtestFeatureAt closes)), backtest_row_cell6.
      apply (isR_val isR_zero).
    - apply (isR_inj Z isR_zero). }
  split; [exact Z|].
  assert (Ff : Forall finite (backtestNextFeature closes split)) by (apply fin_backtestNextFeature; [exact V|lia|lia]).
  unfold backtestNextFeature in *. cbn [set_nth].
  rewrite !dot_eight, Z.
  inversion Ff as [|? ? _ Ff1]; subst. inversion Ff1 as [|? ? _ Ff2]; subst.
  inversion Ff2 as [|? ? _ Ff3]; subst. inversion Ff3 as [|? ? _ Ff4]; subst.
  inversion Ff4 as [|? ? _ Ff5]; subst. inversion Ff5 as [|? ? _ Ff6]; subst.
  inversion Ff6 as [|? ? F6 _]; subst.
  assert (M : forall a : xnum F, finite a -> mul a zero = zero).
  { intros a Fa. apply (isR_inj (r := 0)); [|apply isR_zero].
    apply (isR_eq (isR_mul (finite_isR Fa) isR_zero)). lra. }
  rewrite (M _ Fv). f_equal. f_equal. symmetry. apply M. exact F6.
Qed.
End Placeholder.

Section RolloutRow.
Context {num : Type} `{JSNumber num}.

(** X16.  The row of the first rollout step is the row the full sample
    would have at the last index but for the volatility cell: the rollout
    takes the deviation of the last 20 returns, a row of the full sample
    that of 19. *)
Theorem rollout_row_matches_training (closes : list num) :
  let returns := pctReturns closes in
  let i := (length closes - 1)%nat in
  rolloutFeature closes returns
  = set_nth 6 (stddev (slice_from returns (Nat.max 0 (length returns - 20))))
      (featureAt closes returns i) /\
  nth_error (featureAt closes returns i) 6
  = Some (stddev (slice returns (Nat.max 0 (i - 19)) i)) /\
  length (slice returns (Nat.max 0 (i - 19)) i) = Nat.min 19 (length returns) /\
  length (slice_from returns (Nat.max 0 (length returns - 20))) = Nat.min 20 (length returns).
Proof.
  cbv zeta. pose proof (length_pctReturns _ closes) as Lr.
  split; [|split; [reflexivity|split]].
  - unfold rolloutFeature, featureAt. cbn [set_nth coalesce].
    destruct closes as [|c0 rest] eqn:Q; [reflexivity|]. rewrite <- Q in *.
    assert (L : (1 <= length closes)%nat) by (rewrite Q; simpl; lia).
    replace (length closes - 1 + 1)%nat with (length closes) by lia.
    rewrite slice_prefix, firstn_all.
    unfold lastIndex at 1. rewrite Lr.
    replace (Z.of_nat (length closes - 1) - 1)%Z with (Z.of_nat (length closes - 1) - 1)%Z by lia.
    reflexivity.
  - rewrite length_slice, Lr. lia.
  - unfold slice_from. rewrite length_skipn, Lr. lia.
Qed.
End RolloutRow.

Section Fit.
Context {F : Type} {RF : RealField F} {RL : RealFieldLaws F}.
Local Open Scope R_scope.

Lemma nonneg_fold (A : Type) (f : xnum F -> A -> xnum F) (l : list A) (P : A -> Prop) init :
  (forall acc x, nonneg acc -> P x -> nonneg (f acc x)) ->
  nonneg init -> Forall P l -> nonneg (fold_left f l init).
Proof.
  intros Hf. revert init. induction l as [|x l IH]; intros init Hi Hl; simpl; [exact Hi|].
  inversion Hl; subst. apply IH; [apply Hf|]; assumption.
Qed.

(** X17.  Over exact arithmetic, on finite rows, targets and coefficients:
    [rSquared] is a finite value of 1 at most, so that [Math.min(1, r2)]
    leaves it as it is. *)
Theorem rSquared_at_most_one (features : matrix (xnum F)) (targets beta : list (xnum F)) :
  Forall (fun r => length r = 8%nat /\ Forall finite r) features ->
  Forall finite targets -> Forall finite beta -> length beta = 8%nat ->
  length targets = length features -> (0 < length targets)%nat ->
  (exists r, isR (rSquared features targets beta) r /\ r <= 1) /\
  Math_min one (rSquared features targets beta) = rSquared features targets beta.
Proof.
  intros HX Ht Hb Lb Lt L0. unfold rSquared.
  set (preds := map (fun f => dot f beta) features).
  assert (Fp : Forall finite preds).
  { apply Forall_forall. intros a Ha. apply in_map_iff in Ha. destruct Ha as [f [<- Hf]].
    rewrite Forall_forall in HX. destruct (HX f Hf) as [Lf Ff].
    apply fin_dot; [exact Ff|exact Hb|lia]. }
  assert (Lp : length preds = length targets) by (unfold preds; rewrite length_map; lia).
  assert (Fm : finite (div (sum targets) (ofNat (length targets)))).
  { apply fin_div_ofNat; [apply fin_sum, Ht|exact L0]. }
  assert (Ntot : nonneg (reduce (fun a b =>
                   add a (mul (sub b (div (sum targets) (ofNat (length targets))))
                              (sub b (div (sum targets) (ofNat (length targets))))))
                 targets zero)).
  { apply nonneg_fold_sq; [apply nonneg_zero|exact Fm|exact Ht]. }
  destruct Ntot as [t [Htot Pt]].
  destruct (isR_orElse_one Htot) as [s [Hs [Ns Es]]].
  assert (Ps : 0 < s).
  { destruct (Req_dec t 0) as [Z|Z].
    - pose proof (isR_orElse Htot isR_one (or_introl R1_neq_R0)) as O.
      destruct (Req_dec_T t 0); [|contradiction].
      rewrite <- (isR_val Hs), (isR_val O). lra.
    - rewrite (Es Z). lra. }
  assert (Nres : nonneg (reduce (fun a (ib : nat * xnum F) =>
                   add a (mul (sub (snd ib) (num_nth preds (fst ib)))
                              (sub (snd ib) (num_nth preds (fst ib)))))
                 (combine (seq 0 (length targets)) targets) zero)).
  { unfold reduce.
    apply nonneg_fold with (P := fun ib : nat * xnum F =>
                                  (fst ib < length preds)%nat /\ finite (snd ib)).
    - intros acc [i b] Hacc [Li Hb']. simpl in *.
      apply nonneg_sq_step; [exact Hacc|exact Hb'|apply fin_num_nth; assumption].
    - apply nonneg_zero.
    - apply Forall_forall. intros [i b] Hib.
      pose proof (in_combine_l _ _ _ _ Hib) as Hi. apply in_seq in Hi.
      pose proof (in_combine_r _ _ _ _ Hib) as Hb'.
      rewrite Forall_forall in Ht. simpl. split; [lia|apply Ht, Hb']. }
  destruct Nres as [q [Hq Pq]].
  pose proof (isR_sub isR_one (isR_div Hq Hs Ns)) as Hr.
  assert (B : 1 - q / s <= 1).
  { assert (0 <= q / s).
    { apply Rmult_le_pos; [exact Pq|]. left. apply Rinv_0_lt_compat, Ps. }
    lra. }
  split; [exists (1 - q / s); split; [exact Hr|exact B]|].
  apply (isR_inj (isR_min isR_one Hr)). apply (isR_eq Hr).
  unfold Rmin. destruct (Rle_dec 1 (1 - q / s)); lra.
Qed.
End Fit.


(** ** The screen *)


Section ChartFacts.
Context {num : Type} `{JSNumber num}.

Lemma chart_shape (historicalData : list num) (projectionLine : option (list num)) :
  exists h p,
    datasets (getChartData (Some historicalData) projectionLine) = [h; p] /\
    length (labels (getChartData (Some historicalData) projectionLine))
    = (length historicalData + 5)%nat /\
    length (data h) = (length historicalData + 5)%nat /\
    length (data p) = (length historicalData + 1 + (length (coalesce projectionLine []) - 1))%nat /\
    (forall i, (i < length historicalData)%nat ->
               nth_error (data h) i = option_map (@Value num) (nth_error historicalData i) /\
               nth_error (data p) i = Some Null) /\
    (forall i, (length historicalData <= i < length historicalData + 5)%nat ->
               nth_error (data h) i = Some Null) /\
    nth_error (data p) (length historicalData) = Some (lastPoint historicalData) /\
    (forall k, nth_error (data p) (length historicalData + 1 + k)
               = option_map (@Value num) (nth_error (coalesce projectionLine []) (1 + k))).
Proof.
  cbn [getChartData datasets labels]. do 2 eexists. split; [reflexivity|].
  cbn [data].
  split; [rewrite repeat_length, length_app, length_map, repeat_length; reflexivity|].
  split; [rewrite length_app, length_map, repeat_length; reflexivity|].
  split.
  { rewrite !length_app, repeat_length, length_map. unfold slice_from.
    rewrite length_skipn. simpl. lia. }
  split.
  { intros i Li. split.
    - rewrite nth_error_app1 by (rewrite length_map; exact Li). apply nth_error_map.
    - rewrite nth_error_app1 by (rewrite repeat_length; exact Li).
      apply nth_error_repeat. exact Li. }
  split.
  { intros i Li. rewrite nth_error_app2 by (rewrite length_map; lia).
    rewrite length_map. apply nth_error_repeat. lia. }
  split.
  { rewrite nth_error_app2 by (rewrite repeat_length; lia).
    rewrite repeat_length, Nat.sub_diag. reflexivity. }
  intros k. rewrite nth_error_app2 by (rewrite repeat_length; lia).
  rewrite repeat_length.
  replace (length historicalData + 1 + k - length historicalData)%nat with (S k) by lia.
  cbn [app nth_error]. rewrite nth_error_map. unfold slice_from.
  rewrite nth_error_skipn. reflexivity.
Qed.
End ChartFacts.

Section ChartOfForecast.
Context {num : Type} `{JSNumber num}.

Lemma predict_next_is_last (values : list num) :
  (2 <= length values)%nat ->
  nth_error (projectionLine (predict values)) 4 = Some (nextPrice (predict values)).
Proof.
  intros L. unfold predict. apply Nat.ltb_ge in L. rewrite L.
  cbn [projectionLine nextPrice fold_left seq slice_from].
  repeat rewrite <- app_assoc. cbn [app skipn nth_error].
  unfold lastIndex, num_at, at_. cbn. reflexivity.
Qed.

Lemma forecast_five (candles : list (Candle num)) (p : Forecast num) :
  (2 <= length candles)%nat -> improvedPredict candles = Ok p ->
  length (projectionLine p) = 5%nat /\ nth_error (projectionLine p) 4 = Some (nextPrice p).
Proof.
  intros L2 E.
  assert (Lc : (2 <= length (map close candles))%nat) by (rewrite length_map; exact L2).
  destruct (Nat.lt_ge_cases (length candles) 30) as [L|L].
  - rewrite (improvedPredict_short candles L) in E. injection E as <-.
    cbn [withConfidence projectionLine nextPrice].
    split; [apply predict_long_length, Lc|apply predict_next_is_last, Lc].
  - destruct (training_fit_ok (map close candles)) as [[beta|] F].
    + rewrite length_map. exact L.
    + destruct (improvedPredict_regression candles L F) as [errors [_ E']].
      cbv zeta in E'. rewrite E' in E.
      assert (Q : projectionLine p
                  = projection (rollout (map close candles) (pctReturns (map close candles)) beta)
                  /\ nextPrice p = num_at (projectionLine p) (lastIndex (projectionLine p))).
      { injection E as <-. split; reflexivity. }
      destruct Q as [Q1 Q2]. rewrite Q2, Q1.
      rewrite rollout_iter, projection_iter. cbn [app seq map length].
      split; [reflexivity|]. unfold lastIndex, num_at, at_. cbn. reflexivity.
    + rewrite (improvedPredict_singular candles L F) in E. injection E as <-.
      cbn [withConfidence projectionLine nextPrice].
      split; [apply predict_long_length, Lc|apply predict_next_is_last, Lc].
Qed.

(** X18.  The chart of a forecast: the historical line is the closes
    followed by five empty cells, and the projection line is an empty cell
    for every close, then the last close, then the projected prices but the
    first.  For two candles or more the projection line has as many cells
    as the historical one; it starts at the last close and ends at the next
    price, and the first projected price is not drawn: the chart is the same
    whatever that price is.  For fewer than two candles the projection is
    empty and the projection line stops one cell after the closes. *)
Theorem chart_of_forecast (candles : list (Candle num)) :
  exists p h q,
    improvedPredict candles = Ok p /\
    datasets (getChartData (Some (map close candles)) (Some (projectionLine p))) = [h; q] /\
    length (data h) = (length candles + 5)%nat /\
    data h = map (@Value num) (map close candles) ++ [Null; Null; Null; Null; Null] /\
    data q = repeat Null (length candles) ++ [lastPoint (map close candles)]
             ++ map (@Value num) (tl (projectionLine p)) /\
    ((2 <= length candles)%nat ->
     length (data q) = (length candles + 5)%nat /\
     nth_error (data q) (length candles) = Some (lastPoint (map close candles)) /\
     nth_error (data q) (length candles + 4) = Some (Value (nextPrice p)) /\
     (exists c p1 p2 p3 p4,
        nth_error (map close candles) (length candles - 1) = Some c /\
        projectionLine p = [p1; p2; p3; p4; nextPrice p] /\
        data q = repeat Null (length candles)
                 ++ [Value c; Value p2; Value p3; Value p4; Value (nextPrice p)]) /\
     forall first first' rest,
       projectionLine p = first :: rest ->
       getChartData (Some (map close candles)) (Some (first' :: rest))
       = getChartData (Some (map close candles)) (Some (projectionLine p))) /\
    ((length candles < 2)%nat ->
     projectionLine p = [] /\ length (data q) = (length candles + 1)%nat /\
     data q = repeat Null (length candles) ++ [lastPoint (map close candles)]).
Proof.
  destruct (improvedPredict_ok candles) as [p P].
  destruct (chart_shape (map close candles) (Some (projectionLine p)))
    as [h [q [D [_ [Lh [Lq [_ [_ [J K]]]]]]]]].
  assert (C : data h = map (@Value num) (map close candles) ++ [Null; Null; Null; Null; Null] /\
              data q = repeat Null (length candles) ++ [lastPoint (map close candles)]
                       ++ map (@Value num) (tl (projectionLine p))).
  { cbn [getChartData datasets coalesce] in D.
    assert (Eh : h = nth 0 [h; q] h) by reflexivity.
    assert (Eq : q = nth 1 [h; q] q) by reflexivity.
    rewrite <- D in Eh, Eq. cbn [nth] in Eh, Eq. rewrite Eh, Eq. cbn [data].
    rewrite length_map. split; [reflexivity|].
    destruct (projectionLine p); reflexivity. }
  destruct C as [Ch Cq].
  rewrite length_map in *. cbn [coalesce] in *.
  exists p, h, q. split; [exact P|]. split; [exact D|]. split; [exact Lh|].
  split; [exact Ch|]. split; [exact Cq|]. split.
  - intros L2. destruct (forecast_five candles L2 P) as [L5 N].
    split; [rewrite Lq, L5; lia|]. split; [exact J|]. split; [|split].
    + replace (length candles + 4)%nat with (length candles + 1 + 3)%nat by lia.
      rewrite K. cbn [Nat.add]. rewrite N. reflexivity.
    + destruct (nth_error (map close candles) (length candles - 1)) as [c|] eqn:Ec.
      2:{ apply nth_error_None in Ec. rewrite length_map in Ec. lia. }
      destruct (projectionLine p) as [|p1 [|p2 [|p3 [|p4 [|p5 [|p6 rest]]]]]] eqn:Ep;
        try discriminate L5.
      cbn [nth_error] in N. injection N as N.
      exists c, p1, p2, p3, p4. split; [reflexivity|]. rewrite <- N.
      split; [reflexivity|]. rewrite Cq. cbn [tl map app]. do 2 f_equal.
      unfold lastPoint, at_, lastIndex. rewrite length_map.
      replace (Z.of_nat (length candles) - 1 <? 0)%Z with false by (symmetry; apply Z.ltb_ge; lia).
      replace (Z.to_nat (Z.of_nat (length candles) - 1)) with (length candles - 1)%nat by lia.
      rewrite Ec. reflexivity.
    + intros first first' rest Q. rewrite Q. reflexivity.
  - intros L1. assert (Q : projectionLine p = []).
    { rewrite (improvedPredict_short candles ltac:(lia)) in P. injection P as <-.
      cbn [withConfidence projectionLine]. rewrite predict_short; [reflexivity|].
      rewrite length_map. exact L1. }
    split; [exact Q|]. split; [rewrite Lq, Q; simpl; lia|].
    rewrite Cq, Q. reflexivity.
Qed.
End ChartOfForecast.

Section FetchFacts.
Context {num : Type} `{JSNumber num}.
Variable isoDay : num -> option String.string.

Lemma pushEntry_closes (quote : Yahoo.Quote num) (timestamps : list num)
    (entries entries' : list (Candle num)) (i : nat) :
  pushEntry isoDay quote timestamps entries i = Normal entries' ->
  (length entries' <= S (length entries))%nat /\
  (Forall (fun c => truthy (volume c) = true \/ volume c = zero) entries ->
   Forall (fun c => truthy (volume c) = true \/ volume c = zero) entries') /\
  exists closes,
    Yahoo.close quote = Some closes /\
    map close entries'
    = map close entries ++ match nth_error closes i with Some (Some c) => [c] | _ => [] end.
Proof.
  unfold pushEntry. destruct (Yahoo.close quote) as [closes|]; [|discriminate].
  intros E.
  destruct (nth_error closes i) as [[c|]|] eqn:N.
  - destruct (isoDay _) as [day|]; [|discriminate].
    destruct (Yahoo.volume quote) as [volumes|]; [|discriminate].
    injection E as <-. split; [rewrite length_app; simpl; lia|]. split.
    + intros Hv. apply Forall_app. split; [exact Hv|]. constructor; [|constructor].
      cbn [volume]. unfold volumeAt.
      destruct (nth_error volumes i) as [[v|]|]; try (right; reflexivity).
      unfold orElse. destruct (truthy v) eqn:T; [left; exact T|right; reflexivity].
    + exists closes. split; [reflexivity|]. rewrite N, map_app. reflexivity.
  - injection E as <-. split; [lia|]. split; [intros Hv; exact Hv|].
    exists closes. split; [reflexivity|]. rewrite N, app_nil_r. reflexivity.
  - injection E as <-. split; [lia|]. split; [intros Hv; exact Hv|].
    exists closes. split; [reflexivity|]. rewrite N, app_nil_r. reflexivity.
Qed.

Lemma pushEntries_closes (quote : Yahoo.Quote num) (timestamps : list num) (l : list nat)
    (entries entries' : list (Candle num)) :
  fold_left (fun acc i => andThen acc (fun entries => pushEntry isoDay quote timestamps entries i))
            l (Normal entries) = Normal entries' ->
  (length entries' <= length entries + length l)%nat /\
  (Forall (fun c => truthy (volume c) = true \/ volume c = zero) entries ->
   Forall (fun c => truthy (volume c) = true \/ volume c = zero) entries') /\
  (forall closes, Yahoo.close quote = Some closes ->
     map close entries'
     = map close entries
       ++ flat_map (fun i => match nth_error closes i with Some (Some c) => [c] | _ => [] end) l).
Proof.
  revert entries. induction l as [|i l IH]; intros entries E; simpl in E.
  - injection E as <-. split; [simpl; lia|]. split; [intros Hv; exact Hv|].
    intros closes _. simpl. rewrite app_nil_r. reflexivity.
  - destruct (pushEntry isoDay quote timestamps entries i) as [e1|x] eqn:P.
    + cbn [andThen] in E. destruct (pushEntry_closes _ _ _ _ P) as [L [V [closes [EC M]]]].
      destruct (IH _ E) as [L' [V' M']].
      split; [simpl; lia|]. split; [intros Hv; apply V', V, Hv|].
      intros closes' EC'. rewrite EC in EC'. injection EC' as <-.
      rewrite (M' closes EC), M. cbn [flat_map]. rewrite <- app_assoc. reflexivity.
    + exfalso. cbn [andThen] in E. clear -E.
      induction l as [|j l IH]; simpl in E; [discriminate|auto].
Qed.

Lemma fetched_closes (json : Yahoo.Response num) (entries : list (Candle num)) :
  fetchStockData isoDay json = Normal entries -> entries <> [] ->
  exists result quote closes,
    firstQuote json = Some (result, quote) /\ Yahoo.close quote = Some closes.
Proof.
  unfold fetchStockData. destruct (firstQuote json) as [[result quote]|] eqn:Q; [|discriminate].
  destruct (Yahoo.timestamp result) as [timestamps|] eqn:T; [|discriminate].
  destruct (fold_left _ _ _) as [es|] eqn:E; [|discriminate].
  cbn [andThen]. intros [= <-] N. exists result, quote.
  destruct (Yahoo.close quote) as [closes|] eqn:C; [exists closes; split; reflexivity|].
  exfalso. apply N.
  assert (G : forall l acc,
            fold_left (fun acc i => andThen acc (fun entries => pushEntry isoDay quote timestamps entries i))
                      l acc = Normal es -> acc = Normal es /\ l = []).
  { induction l as [|i l IH]; intros acc A; simpl in A; [split; [exact A|reflexivity]|].
    apply IH in A. destruct A as [A _]. destruct acc as [a|x]; [|discriminate].
    cbn [andThen] in A. unfold pushEntry in A. rewrite C in A. discriminate. }
  apply G in E. destruct E as [E _]. injection E as <-. reflexivity.
Qed.

Lemma fetched_entries (json : Yahoo.Response num) (entries : list (Candle num)) :
  fetchStockData isoDay json = Normal entries ->
  exists result quote timestamps es,
    firstQuote json = Some (result, quote) /\
    Yahoo.timestamp result = Some timestamps /\
    fold_left (fun acc i => andThen acc (fun entries => pushEntry isoDay quote timestamps entries i))
              (seq 0 (length timestamps)) (Normal []) = Normal es /\
    entries = rev es.
Proof.
  unfold fetchStockData. destruct (firstQuote json) as [[result quote]|] eqn:Q; [|discriminate].
  destruct (Yahoo.timestamp result) as [timestamps|] eqn:T; [|discriminate].
  destruct (fold_left _ _ _) as [es|] eqn:E; [|discriminate].
  cbn [andThen]. intros [= <-]. exists result, quote, timestamps, es.
  split; [reflexivity|]. split; [exact T|]. split; [exact E|reflexivity].
Qed.

(** X19.  The candles that [fetchStockData] returns have the closes of the
    response that are not [null], in the reverse of the order of the
    timestamps; there are no more of them than timestamps, and the volume
    of each is a number that is not [NaN]: zero where the response has
    [null], no cell, zero or [NaN]. *)
Theorem fetchStockData_order (json : Yahoo.Response num) (entries : list (Candle num)) :
  fetchStockData isoDay json = Normal entries ->
  exists result quote timestamps,
    firstQuote json = Some (result, quote) /\
    Yahoo.timestamp result = Some timestamps /\
    (length entries <= length timestamps)%nat /\
    (forall closes, Yahoo.close quote = Some closes ->
                    map close entries = rev (keptCloses closes timestamps)) /\
    Forall (fun c => truthy (volume c) = true \/ volume c = zero) entries.
Proof.
  intros E. destruct (fetched_entries _ E) as [result [quote [timestamps [es [Q [T [P ->]]]]]]].
  exists result, quote, timestamps. split; [exact Q|]. split; [exact T|].
  destruct (pushEntries_closes _ _ _ _ P) as [L [V M]].
  split; [rewrite length_rev; rewrite length_seq in L; exact L|].
  split.
  - intros closes C. rewrite map_rev, (M closes C). reflexivity.
  - apply Forall_rev, V. constructor.
Qed.
End FetchFacts.

Section HandlerFacts.
Context {num : Type} `{JSNumber num}.
Variable isoDay : num -> option String.string.

Lemma last_of_rev (A : Type) (l : list A) :
  nth_error (rev l) (length l - 1) = hd_error l.
Proof.
  destruct l as [|a l]; [reflexivity|].
  cbn [rev length hd_error]. replace (S (length l) - 1)%nat with (length l) by lia.
  rewrite nth_error_app2 by (rewrite length_rev; lia).
  rewrite length_rev, Nat.sub_diag. reflexivity.
Qed.

(** X20.  After a request whose response gave one candle or more, the
    screen has no error, the closes of the response in the reverse of the
    order of the timestamps as its data, and the forecast of
    [improvedPredict] on them; the current price it shows is the first close
    of the response that is not [null]. *)
Theorem shown_price_is_first_close (upper : String.string) (json : Yahoo.Response num)
    (stockData : list (Candle num)) (s : App.State num) :
  upper <> String.EmptyString ->
  fetchStockData isoDay json = Normal stockData -> stockData <> [] ->
  exists result quote timestamps closes first p shown,
    firstQuote json = Some (result, quote) /\
    Yahoo.timestamp result = Some timestamps /\
    Yahoo.close quote = Some closes /\
    keptCloses closes timestamps = first :: tl (keptCloses closes timestamps) /\
    improvedPredict stockData = Ok p /\
    map close stockData = rev (keptCloses closes timestamps) /\
    handleStockPrediction upper (fetchStockData isoDay json) s
    = {| App.error := None;
         App.data := Some (rev (keptCloses closes timestamps));
         App.result := Some shown;
         App.suggestions := [] |} /\
    App.currentPrice shown = first /\
    App.nextPrice shown = nextPrice p /\
    App.projectionLine shown = projectionLine p /\
    App.confidence shown = confidence p.
Proof.
  intros U E N.
  destruct (fetched_entries isoDay _ E) as [result [quote [timestamps [es [Q [T [Pe Es]]]]]]].
  destruct (fetched_closes isoDay _ E N) as [result' [quote' [closes [Q' C]]]].
  rewrite Q in Q'. injection Q' as <- <-.
  assert (M : map close stockData = rev (keptCloses closes timestamps)).
  { destruct (pushEntries_closes _ _ _ _ _ Pe) as [_ [_ M]].
    rewrite Es, map_rev, (M closes C). reflexivity. }
  destruct (improvedPredict_ok stockData) as [p P].
  assert (K : exists first, keptCloses closes timestamps = first :: tl (keptCloses closes timestamps)).
  { destruct (keptCloses closes timestamps) as [|c k]; [|exists c; reflexivity].
    destruct stockData; [contradiction|discriminate]. }
  destruct K as [first K].
  assert (A : exists last, at_ stockData (Z.of_nat (length stockData) - 1) = Some last /\
                           close last = first).
  { replace (Z.of_nat (length stockData) - 1)%Z with (Z.of_nat (length stockData - 1)).
    2:{ destruct stockData; [contradiction|simpl length; lia]. }
    unfold at_. destruct (Z.of_nat (length stockData - 1) <? 0)%Z eqn:B;
      [apply Z.ltb_lt in B; lia|]. rewrite Nat2Z.id.
    assert (R : nth_error (map close stockData) (length stockData - 1) = Some first).
    { rewrite M. rewrite <- (length_map close stockData), M, length_rev.
      rewrite last_of_rev, K. reflexivity. }
    rewrite nth_error_map in R.
    destruct (nth_error stockData (length stockData - 1)) as [last|]; [|discriminate].
    exists last. split; [reflexivity|]. injection R as R. exact R. }
  destruct A as [last [A CL]].
  exists result, quote, timestamps, closes, first, p.
  eexists. split; [exact Q|]. split; [exact T|]. split; [exact C|]. split; [exact K|].
  split; [exact P|]. split; [exact M|]. split.
  { rewrite E. unfold handleStockPrediction.
    destruct upper as [|a u]; [contradiction|].
    destruct stockData as [|c0 rest]; [contradiction|].
    rewrite P, A, M. reflexivity. }
  cbn. split; [exact CL|]. repeat split.
Qed.
End HandlerFacts.

Section SlugFacts.
Variable toLowerCase : jsString -> jsString.

Lemma slugChar_not_dash c : isSlugChar c = true -> (c =? dash)%N = false.
Proof.
  intros S. destruct (c =? dash)%N eqn:E; [|reflexivity].
  apply N.eqb_eq in E. subst c. discriminate S.
Qed.

Lemma replaceRuns_loose (s : jsString) (inRun : bool) : loose inRun (replaceRuns inRun s).
Proof.
  revert inRun. induction s as [|c t IH]; intros inRun; simpl; [exact I|].
  destruct (isSlugChar c) eqn:S.
  - simpl. rewrite S. apply IH.
  - destruct inRun.
    + apply IH.
    + change (loose false (dash :: replaceRuns true t)).
      cbn. repeat split. apply IH.
Qed.

Lemma dropLeading_loose (s : jsString) : loose false s -> loose true (dropLeadingDash s).
Proof.
  destruct s as [|c t]; [intros _; exact I|]. cbn [loose dropLeadingDash].
  destruct (isSlugChar c) eqn:S.
  - intros L. rewrite (slugChar_not_dash _ S). cbn [loose]. rewrite S. exact L.
  - intros [-> [_ L]]. rewrite N.eqb_refl. exact L.
Qed.

Lemma dropTrailing_dashed (s : jsString) (b : bool) :
  loose b s -> (s = [] -> b = false) -> dashed b (dropTrailingDash s).
Proof.
  revert b. induction s as [|c t IH]; intros b L N; [apply N; reflexivity|].
  destruct t as [|c' t'].
  - cbn [loose] in L. cbn [dropTrailingDash]. destruct (isSlugChar c) eqn:S.
    + rewrite (slugChar_not_dash _ S). cbn [dashed]. rewrite S. reflexivity.
    + destruct L as [-> [-> _]]. rewrite N.eqb_refl. reflexivity.
  - change (dropTrailingDash (c :: c' :: t')) with (c :: dropTrailingDash (c' :: t')).
    cbn [loose] in L. cbn [dashed]. destruct (isSlugChar c) eqn:S.
    + apply IH; [exact L|discriminate].
    + destruct L as [-> [-> L]]. split; [reflexivity|]. split; [reflexivity|].
      apply IH; [exact L|discriminate].
Qed.

Lemma dashed_chars (s : jsString) (b : bool) :
  dashed b s -> Forall (fun c => isSlugChar c = true \/ c = dash) s.
Proof.
  revert b. induction s as [|c t IH]; intros b D; [constructor|].
  cbn [dashed] in D. destruct (isSlugChar c) eqn:S.
  - constructor; [left; exact S|apply (IH _ D)].
  - destruct D as [-> [_ D]]. constructor; [right; reflexivity|apply (IH _ D)].
Qed.

Lemma dashed_no_pair (a t : jsString) (b : bool) : ~ dashed b (a ++ dash :: dash :: t).
Proof.
  revert b. induction a as [|c a IH]; intros b D.
  - cbn in D. destruct D as [_ [_ [_ [D _]]]]. discriminate D.
  - cbn [app dashed] in D. destruct (isSlugChar c).
    + apply (IH _ D).
    + destruct D as [_ [_ D]]. apply (IH _ D).
Qed.

Lemma dashed_no_end (a : jsString) (b : bool) : ~ dashed b (a ++ [dash]).
Proof.
  revert b. induction a as [|c a IH]; intros b D.
  - cbn in D. destruct D as [_ [_ D]]. discriminate D.
  - cbn [app dashed] in D. destruct (isSlugChar c).
    + apply (IH _ D).
    + destruct D as [_ [_ D]]. apply (IH _ D).
Qed.

Lemma replaceRuns_keeps (s : jsString) (inRun : bool) :
  filter isSlugChar (replaceRuns inRun s) = filter isSlugChar s.
Proof.
  revert inRun. induction s as [|c t IH]; intros inRun; [reflexivity|].
  cbn [replaceRuns filter]. destruct (isSlugChar c) eqn:S.
  - cbn [filter]. rewrite S, IH. reflexivity.
  - destruct inRun; [apply IH|]. cbn [filter].
    change (isSlugChar dash) with false. cbn iota. apply IH.
Qed.

Lemma dropLeading_keeps (s : jsString) :
  filter isSlugChar (dropLeadingDash s) = filter isSlugChar s.
Proof.
  destruct s as [|c t]; [reflexivity|]. cbn [dropLeadingDash].
  destruct (c =? dash)%N eqn:E; [|reflexivity].
  apply N.eqb_eq in E. subst c. reflexivity.
Qed.

Lemma dropTrailing_keeps (s : jsString) :
  filter isSlugChar (dropTrailingDash s) = filter isSlugChar s.
Proof.
  induction s as [|c t IH]; [reflexivity|].
  destruct t as [|c' t'].
  - cbn [dropTrailingDash]. destruct (c =? dash)%N eqn:E; [|reflexivity].
    apply N.eqb_eq in E. subst c. reflexivity.
  - change (dropTrailingDash (c :: c' :: t')) with (c :: dropTrailingDash (c' :: t')).
    cbn [filter] in *. rewrite IH. reflexivity.
Qed.

(** X21.  The file name made of a company name keeps the characters
    [a-z0-9] of the name in lower case, in their order, and nothing else but
    dashes; it neither starts nor ends with a dash and has no two dashes in
    a row. *)
Theorem slug_is_clean (name : jsString) :
  filter isSlugChar (slug toLowerCase name) = filter isSlugChar (toLowerCase name) /\
  Forall (fun c => isSlugChar c = true \/ c = dash) (slug toLowerCase name) /\
  (forall t, slug toLowerCase name <> dash :: t) /\
  (forall a, slug toLowerCase name <> a ++ [dash]) /\
  (forall a t, slug toLowerCase name <> a ++ dash :: dash :: t).
Proof.
  assert (K : filter isSlugChar (slug toLowerCase name) = filter isSlugChar (toLowerCase name)).
  { unfold slug, stripDashes.
    rewrite dropTrailing_keeps, dropLeading_keeps. apply replaceRuns_keeps. }
  revert K. unfold slug, stripDashes. intros K.
  pose proof (@dropLeading_loose _ (replaceRuns_loose (toLowerCase name) false)) as L.
  destruct (dropLeadingDash (replaceRuns false (toLowerCase name))) as [|c t] eqn:E.
  - split; [exact K|].
    cbn. split; [constructor|]. split; [discriminate|].
    split; intros a; destruct a; discriminate.
  - split; [exact K|].
    pose proof (@dropTrailing_dashed (c :: t) true L ltac:(discriminate)) as D.
    split; [apply (dashed_chars _ _ D)|]. split.
    + intros t' Q. rewrite Q in D. cbn in D. destruct D as [_ [D _]]. discriminate D.
    + split.
      * intros a Q. rewrite Q in D. apply (dashed_no_end _ _ D).
      * intros a t' Q. rewrite Q in D. apply (dashed_no_pair _ _ _ D).
Qed.
End SlugFacts.

(** ** The properties at work *)


Lemma stddev_within_range_witness : within 0 (3 - 1) (stddev smallWindow).
Proof.
  assert (W : Forall (within 1 3) smallWindow).
  { unfold smallWindow. cbn [map].
    repeat constructor; eexists; (split; [apply isR_ofZ|split; apply IZR_le; lia]). }
  apply (proj1 (@stddev_within_range _ _ _ 1%R 3%R smallWindow W ltac:(simpl; lia))).
Defined.

Lemma transpose_involutive_witness :
  exists t, transpose wideMatrix = Ok t /\ length t = 3%nat /\ transpose t = Ok wideMatrix.
Proof.
  destruct (@transpose_involutive _ _ wideMatrix 3) as [t [E [L [_ R]]]].
  - discriminate.
  - lia.
  - repeat constructor.
  - exists t. split; [exact E|]. split; [exact L|exact R].
Defined.

Lemma invertMatrix_left_inverse_witness :
  exists Minv, invertMatrix smallMatrix = Some Minv /\
               matMul Minv smallMatrix = Ok (identity 2).
Proof.
  destruct (invertMatrix smallMatrix) as [Minv|] eqn:E; [|vm_compute in E; discriminate E].
  exists Minv. split; [reflexivity|].
  apply (@invertMatrix_left_inverse _ _ _ smallMatrix Minv).
  - simpl; lia.
  - repeat constructor.
  - exact E.
Defined.

Lemma invertMatrix_tiny_column_witness : invertMatrix tinyMatrix = None.
Proof.
  apply (@invertMatrix_tiny_column _ _ tinyMatrix).
  - discriminate.
  - intros r Lr. destruct r as [|[|r]]; [vm_compute; reflexivity|vm_compute; reflexivity|].
    simpl in Lr. lia.
Defined.

Lemma linearRidge_zero_column_witness :
  exists beta, linearRidge zeroColumnDesign zeroColumnTargets (lit 1 (-2)) = Ok (Some beta) /\
               num_nth beta 1 = zero.
Proof.
  destruct (linearRidge zeroColumnDesign zeroColumnTargets (lit 1 (-2))) as [[beta|]|] eqn:E;
    [|vm_compute in E; discriminate E|vm_compute in E; discriminate E].
  exists beta. split; [reflexivity|].
  apply (@linearRidge_zero_column _ _ _ zeroColumnDesign zeroColumnTargets beta (lit 1 (-2)) 2 1).
  - simpl; lia.
  - lia.
  - repeat constructor.
  - repeat constructor.
  - reflexivity.
  - repeat constructor.
  - exact I.
  - apply isR_lit_pos. reflexivity.
  - exact E.
Defined.

Lemma predict_compounds_witness :
  exists p1 p2 p3 p4 p5,
    projectionLine (predict (map close steadyCloses)) = [p1; p2; p3; p4; p5] /\
    Forall strictlyPositive [p1; p2; p3; p4; p5].
Proof.
  destruct (@predict_compounds _ _ _ (map close steadyCloses) steadyCloses_valid ltac:(simpl; lia))
    as (last & g & _ & _ & _ & _ & p1 & p2 & p3 & p4 & p5 & E & _ & _ & _ & _ & _ & _ & P).
  exists p1, p2, p3, p4, p5. split; [exact E|exact P].
Defined.

Lemma predict_scales_witness :
  projectionLine (predict (map (mul (ofZ 2)) (map close steadyCloses)))
  = map (mul (ofZ 2)) (projectionLine (predict (map close steadyCloses))).
Proof.
  apply (@predict_scales _ _ _ (map close steadyCloses) (ofZ 2) steadyCloses_valid).
  - exists 2%R. split; [apply (isR_ofZ 2)|lra].
  - simpl; lia.
Defined.

Lemma zero_close_not_intercepted_witness :
  Forall (fun p => ~ finite p) (projectionLine (predict (map close gapCloses))) /\
  ~ finite (nextPrice (predict (map close gapCloses))).
Proof.
  destruct (@zero_close_not_intercepted _ _ _ (map close gapCloses) 1) as [_ [_ [P [N _]]]].
  - repeat constructor.
  - simpl; lia.
  - apply (isR_ofZ 0).
  - split; [exact P|exact N].
Defined.

Lemma constant_history_flat_witness :
  exists r, improvedPredict steadyCloses = Ok r /\
            projectionLine r = repeat (ofZ 100) 5 /\ nextPrice r = ofZ 100.
Proof.
  apply (@constant_history_flat _ _ _ steadyCloses (ofZ 100)).
  - exists 100%R. split; [apply (isR_ofZ 100)|lra].
  - simpl; lia.
  - apply Forall_forall. intros k Hk. apply in_map_iff in Hk.
    destruct Hk as [i [<- _]]. reflexivity.
Defined.

Lemma thinCloses_valid : validCloses (map close thinCloses).
Proof.
  apply Forall_forall. intros a Ha. apply in_map_iff in Ha. destruct Ha as [c [<- Hc]].
  apply in_map_iff in Hc. destruct Hc as [k [<- _]]. cbn [close].
  exists 100%R. split; [apply (isR_ofZ 100)|lra].
Qed.

Lemma thin_history_confidence_witness :
  exists r c v,
    improvedPredict thinCloses = Ok r /\ confidence r = Some c /\
    isR c v /\ (0 <= v <= 2 / 10)%R.
Proof.
  apply (@thin_history_confidence _ _ _ thinCloses).
  - simpl; lia.
  - exact thinCloses_valid.
Defined.

Lemma backtest_rows_match_training_witness :
  backtestFeatureAt (map close steadyCloses) 20
  = set_nth 6 zero (featureAt (map close steadyCloses) (pctReturns (map close steadyCloses)) 20).
Proof.
  apply (@backtest_rows_match_training _ _ _ (map close steadyCloses) 20 steadyCloses_valid).
  - lia.
  - simpl; lia.
Defined.

Lemma backtest_ignores_volatility_witness :
  exists betaT,
    linearRidge (map (backtestFeatureAt (map close steadyCloses)) (seq 20 (30 - 20)))
                (map (backtestTargetAt (map close steadyCloses)) (seq 20 (30 - 20)))
                (lit 1 (-2)) = Ok (Some betaT) /\
    num_nth betaT 6 = zero.
Proof.
  destruct (linearRidge (map (backtestFeatureAt (map close steadyCloses)) (seq 20 (30 - 20)))
                        (map (backtestTargetAt (map close steadyCloses)) (seq 20 (30 - 20)))
                        (lit 1 (-2))) as [[betaT|]|] eqn:E;
    [|vm_compute in E; discriminate E|vm_compute in E; discriminate E].
  exists betaT. split; [reflexivity|].
  apply (@backtest_ignores_volatility _ _ _ (map close steadyCloses) betaT 30 zero
           steadyCloses_valid).
  - vm_compute. left. reflexivity.
  - exact I.
  - exact E.
Defined.

Lemma rSquared_at_most_one_witness :
  exists r, isR (rSquared unitDesign unitTargets (repeat zero 8)) r /\ (r <= 1)%R.
Proof.
  apply (@rSquared_at_most_one _ _ _ unitDesign unitTargets (repeat zero 8)).
  - vm_compute. repeat constructor.
  - vm_compute. repeat constructor.
  - repeat constructor.
  - reflexivity.
  - reflexivity.
  - simpl; lia.
Defined.

Lemma fetchStockData_order_witness :
  exists entries,
    fetchStockData sampleDay sampleResponse = Normal entries /\
    map close entries = [ofZ 103; ofZ 101] /\
    map volume entries = [ofZ 0; ofZ 5].
Proof.
  destruct (fetchStockData sampleDay sampleResponse) as [entries|] eqn:E;
    [|vm_compute in E; discriminate E].
  destruct (@fetchStockData_order _ _ sampleDay sampleResponse entries E)
    as [result [quote [timestamps [Q [T [_ [M _]]]]]]].
  exists entries. split; [reflexivity|].
  vm_compute in E. injection E as <-. split; reflexivity.
Defined.

Lemma shown_price_is_first_close_witness :
  exists shown,
    App.result (handleStockPrediction sampleTicker (fetchStockData sampleDay sampleResponse)
                                      initialState) = Some shown /\
    App.currentPrice shown = ofZ 101.
Proof.
  destruct (fetchStockData sampleDay sampleResponse) as [stockData|] eqn:E;
    [|vm_compute in E; discriminate E].
  destruct (@shown_price_is_first_close _ _ sampleDay sampleTicker sampleResponse stockData
              initialState)
    as (result & quote & timestamps & closes & first & p & shown & Q & T & C & K & _ & _ & S & P & _).
  - discriminate.
  - exact E.
  - vm_compute in E. injection E as <-. discriminate.
  - exists shown. rewrite <- E, S. split; [reflexivity|].
    rewrite P. vm_compute in Q. injection Q as <- <-.
    vm_compute in T. injection T as <-. vm_compute in C. injection C as <-.
    vm_compute in K. injection K as K. symmetry. exact K.
Defined.
